(** * ai-extraction-tester: comparator, scorer, schema inferrer, orchestrator

    A shallow embedding of [src/core/comparator.ts], [src/core/scorer.ts],
    the schema inferrer and the orchestrator, with the properties the
    specification states about them.

    Conventions of the embedding.
    - A JSON number is written as a decimal literal [m * 10^e]; its value is
      the binary64 number nearest to it, and the runtime's arithmetic on
      numbers is binary64 arithmetic: the exact result rounded to nearest,
      ties to even, with overflow to an infinity ([Js.fl]).  The two zeros
      are not told apart: nothing in the program divides by zero.
    - A JavaScript string is a [string] (a sequence of 8-bit characters).
    - An object is the list of its own properties in [Object.keys] order; a
      well-formed object has no repeated key ([wf]).
    - The functions of the source mutate the [result] they are handed; here
      they take the result and return the updated one. *)

From Stdlib Require Import List String Ascii Bool Arith ZArith.
From Stdlib Require Import QArith Qround Qabs Qminmax Qreduction Qpower.
From Stdlib Require Import Lia Lqa Permutation DecimalString SpecFloat.
Import ListNotations.

Open Scope string_scope.

(** ** JSON values *)

#[local] Set Warnings "-register-all".

Inductive Json : Type :=
| JNull
| JBool (b : bool)
| JNum (m e : Z)                       (* the number m * 10^e *)
| JStr (s : string)
| JArr (items : list Json)
| JObj (props : list (string * Json)).

(** The induction principle that reaches the values nested in arrays and
    objects. *)
Section JsonInd.
Variable P : Json -> Prop.
Hypothesis HNull : P JNull.
Hypothesis HBool : forall b, P (JBool b).
Hypothesis HNum : forall m e, P (JNum m e).
Hypothesis HStr : forall s, P (JStr s).
Hypothesis HArr : forall l, Forall P l -> P (JArr l).
Hypothesis HObj : forall kvs, Forall (fun kv => P (snd kv)) kvs -> P (JObj kvs).

Fixpoint Json_nested_ind (v : Json) : P v :=
  match v with
  | JNull => HNull
  | JBool b => HBool b
  | JNum m e => HNum m e
  | JStr s => HStr s
  | JArr l =>
      HArr l ((fix go (l : list Json) : Forall P l :=
                 match l with
                 | [] => Forall_nil _
                 | x :: r => Forall_cons x (Json_nested_ind x) (go r)
                 end) l)
  | JObj kvs =>
      HObj kvs ((fix go (l : list (string * Json))
                   : Forall (fun kv => P (snd kv)) l :=
                   match l with
                   | [] => Forall_nil _
                   | kv :: r =>
                       Forall_cons kv (Json_nested_ind (snd kv)) (go r)
                   end) kvs)
  end.
End JsonInd.

(** Well-formed values: no object has two properties of one name. *)
Fixpoint wf (v : Json) : Prop :=
  match v with
  | JArr l => (fix all (l : list Json) : Prop :=
                 match l with
                 | [] => True
                 | x :: r => wf x /\ all r
                 end) l
  | JObj kvs =>
      NoDup (map fst kvs) /\
      (fix all (l : list (string * Json)) : Prop :=
         match l with
         | [] => True
         | kv :: r => wf (snd kv) /\ all r
         end) kvs
  | _ => True
  end.

(** ** The runtime's built-in operations *)

Module Js.

(** [typeof]. *)
Inductive type_tag := TObject | TBoolean | TNumber | TString.

Definition typeof (v : Json) : type_tag :=
  match v with
  | JNull | JArr _ | JObj _ => TObject
  | JBool _ => TBoolean
  | JNum _ _ => TNumber
  | JStr _ => TString
  end.

Definition type_tag_eqb (a b : type_tag) : bool :=
  match a, b with
  | TObject, TObject | TBoolean, TBoolean
  | TNumber, TNumber | TString, TString => true
  | _, _ => false
  end.

Definition isArray (v : Json) : bool :=
  match v with JArr _ => true | _ => false end.

Definition isNull (v : Json) : bool :=
  match v with JNull => true | _ => false end.

(** *** Numbers

    The values of the Number type: NaN, the two infinities, and the finite
    binary64 values, each held as the rational it denotes. *)
Inductive number := NaN | Fin (q : Q) | Inf (negative : bool).

Definition isNaN (n : number) : bool :=
  match n with NaN => true | _ => false end.

Definition isFinite (n : number) : bool :=
  match n with Fin _ => true | _ => false end.

Definition pow10 (e : Z) : Q := Qpower (10 # 1) e.

Definition pow2 (e : Z) : Q := Qpower (2 # 1) e.

(** The real number that the decimal literal denotes. *)
Definition dec_value (m e : Z) : Q := inject_Z m * pow10 e.

(** [floor (log2 q)], for a positive [q]. *)
Definition ilog2 (q : Q) : Z :=
  let e := (Z.log2 (Qnum q) - Z.log2 (Zpos (Qden q)))%Z in
  if Qle_bool (pow2 e) q then e else (e - 1)%Z.

(** The nearest integer, a tie going to the even one. *)
Definition round_half_even (x : Q) : Z :=
  let f := Qfloor x in
  match Qcompare (x - inject_Z f) (1 # 2) with
  | Lt => f
  | Gt => (f + 1)%Z
  | Eq => if Z.even f then f else (f + 1)%Z
  end.

(** The unit in the last place of the binade of a positive [a]: 53
    significant bits, the exponent not below -1022. *)
Definition ulp (a : Q) : Q := pow2 (Z.max (ilog2 a) (-1022) - 52).

(** The multiple of that unit nearest to [a], a tie going to the even
    multiple. *)
Definition nearest (a : Q) : Q :=
  inject_Z (round_half_even (a / ulp a)) * ulp a.

(** The binary64 value of the real number [x]: the nearest multiple of the
    unit in the last place, with the sign of [x]; a result of 2^1024 or
    more is an infinity. *)
Definition fl (x : Q) : number :=
  let q := Qred x in
  match Qnum q with
  | Z0 => Fin 0
  | _ =>
      let r := nearest (Qabs q) in
      if Qle_bool (pow2 1024) r then Inf (Qnum q <? 0)%Z
      else Fin (Qred (if (Qnum q <? 0)%Z then - r else r))
  end.

Definition is_zero (q : Q) : bool := (Qnum q =? 0)%Z.

Definition is_negative (q : Q) : bool := (Qnum q <? 0)%Z.

Definition negate (n : number) : number :=
  match n with
  | NaN => NaN
  | Fin q => Fin (- q)
  | Inf s => Inf (negb s)
  end.

(** [Math.abs]. *)
Definition abs (n : number) : number :=
  match n with
  | NaN => NaN
  | Fin q => Fin (Qabs q)
  | Inf _ => Inf false
  end.

(** [a + b], [a - b], [a * b], [a / b]. *)
Definition add (a b : number) : number :=
  match a, b with
  | NaN, _ | _, NaN => NaN
  | Inf s, Inf t => if Bool.eqb s t then Inf s else NaN
  | Inf s, Fin _ | Fin _, Inf s => Inf s
  | Fin x, Fin y => fl (x + y)
  end.

Definition sub (a b : number) : number := add a (negate b).

Definition mul (a b : number) : number :=
  match a, b with
  | NaN, _ | _, NaN => NaN
  | Inf s, Inf t => Inf (xorb s t)
  | Inf s, Fin y | Fin y, Inf s =>
      if is_zero y then NaN else Inf (xorb s (is_negative y))
  | Fin x, Fin y => fl (x * y)
  end.

Definition div (a b : number) : number :=
  match a, b with
  | NaN, _ | _, NaN => NaN
  | Inf _, Inf _ => NaN
  | Inf s, Fin y => Inf (xorb s (is_negative y))
  | Fin _, Inf _ => Fin 0
  | Fin x, Fin y =>
      if is_zero y then (if is_zero x then NaN else Inf (is_negative x))
      else fl (x / y)
  end.

(** [a <= b], [a < b] and [a === b]: false when either is NaN. *)
Definition leb (a b : number) : bool :=
  match a, b with
  | NaN, _ | _, NaN => false
  | Inf s, Inf t => s || negb t
  | Inf s, Fin _ => s
  | Fin _, Inf t => negb t
  | Fin x, Fin y => Qle_bool x y
  end.

Definition ltb (a b : number) : bool :=
  match a, b with
  | NaN, _ | _, NaN => false
  | Inf s, Inf t => s && negb t
  | Inf s, Fin _ => s
  | Fin _, Inf t => negb t
  | Fin x, Fin y => negb (Qle_bool y x)
  end.

Definition eqb (a b : number) : bool :=
  match a, b with
  | Fin x, Fin y => Qeq_bool x y
  | Inf s, Inf t => Bool.eqb s t
  | _, _ => false
  end.

(** [Math.round]: the nearest integer, a tie going to the larger one (the
    result is a binary64 value whenever the argument is). *)
Definition round (n : number) : number :=
  match n with
  | Fin q => Fin (inject_Z (Qfloor (q + (1 # 2))))
  | _ => n
  end.

(** [Math.max]. *)
Definition max (a b : number) : number :=
  match a, b with
  | NaN, _ | _, NaN => NaN
  | _, _ => if leb a b then b else a
  end.

(** The value of an integer, as of a [length]. *)
Definition of_Z (z : Z) : number := fl (inject_Z z).

(** A count kept by the program: an integer far below 2^53, which
    binary64 holds exactly. *)
Definition of_count (n : nat) : number := Fin (inject_Z (Z.of_nat n)).

(** The number that a binary64 datum of the Standard Library's
    [SpecFloat] denotes, to compare this arithmetic with that one. *)
Definition of_spec_float (f : spec_float) : number :=
  match f with
  | S754_zero _ => Fin 0
  | S754_infinity s => Inf s
  | S754_nan => NaN
  | S754_finite s m e =>
      Fin (Qred ((if s then - (1) else 1) * inject_Z (Zpos m) * pow2 e))
  end.

Definition spec_of_Z (z : Z) : spec_float :=
  binary_normalize 53 1024 z 0 false.

(** [Math.abs(a - b) <= tol], the tolerance being a decimal of the
    configuration. *)
Definition within (a b : number) (tol : Q) : bool :=
  leb (abs (sub a b)) (fl tol).

(** *** Decimal digits *)

Definition nat_to_string (n : nat) : string :=
  NilEmpty.string_of_uint (Nat.to_uint n).

Definition pos_digits (p : positive) : string :=
  NilEmpty.string_of_uint (Pos.to_uint p).

Fixpoint zeros (n : nat) : string :=
  match n with O => "" | S k => String "0" (zeros k) end.

Fixpoint drop_zeros (l : list ascii) : list ascii * nat :=
  match l with
  | "0"%char :: r => let (d, n) := drop_zeros r in (d, S n)
  | _ => (l, O)
  end.

(** The digits of [p] without its trailing zeros, and how many were cut. *)
Definition significand (p : positive) : string * nat :=
  let (d, n) := drop_zeros (rev (list_ascii_of_string (pos_digits p))) in
  (string_of_list_ascii (rev d), n).

Definition exponent_string (x : Z) : string :=
  match x with
  | Z0 => "+0"
  | Zpos p => "+" ++ pos_digits p
  | Zneg p => "-" ++ pos_digits p
  end.

(** Number::toString (radix 10) of the positive number [p * 10^e]. *)
Definition positive_toString (p : positive) (e : Z) : string :=
  let (s, cut) := significand p in
  let k := Z.of_nat (String.length s) in
  let n := (k + e + Z.of_nat cut)%Z in
  if ((k <=? n) && (n <=? 21))%Z then
    s ++ zeros (Z.to_nat (n - k))
  else if ((0 <? n) && (n <=? 21))%Z then
    substring 0 (Z.to_nat n) s ++ "." ++
    substring (Z.to_nat n) (Z.to_nat (k - n)) s
  else if ((-6 <? n) && (n <=? 0))%Z then
    "0." ++ zeros (Z.to_nat (- n)) ++ s
  else if (k =? 1)%Z then
    s ++ "e" ++ exponent_string (n - 1)
  else
    substring 0 1 s ++ "." ++ substring 1 (Z.to_nat (k - 1)) s ++
    "e" ++ exponent_string (n - 1).

(** [floor (log10 a)], for a positive [a]. *)
Definition ilog10 (a : Q) : Z :=
  let e := (ilog2 a * 30103 / 100000)%Z in
  if Qle_bool (pow10 (e + 1)) a then (e + 1)%Z
  else if Qle_bool (pow10 e) a then e
  else (e - 1)%Z.

(** The decimal of [k] digits that denotes the binary64 value [a], if there
    is one: of the two decimals of [k] digits around [a], one whose binary64
    value is [a], the nearer to [a] if both are, the even one at a tie. *)
Definition decimal_of (a : Q) (k : Z) : option (positive * Z) :=
  let x := (ilog10 a + 1 - k)%Z in
  let lo := Qfloor (a / pow10 x) in
  let hi := (lo + 1)%Z in
  let denotes z := eqb (fl (dec_value z x)) (Fin a) in
  let pick z := match z with Zpos p => Some (p, x) | _ => None end in
  match denotes lo, denotes hi with
  | true, false => pick lo
  | false, true => pick hi
  | true, true =>
      match Qcompare (a - dec_value lo x) (dec_value hi x - a) with
      | Lt => pick lo
      | Gt => pick hi
      | Eq => if Z.even lo then pick lo else pick hi
      end
  | false, false => None
  end.

(** The shortest decimal that denotes [a]: [k] digits are tried before
    [k + 1]; seventeen digits tell any two binary64 values apart. *)
Fixpoint shortest (a : Q) (k : Z) (tries : nat) : positive * Z :=
  match tries with
  | O => (1%positive, 0%Z)
  | S tries' =>
      match decimal_of a k with
      | Some d => d
      | None => shortest a (k + 1) tries'
      end
  end.

(** Number::toString (radix 10). *)
Definition Number_toString (n : number) : string :=
  match n with
  | NaN => "NaN"
  | Inf false => "Infinity"
  | Inf true => "-Infinity"
  | Fin q =>
      if is_zero q then "0"
      else
        let (s, x) := shortest (Qabs q) 1 17 in
        if is_negative q then "-" ++ positive_toString s x
        else positive_toString s x
  end.

Fixpoint join (sep : string) (l : list string) : string :=
  match l with
  | [] => ""
  | [x] => x
  | x :: r => x ++ sep ++ join sep r
  end.

(** [String(v)]: ToString.  An array is joined with commas, [null]
    elements giving the empty string; an object is "[object Object]". *)
Fixpoint String_ (v : Json) : string :=
  match v with
  | JNull => "null"
  | JBool true => "true"
  | JBool false => "false"
  | JNum m e => Number_toString (fl (dec_value m e))
  | JStr s => s
  | JArr l =>
      join "," ((fix each (l : list Json) : list string :=
                   match l with
                   | [] => []
                   | JNull :: r => "" :: each r
                   | x :: r => String_ x :: each r
                   end) l)
  | JObj _ => "[object Object]"
  end.

(** *** StringToNumber

    Surrounding white space is dropped; the empty string is 0; then a
    signed decimal literal, [Infinity], or an unsigned 0x / 0o / 0b
    integer.  Anything else is NaN. *)

Definition is_ws (c : ascii) : bool :=
  let n := nat_of_ascii c in
  ((9 <=? n) && (n <=? 13) || (n =? 32))%nat.

Fixpoint ltrim (l : list ascii) : list ascii :=
  match l with
  | c :: r => if is_ws c then ltrim r else l
  | [] => []
  end.

Definition trim (l : list ascii) : list ascii :=
  rev (ltrim (rev (ltrim l))).

(** The value of a digit in the given radix. *)
Definition digit_value (radix : Z) (c : ascii) : option Z :=
  let n := Z.of_nat (nat_of_ascii c) in
  let v := if ((48 <=? n) && (n <=? 57))%Z then (n - 48)%Z
           else if ((97 <=? n) && (n <=? 102))%Z then (n - 87)%Z
           else if ((65 <=? n) && (n <=? 70))%Z then (n - 55)%Z
           else 99%Z in
  if (v <? radix)%Z then Some v else None.

(** The longest prefix of digits: its value, its length, and the rest. *)
Fixpoint read_digits (radix : Z) (l : list ascii) (acc : Z) (count : nat)
  : Z * nat * list ascii :=
  match l with
  | c :: r =>
      match digit_value radix c with
      | Some d => read_digits radix r (acc * radix + d)%Z (S count)
      | None => (acc, count, l)
      end
  | [] => (acc, count, [])
  end.

Definition read_integer (radix : Z) (l : list ascii) : number :=
  match read_digits radix l 0 0 with
  | (v, S _, []) => fl (inject_Z v)
  | _ => NaN
  end.

(** The exponent part that may close a decimal literal. *)
Definition read_exponent (l : list ascii) : option Z :=
  match l with
  | [] => Some 0%Z
  | c :: r =>
      if (Ascii.eqb c "e" || Ascii.eqb c "E")%bool then
        let '(neg, r') :=
          match r with
          | "-"%char :: t => (true, t)
          | "+"%char :: t => (false, t)
          | _ => (false, r)
          end in
        match read_digits 10 r' 0 0 with
        | (v, S _, []) => Some (if neg then (- v)%Z else v)
        | _ => None
        end
      else None
  end.

Definition read_decimal (l : list ascii) : number :=
  if list_eq_dec Ascii.ascii_dec l (list_ascii_of_string "Infinity")
  then Inf false
  else
    let '(ip, ni, r1) := read_digits 10 l 0 0 in
    let '(mant, nf, r2) :=
      match r1 with
      | "."%char :: t => read_digits 10 t ip 0
      | _ => (ip, O, r1)
      end in
    match (ni + nf)%nat, read_exponent r2 with
    | S _, Some x => fl (dec_value mant (x - Z.of_nat nf))
    | _, _ => NaN
    end.

Definition StringToNumber (s : string) : number :=
  match trim (list_ascii_of_string s) with
  | [] => Fin 0
  | "0"%char :: c :: r =>
      if (Ascii.eqb c "x" || Ascii.eqb c "X")%bool then read_integer 16 r
      else if (Ascii.eqb c "o" || Ascii.eqb c "O")%bool then read_integer 8 r
      else if (Ascii.eqb c "b" || Ascii.eqb c "B")%bool then read_integer 2 r
      else read_decimal ("0"%char :: c :: r)
  | "-"%char :: r => negate (read_decimal r)
  | "+"%char :: r => read_decimal r
  | l => read_decimal l
  end.

(** [Number(v)]: ToNumber; a container goes through its string. *)
Definition Number_ (v : Json) : number :=
  match v with
  | JNull => Fin 0
  | JBool true => Fin 1
  | JBool false => Fin 0
  | JNum m e => fl (dec_value m e)
  | JStr s => StringToNumber s
  | _ => StringToNumber (String_ v)
  end.

(** *** JSON.stringify *)

Definition hex_digit (n : nat) : ascii :=
  ascii_of_nat (if (n <? 10)%nat then 48 + n else 87 + n).

Definition quote_char (c : ascii) : string :=
  let n := nat_of_ascii c in
  if (n =? 34)%nat then "\" ++ String c ""
  else if (n =? 92)%nat then "\\"
  else if (n =? 8)%nat then "\b"
  else if (n =? 12)%nat then "\f"
  else if (n =? 10)%nat then "\n"
  else if (n =? 13)%nat then "\r"
  else if (n =? 9)%nat then "\t"
  else if (n <? 32)%nat then
    "\u00" ++ String (hex_digit (n / 16)) (String (hex_digit (n mod 16)) "")
  else String c "".

Fixpoint quote_chars (s : string) : string :=
  match s with
  | EmptyString => ""
  | String c r => quote_char c ++ quote_chars r
  end.

Definition dquote : string := String (ascii_of_nat 34) "".

Definition QuoteJSONString (s : string) : string :=
  dquote ++ quote_chars s ++ dquote.

Fixpoint JSON_stringify (v : Json) : string :=
  match v with
  | JNull => "null"
  | JBool true => "true"
  | JBool false => "false"
  | JNum m e =>
      (* a number that is not finite is serialized as null *)
      if isFinite (fl (dec_value m e))
      then Number_toString (fl (dec_value m e)) else "null"
  | JStr s => QuoteJSONString s
  | JArr l =>
      "[" ++ join "," ((fix each (l : list Json) : list string :=
                          match l with
                          | [] => []
                          | x :: r => JSON_stringify x :: each r
                          end) l) ++ "]"
  | JObj kvs =>
      "{" ++ join "," ((fix each (l : list (string * Json)) : list string :=
                          match l with
                          | [] => []
                          | (k, x) :: r =>
                              (QuoteJSONString k ++ ":" ++ JSON_stringify x)
                                :: each r
                          end) kvs) ++ "}"
  end.

End Js.

(** *** Sets of strings

    A [Set<string>] keeps its elements in insertion order, each once. *)

Module JsSet.

Definition t := list string.

Definition empty : t := [].

Definition has (s : t) (x : string) : bool := existsb (String.eqb x) s.

Definition add (s : t) (x : string) : t :=
  if has s x then s else (s ++ [x])%list.

(** [new Set(iterable)]. *)
Definition of_list (l : list string) : t := fold_left add l empty.

Definition size (s : t) : nat := List.length s.

End JsSet.

(** *** Property access

    [key in v] and [v[key]] for the own properties of an object or an
    array (its indices and [length]): [get].  The runtime finds a name
    through the prototype chain as well; the names so found are listed by
    [inherited], and what the comparator does when a key of the one value
    is such a name and not an own property of the other is not modelled:
    the statements that depend on it exclude these names. *)

Fixpoint lookup (key : string) (kvs : list (string * Json)) : option Json :=
  match kvs with
  | [] => None
  | (k, v) :: r => if String.eqb key k then Some v else lookup key r
  end.

Definition index_of_key (key : string) (len : nat) : option nat :=
  find (fun i => String.eqb key (Js.nat_to_string i)) (seq 0 len).

Definition get (v : Json) (key : string) : option Json :=
  match v with
  | JObj kvs => lookup key kvs
  | JArr l =>
      if String.eqb key "length" then Some (JNum (Z.of_nat (List.length l)) 0)
      else match index_of_key key (List.length l) with
           | Some i => nth_error l i
           | None => None
           end
  | _ => None
  end.

(** The properties of [Object.prototype]. *)
Definition object_prototype_names : list string :=
  ["constructor"; "__defineGetter__"; "__defineSetter__"; "hasOwnProperty";
   "__lookupGetter__"; "__lookupSetter__"; "isPrototypeOf";
   "propertyIsEnumerable"; "toString"; "valueOf"; "__proto__";
   "toLocaleString"].

(** The properties of [Array.prototype] (ECMAScript 2023, with the names
    that engines have shipped for proposals since). *)
Definition array_prototype_names : list string :=
  ["length"; "constructor"; "at"; "concat"; "copyWithin"; "fill"; "find";
   "findIndex"; "findLast"; "findLastIndex"; "lastIndexOf"; "pop"; "push";
   "reverse"; "shift"; "unshift"; "slice"; "sort"; "splice"; "includes";
   "indexOf"; "join"; "keys"; "entries"; "values"; "forEach"; "filter";
   "flat"; "flatMap"; "map"; "every"; "some"; "reduce"; "reduceRight";
   "toLocaleString"; "toString"; "toReversed"; "toSorted"; "toSpliced";
   "with"; "group"; "groupBy"; "groupToMap"; "groupByToMap"].

(** [key] names a property that [v] inherits from its prototype chain. *)
Definition inherited (v : Json) (key : string) : bool :=
  match v with
  | JObj _ => existsb (String.eqb key) object_prototype_names
  | JArr _ =>
      existsb (String.eqb key)
        (array_prototype_names ++ object_prototype_names)%list
  | _ => false
  end.

(** ** Comparison rules and results ([src/types]) *)

Inductive ArrayStrategy := ordered | unordered.

Record ComparisonRules := {
  ignoreFields : list string;
  arrayStrategy : ArrayStrategy;
  numericTolerance : Q;
  typeCoercion : bool;
  extraFieldsWarning : bool
}.

Inductive MismatchType := value_mismatch | type_mismatch | numeric_mismatch.

Record FieldMismatch := {
  mismatch_path : string;
  mismatch_groundTruth : Json;
  mismatch_actual : Json;
  mismatch_type : MismatchType
}.

Record MissingField := {
  missing_path : string;
  expectedValue : Json
}.

Record ExtraField := {
  extra_path : string;
  extra_value : Json
}.

Record ArrayOrderWarning := {
  warning_path : string;
  message : string
}.

Record ComparisonResult := {
  passed : bool;
  mismatches : list FieldMismatch;
  missing : list MissingField;
  extra : list ExtraField;
  warnings : list ArrayOrderWarning
}.

(** [result.<list>.push(entry)]. *)
Definition push_mismatch (r : ComparisonResult) (m : FieldMismatch) :=
  {| passed := passed r; mismatches := (mismatches r ++ [m])%list;
     missing := missing r; extra := extra r; warnings := warnings r |}.

Definition push_missing (r : ComparisonResult) (m : MissingField) :=
  {| passed := passed r; mismatches := mismatches r;
     missing := (missing r ++ [m])%list; extra := extra r;
     warnings := warnings r |}.

Definition push_extra (r : ComparisonResult) (e : ExtraField) :=
  {| passed := passed r; mismatches := mismatches r;
     missing := missing r; extra := (extra r ++ [e])%list;
     warnings := warnings r |}.

Definition push_warning (r : ComparisonResult) (w : ArrayOrderWarning) :=
  {| passed := passed r; mismatches := mismatches r;
     missing := missing r; extra := extra r;
     warnings := (warnings r ++ [w])%list |}.

Definition set_passed (r : ComparisonResult) (b : bool) :=
  {| passed := b; mismatches := mismatches r;
     missing := missing r; extra := extra r; warnings := warnings r |}.

(** ** The comparator ([src/core/comparator.ts]) *)

Module Comparator.

(** [path ? `${path}.${key}` : key]. *)
Definition fieldPath (path key : string) : string :=
  match path with
  | EmptyString => key
  | _ => path ++ "." ++ key
  end.

(** [`${path}[${i}]`]. *)
Definition itemPath (path : string) (i : nat) : string :=
  path ++ "[" ++ Js.nat_to_string i ++ "]".

(** [path || 'root']. *)
Definition path_or_root (path : string) : string :=
  match path with
  | EmptyString => "root"
  | _ => path
  end.

(** [gt !== actual] negated, on a primitive [gt]. *)
Definition strict_eq (a b : Json) : bool :=
  match a, b with
  | JNull, JNull => true
  | JBool x, JBool y => Bool.eqb x y
  | JNum m e, JNum m' e' =>
      Js.eqb (Js.fl (Js.dec_value m e)) (Js.fl (Js.dec_value m' e'))
  | JStr x, JStr y => String.eqb x y
  | _, _ => false
  end.

Definition is_number (v : Json) : bool :=
  Js.type_tag_eqb (Js.typeof v) Js.TNumber.

Definition is_string (v : Json) : bool :=
  Js.type_tag_eqb (Js.typeof v) Js.TString.

Definition is_object (v : Json) : bool :=
  Js.type_tag_eqb (Js.typeof v) Js.TObject.

Definition comparePrimitives (gt actual : Json) (path : string)
    (result : ComparisonResult) (rules : ComparisonRules)
  : ComparisonResult :=
  let numeric :=
    push_mismatch result
      {| mismatch_path := path; mismatch_groundTruth := gt;
         mismatch_actual := actual; mismatch_type := numeric_mismatch |} in
  (* the numeric tolerance check and the direct comparison *)
  let direct :=
    if is_number gt && is_number actual then
      if Js.within (Js.Number_ gt) (Js.Number_ actual)
           (numericTolerance rules)
      then result else numeric
    else if strict_eq gt actual then result
    else
      push_mismatch result
        {| mismatch_path := path; mismatch_groundTruth := gt;
           mismatch_actual := actual; mismatch_type := value_mismatch |} in
  if typeCoercion rules
     && negb (Js.type_tag_eqb (Js.typeof gt) (Js.typeof actual))
  then
    (* string comparison for numbers *)
    let by_string :=
      if String.eqb (Js.String_ gt) (Js.String_ actual)
      then result else direct in
    if (is_number gt && is_string actual)
       || (is_string gt && is_number actual)
    then
      let gtNum := Js.Number_ gt in
      let actualNum := Js.Number_ actual in
      if negb (Js.isNaN gtNum) && negb (Js.isNaN actualNum) then
        if Js.within gtNum actualNum (numericTolerance rules)
        then result else numeric
      else by_string
    else by_string
  else direct.

(** The items of [actual] from index [i] on, when the ground truth has
    ended: [i >= gt.length]. *)
Fixpoint extra_items (al : list Json) (path : string) (i : nat)
    (result : ComparisonResult) : ComparisonResult :=
  match al with
  | [] => result
  | a :: al' =>
      extra_items al' path (S i)
        (push_extra result
           {| extra_path := itemPath path i; extra_value := a |})
  end.

(** The unordered branch of [compareArrays]. *)
Definition compareUnordered (gt actual : list Json) (path : string)
    (result : ComparisonResult) : ComparisonResult :=
  let gtSet := JsSet.of_list (map Js.String_ gt) in
  let actualSet := JsSet.of_list (map Js.String_ actual) in
  let r1 :=
    fold_left
      (fun r item =>
         if negb (JsSet.has actualSet (Js.String_ item)) then
           push_missing r
             {| missing_path := path ++ "[]"; expectedValue := item |}
         else r)
      gt result in
  let r2 :=
    fold_left
      (fun r item =>
         if negb (JsSet.has gtSet (Js.String_ item)) then
           push_extra r
             {| extra_path := path ++ "[]"; extra_value := item |}
         else r)
      actual r1 in
  if (List.length gt =? List.length actual)%nat
     && negb (String.eqb (Js.JSON_stringify (JArr gt))
                         (Js.JSON_stringify (JArr actual)))
  then
    push_warning r2
      {| warning_path := path;
         message := "Array order differs (unordered comparison enabled)" |}
  else r2.

Definition first_is_object (gt : list Json) : bool :=
  match gt with
  | g :: _ => is_object g
  | [] => false
  end.

Section Rules.
Variable rules : ComparisonRules.
Variable ignoreSet : JsSet.t.

(** [compareObject], with the loops of [compareObjectArrays] and of
    the ordered branch of [compareArrays] (the same loop, written
    twice in the source) as [positional], and the loop over
    [Object.keys(gt)] as [fields]. *)
Fixpoint compareObject (gt actual : Json) (path : string)
    (result : ComparisonResult) {struct gt} : ComparisonResult :=
  if Js.isNull gt && Js.isNull actual then result
  else if Js.isNull gt || Js.isNull actual then
    push_mismatch result
      {| mismatch_path := path_or_root path; mismatch_groundTruth := gt;
         mismatch_actual := actual; mismatch_type := value_mismatch |}
  else
    match gt with
    | JArr gl =>
        match actual with
        | JArr al =>
            let positional :=
              fix positional (gl al : list Json) (i : nat)
                  (result : ComparisonResult) {struct gl}
                : ComparisonResult :=
                match gl with
                | [] => extra_items al path i result
                | g :: gl' =>
                    match al with
                    | [] =>
                        positional gl' [] (S i)
                          (push_missing result
                             {| missing_path := itemPath path i;
                                expectedValue := g |})
                    | a :: al' =>
                        positional gl' al' (S i)
                          (compareObject g a (itemPath path i) result)
                    end
                end in
            if (List.length gl =? 0)%nat && (List.length al =? 0)%nat
            then result
            else if first_is_object gl then positional gl al O result
            else
              match arrayStrategy rules with
              | ordered => positional gl al O result
              | unordered => compareUnordered gl al path result
              end
        | _ =>
            push_mismatch result
              {| mismatch_path := path; mismatch_groundTruth := gt;
                 mismatch_actual := actual;
                 mismatch_type := type_mismatch |}
        end
    | JObj kvs =>
        if negb (is_object actual) then
          push_mismatch result
            {| mismatch_path := path; mismatch_groundTruth := gt;
               mismatch_actual := actual;
               mismatch_type := type_mismatch |}
        else
          (fix fields (kvs : list (string * Json))
               (result : ComparisonResult) {struct kvs}
             : ComparisonResult :=
             match kvs with
             | [] => result
             | (key, v) :: rest =>
                 let fp := fieldPath path key in
                 if JsSet.has ignoreSet fp then fields rest result
                 else
                   match get actual key with
                   | None =>
                       fields rest
                         (push_missing result
                            {| missing_path := fp; expectedValue := v |})
                   | Some a => fields rest (compareObject v a fp result)
                   end
             end) kvs result
    | _ => comparePrimitives gt actual path result rules
    end.

(** The element-by-element loop. *)
Fixpoint positional (gl al : list Json) (path : string) (i : nat)
    (result : ComparisonResult) {struct gl} : ComparisonResult :=
  match gl with
  | [] => extra_items al path i result
  | g :: gl' =>
      match al with
      | [] =>
          positional gl' [] path (S i)
            (push_missing result
               {| missing_path := itemPath path i; expectedValue := g |})
      | a :: al' =>
          positional gl' al' path (S i)
            (compareObject g a (itemPath path i) result)
      end
  end.

Definition compareObjectArrays (gt actual : list Json) (path : string)
    (result : ComparisonResult) : ComparisonResult :=
  positional gt actual path O result.

Definition compareArrays (gt actual : list Json) (path : string)
    (result : ComparisonResult) : ComparisonResult :=
  match arrayStrategy rules with
  | ordered => positional gt actual path O result
  | unordered => compareUnordered gt actual path result
  end.

(** The loop of [compareObject] over [Object.keys(gt)]. *)
Fixpoint compareFields (kvs : list (string * Json)) (actual : Json)
    (path : string) (result : ComparisonResult) {struct kvs}
  : ComparisonResult :=
  match kvs with
  | [] => result
  | (key, v) :: rest =>
      let fp := fieldPath path key in
      if JsSet.has ignoreSet fp then compareFields rest actual path result
      else
        match get actual key with
        | None =>
            compareFields rest actual path
              (push_missing result
                 {| missing_path := fp; expectedValue := v |})
        | Some a =>
            compareFields rest actual path (compareObject v a fp result)
        end
  end.

Fixpoint detectExtraFields (gt actual : Json) (path : string)
    (result : ComparisonResult) {struct actual} : ComparisonResult :=
  if negb (is_object actual) || Js.isNull actual then result
  else if negb (is_object gt) || Js.isNull gt then result
  else if Js.isArray actual && Js.isArray gt then result
  else if Js.isArray actual || Js.isArray gt then result
  else
    match actual with
    | JObj akvs =>
        (fix keys (akvs : list (string * Json))
             (result : ComparisonResult) {struct akvs}
           : ComparisonResult :=
           match akvs with
           | [] => result
           | (key, a) :: rest =>
               let fp := fieldPath path key in
               if JsSet.has ignoreSet fp || JsSet.has ignoreSet key
               then keys rest result
               else
                 match get gt key with
                 | None =>
                     keys rest
                       (push_extra result
                          {| extra_path := fp; extra_value := a |})
                 | Some g =>
                     if is_object a && is_object g
                     then keys rest (detectExtraFields g a fp result)
                     else keys rest result
                 end
           end) akvs result
    | _ => result
    end.

(** The loop of [detectExtraFields] over [Object.keys(actual)]. *)
Fixpoint detectExtraKeys (gt : Json) (akvs : list (string * Json))
    (path : string) (result : ComparisonResult) {struct akvs}
  : ComparisonResult :=
  match akvs with
  | [] => result
  | (key, a) :: rest =>
      let fp := fieldPath path key in
      if JsSet.has ignoreSet fp || JsSet.has ignoreSet key
      then detectExtraKeys gt rest path result
      else
        match get gt key with
        | None =>
            detectExtraKeys gt rest path
              (push_extra result
                 {| extra_path := fp; extra_value := a |})
        | Some g =>
            if is_object a && is_object g
            then detectExtraKeys gt rest path
                   (detectExtraFields g a fp result)
            else detectExtraKeys gt rest path result
        end
  end.

End Rules.

Definition empty_result : ComparisonResult :=
  {| passed := true; mismatches := []; missing := []; extra := [];
     warnings := [] |}.

(** [compare].  The schema the source infers from the ground truth here
    is not used afterwards. *)
Definition compare (groundTruth actual : Json) (rules : ComparisonRules)
  : ComparisonResult :=
  let ignoreSet := JsSet.of_list (ignoreFields rules) in
  let r1 := compareObject rules ignoreSet groundTruth actual "" empty_result in
  let r2 := detectExtraFields ignoreSet groundTruth actual "" r1 in
  set_passed r2
    ((List.length (mismatches r2) =? 0)%nat
     && (List.length (missing r2) =? 0)%nat
     && ((List.length (extra r2) =? 0)%nat || negb (extraFieldsWarning rules))).

End Comparator.

(** The defaults of [ComparisonRulesSchema]. *)
Definition defaultRules : ComparisonRules :=
  {| ignoreFields := []; arrayStrategy := unordered; numericTolerance := 0;
     typeCoercion := true; extraFieldsWarning := true |}.

Definition jnum (n : Z) : Json := JNum n 0.

(** ** The scorer ([src/core/scorer.ts]) *)

Record ScoringConfig := {
  missingFieldPenalty : Q;
  mismatchPenalty : Q;
  extraFieldPenalty : Q
}.

(** The defaults of [ScoringConfigSchema]. *)
Definition defaultScoring : ScoringConfig :=
  {| missingFieldPenalty := 10; mismatchPenalty := 5;
     extraFieldPenalty := 2 |}.

Record FieldScore := {
  field : string;
  field_score : Q;
  penalty : Q;
  reason : string
}.

Record Breakdown := {
  totalFields : Z;
  matchedFields : Z;
  missingFields : Z;
  mismatchedFields : Z;
  extraFields : Z
}.

Record ScoringResult := {
  overallScore : Q;
  completenessScore : Q;
  accuracyScore : Q;
  extraFieldScore : Q;
  fieldScores : list FieldScore;
  breakdown : Breakdown
}.

(** The four scores as binary64 numbers. *)
Record Scores64 := {
  overallScore64 : Js.number;
  completenessScore64 : Js.number;
  accuracyScore64 : Js.number;
  extraFieldScore64 : Js.number
}.

Module Scorer.

(** [Math.round]: the nearest integer, a tie going to the larger one. *)
Definition Math_round (x : Q) : Z := Qfloor (x + (1 # 2)).

Definition Math_max (a b : Q) : Q := if Qle_bool a b then b else a.

(** [Math.round(x * 100) / 100]. *)
Definition round2 (x : Q) : Q := inject_Z (Math_round (x * 100)) / 100.

Definition len {A} (l : list A) : Z := Z.of_nat (List.length l).

Definition extractSchema (comparison : ComparisonResult) : JsSet.t :=
  let schema :=
    fold_left (fun s m => JsSet.add s (mismatch_path m))
      (mismatches comparison) JsSet.empty in
  fold_left (fun s m => JsSet.add s (missing_path m))
    (missing comparison) schema.

Definition emptyResult : ScoringResult :=
  {| overallScore := 100; completenessScore := 100; accuracyScore := 100;
     extraFieldScore := 0; fieldScores := [];
     breakdown := {| totalFields := 0; matchedFields := 0;
                     missingFields := 0; mismatchedFields := 0;
                     extraFields := 0 |} |}.

(** What the first loop of [score] pushes for one field of the schema. *)
Definition scoreField (comparison : ComparisonResult)
    (config : ScoringConfig) (f : string) : list FieldScore :=
  let isMissing :=
    existsb (fun m => String.eqb (missing_path m) f) (missing comparison) in
  let isMismatched :=
    existsb (fun m => String.eqb (mismatch_path m) f)
      (mismatches comparison) in
  let isExtra :=
    existsb (fun e => String.eqb (extra_path e) f) (extra comparison) in
  if isMissing then
    [{| field := f; field_score := 0;
        penalty := missingFieldPenalty config;
        reason := "Field missing in output" |}]
  else if isMismatched then
    [{| field := f; field_score := 50;
        penalty := mismatchPenalty config;
        reason := "Field value mismatch" |}]
  else if negb isExtra then
    [{| field := f; field_score := 100; penalty := 0;
        reason := "Perfect match" |}]
  else [].

Definition score (comparison : ComparisonResult) (config : ScoringConfig)
  : ScoringResult :=
  let schema := extractSchema comparison in
  let totalFields := Z.of_nat (JsSet.size schema) in
  if (totalFields =? 0)%Z then emptyResult
  else
    let matchedFields :=
      (totalFields - len (missing comparison)
       - len (mismatches comparison))%Z in
    let fieldScores :=
      (flat_map (scoreField comparison config) schema
       ++ map (fun e =>
                 {| field := extra_path e; field_score := 75;
                    penalty := extraFieldPenalty config;
                    reason := "Extra field in output" |})
            (extra comparison))%list in
    let completenessScore :=
      (inject_Z matchedFields / inject_Z totalFields) * 100 in
    let accuracyScore :=
      (inject_Z (totalFields - len (mismatches comparison))
       / inject_Z totalFields) * 100 in
    let totalPenalty :=
      0 + inject_Z (len (missing comparison)) * missingFieldPenalty config
        + inject_Z (len (mismatches comparison)) * mismatchPenalty config
        + inject_Z (len (extra comparison)) * extraFieldPenalty config in
    let overallScore :=
      Math_max 0 (100 - (totalPenalty / inject_Z totalFields) * 10) in
    let extraFieldScore :=
      (inject_Z (len (extra comparison))
       / Math_max (inject_Z totalFields) 1) * 100 in
    {| overallScore := round2 overallScore;
       completenessScore := round2 completenessScore;
       accuracyScore := round2 accuracyScore;
       extraFieldScore := round2 extraFieldScore;
       fieldScores := fieldScores;
       breakdown :=
         {| totalFields := totalFields;
            matchedFields := matchedFields;
            missingFields := len (missing comparison);
            mismatchedFields := len (mismatches comparison);
            extraFields := len (extra comparison) |} |}.

(** *** The scores as the runtime computes them

    [score] evaluates the arithmetic of the source over the rationals.
    The runtime evaluates the same expressions in binary64, every
    operation rounded: [score64] gives the four scores so computed.  (The
    field scores and the breakdown hold constants, counts and the
    configured penalties, and involve no arithmetic.) *)

(** [Math.round(x * 100) / 100]. *)
Definition round2_64 (x : Js.number) : Js.number :=
  Js.div (Js.round (Js.mul x (Js.of_Z 100))) (Js.of_Z 100).

Definition score64 (comparison : ComparisonResult) (config : ScoringConfig)
  : Scores64 :=
  let schema := extractSchema comparison in
  if (Z.of_nat (JsSet.size schema) =? 0)%Z then
    {| overallScore64 := Js.of_Z 100; completenessScore64 := Js.of_Z 100;
       accuracyScore64 := Js.of_Z 100; extraFieldScore64 := Js.of_Z 0 |}
  else
    let totalFields := Js.of_Z (Z.of_nat (JsSet.size schema)) in
    let missingN := Js.of_Z (len (missing comparison)) in
    let mismatchN := Js.of_Z (len (mismatches comparison)) in
    let extraN := Js.of_Z (len (extra comparison)) in
    let matchedFields := Js.sub (Js.sub totalFields missingN) mismatchN in
    let completenessScore :=
      Js.mul (Js.div matchedFields totalFields) (Js.of_Z 100) in
    let accuracyScore :=
      Js.mul (Js.div (Js.sub totalFields mismatchN) totalFields)
        (Js.of_Z 100) in
    let totalPenalty :=
      Js.add
        (Js.add
           (Js.add (Js.of_Z 0)
              (Js.mul missingN (Js.fl (missingFieldPenalty config))))
           (Js.mul mismatchN (Js.fl (mismatchPenalty config))))
        (Js.mul extraN (Js.fl (extraFieldPenalty config))) in
    let overallScore :=
      Js.max (Js.of_Z 0)
        (Js.sub (Js.of_Z 100)
           (Js.mul (Js.div totalPenalty totalFields) (Js.of_Z 10))) in
    let extraFieldScore :=
      Js.mul (Js.div extraN (Js.max totalFields (Js.of_Z 1)))
        (Js.of_Z 100) in
    {| overallScore64 := round2_64 overallScore;
       completenessScore64 := round2_64 completenessScore;
       accuracyScore64 := round2_64 accuracyScore;
       extraFieldScore64 := round2_64 extraFieldScore |}.

End Scorer.

(** ** The schema inferrer *)

Inductive FieldType :=
  TyString | TyNumber | TyBoolean | TyArray | TyObject | TyNull.

Record SchemaField := {
  schema_path : string;
  schema_type : FieldType;
  isArray : bool;
  isRequired : bool;
  sampleValues : list Json
}.

(** A [Map<string, SchemaField>]: its entries in insertion order; [set] on
    a key that is present replaces the value where it stands. *)
Module JsMap.

Definition t := list (string * SchemaField).

Fixpoint set (m : t) (k : string) (v : SchemaField) : t :=
  match m with
  | [] => [(k, v)]
  | (k', v') :: r =>
      if String.eqb k k' then (k, v) :: r else (k', v') :: set r k v
  end.

Fixpoint get (m : t) (k : string) : option SchemaField :=
  match m with
  | [] => None
  | (k', v') :: r => if String.eqb k k' then Some v' else get r k
  end.

Definition size (m : t) : nat := List.length m.

End JsMap.

Record InferredSchema := {
  fields : JsMap.t;
  schema_totalFields : nat
}.

Module SchemaInferrer.

Definition getType (value : Json) : FieldType :=
  match value with
  | JNull => TyNull
  | JArr _ => TyArray
  | JStr _ => TyString
  | JNum _ _ => TyNumber
  | JBool _ => TyBoolean
  | JObj _ => TyObject
  end.

(** ToBoolean. *)
Definition truthy (v : Json) : bool :=
  match v with
  | JNull => false
  | JBool b => b
  | JNum m e =>
      match Js.fl (Js.dec_value m e) with
      | Js.Fin q => negb (Js.is_zero q)
      | Js.Inf _ => true
      | Js.NaN => false
      end
  | JStr s => negb (String.eqb s "")
  | _ => true
  end.

(** [value[0] || '']. *)
Definition first_or_empty (value : list Json) : Json :=
  match value with
  | x :: _ => if truthy x then x else JStr ""
  | [] => JStr ""
  end.

(** [typeof x === 'object' && x !== null]. *)
Definition is_container (x : Json) : bool :=
  Comparator.is_object x && negb (Js.isNull x).

(** The entry set for an array that is the value of an object's field
    and whose first element is not an object. *)
Definition arrayField (fieldPath : string) (value : list Json)
  : SchemaField :=
  {| schema_path := fieldPath;
     schema_type := getType (first_or_empty value);
     isArray := true; isRequired := true;
     sampleValues := firstn 3 value |}.

Fixpoint traverseObject (obj : Json) (prefix : string) (fields : JsMap.t)
    {struct obj} : JsMap.t :=
  match obj with
  | JNull => fields
  | JArr l =>
      let arrayPath := prefix in
      match l with
      | firstItem :: _ =>
          if is_container firstItem then
            traverseObject firstItem (arrayPath ++ "[]") fields
          else
            JsMap.set fields arrayPath
              {| schema_path := arrayPath;
                 schema_type := getType firstItem;
                 isArray := true; isRequired := true;
                 sampleValues := firstn 3 l |}
      | [] => fields
      end
  | JObj kvs =>
      (fix entries (kvs : list (string * Json)) (fields : JsMap.t)
           {struct kvs} : JsMap.t :=
         match kvs with
         | [] => fields
         | (key, value) :: rest =>
             let fieldPath := Comparator.fieldPath prefix key in
             match value with
             | JNull =>
                 entries rest
                   (JsMap.set fields fieldPath
                      {| schema_path := fieldPath; schema_type := TyNull;
                         isArray := false; isRequired := true;
                         sampleValues := [JNull] |})
             | JArr items =>
                 match items with
                 | first :: _ =>
                     if is_container first then
                       entries rest
                         (traverseObject first (fieldPath ++ "[]") fields)
                     else
                       entries rest
                         (JsMap.set fields fieldPath
                            (arrayField fieldPath items))
                 | [] =>
                     entries rest
                       (JsMap.set fields fieldPath
                          (arrayField fieldPath items))
                 end
             | JObj _ =>
                 entries rest (traverseObject value fieldPath fields)
             | _ =>
                 entries rest
                   (JsMap.set fields fieldPath
                      {| schema_path := fieldPath;
                         schema_type := getType value;
                         isArray := false; isRequired := true;
                         sampleValues := [value] |})
             end
         end) kvs fields
  | _ => fields
  end.

Definition infer (data : Json) (prefix : string) : InferredSchema :=
  let fields := traverseObject data prefix [] in
  {| fields := fields; schema_totalFields := JsMap.size fields |}.

End SchemaInferrer.

(** ** The orchestrator

    The external calls ([fetchData], [executeService]) are the points at
    which an [async] function is suspended; what they answer is decided by
    the environment, which may answer anything (more than the data fetcher
    of the source can).  Wall-clock fields ([executedAt], [executionTime])
    and the length of the pacing delay are left out. *)

Inductive Auth :=
| AuthBearer (tokenEnv : string)
| AuthApiKey (keyEnv headerName : string)
| AuthNone.

Inductive DataSource :=
| FileSource (path : string)
| ApiSource (endpoint : string) (method : option string) (body : option Json)
| JsonFileSource (source : string)
| JsonInlineSource (source : Json).

(** What is thrown: an [Error] with its message, or some other value. *)
Inductive exn := Error (message : string) | Thrown.

Inductive request :=
| FetchData (source : DataSource) (auth : option Auth)
| ExecuteService (endpoint : option string) (method : string) (input : Json)
    (auth : option Auth).

(** A promise settles: rejected with [inl], fulfilled with [inr]. *)
Definition response : Type := exn + Json.

(** An [async] computation: finished, returning or throwing, or suspended
    at an [await] on an external call. *)
Inductive Async (A : Type) : Type :=
| Done (outcome : exn + A)
| Await (rq : request) (k : response -> Async A).

Arguments Done {A} outcome.
Arguments Await {A} rq k.

Definition ret {A} (a : A) : Async A := Done (inr a).

(** [await call]: a rejected promise throws at the [await]. *)
Definition await (rq : request) : Async Json := Await rq Done.

Fixpoint bind {A B} (m : Async A) (f : A -> Async B) : Async B :=
  match m with
  | Done (inr a) => f a
  | Done (inl e) => Done (inl e)
  | Await rq k => Await rq (fun r => bind (k r) f)
  end.

(** [try { m } catch (error) { handler }]. *)
Fixpoint try_catch {A} (m : Async A) (handler : exn -> Async A) : Async A :=
  match m with
  | Done (inr a) => Done (inr a)
  | Done (inl e) => handler e
  | Await rq k => Await rq (fun r => try_catch (k r) handler)
  end.

Notation "x <- m ;; f" := (bind m (fun x => f))
  (at level 61, m at next level, right associativity).

(** The computation left after the environment has given [rs] to the
    successive awaits of [m]; [None] when [m] finishes before they run out. *)
Fixpoint feed {A} (m : Async A) (rs : list response) {struct rs}
  : option (Async A) :=
  match rs with
  | [] => Some m
  | r :: rs' =>
      match m with
      | Done _ => None
      | Await _ k => feed (k r) rs'
      end
  end.

(** *** Configuration *)

Record PartialRules := {
  opt_ignoreFields : option (list string);
  opt_arrayStrategy : option ArrayStrategy;
  opt_numericTolerance : option Q;
  opt_typeCoercion : option bool;
  opt_extraFieldsWarning : option bool
}.

Record PartialScoring := {
  opt_missingFieldPenalty : option Q;
  opt_mismatchPenalty : option Q;
  opt_extraFieldPenalty : option Q
}.

Record TestCase := {
  id : string;
  description : option string;
  input : DataSource;
  groundTruth : DataSource;
  execution_endpoint : option string;
  execution_method : option string;
  case_comparison : option PartialRules;
  case_scoring : option PartialScoring
}.

Record TestSuiteConfig := {
  suite_name : string;
  version : string;
  defaults_comparison : option PartialRules;
  defaults_scoring : option PartialScoring;
  auth : option Auth;
  concurrency_maxParallel : option Js.number;
  cases : list TestCase
}.

(** One key of [{...a, ...b}]. *)
Definition spread_key {A} (a b : option A) : option A :=
  match b with
  | Some x => Some x
  | None => a
  end.

Definition no_rules : PartialRules :=
  {| opt_ignoreFields := None; opt_arrayStrategy := None;
     opt_numericTolerance := None; opt_typeCoercion := None;
     opt_extraFieldsWarning := None |}.

Definition no_scoring : PartialScoring :=
  {| opt_missingFieldPenalty := None; opt_mismatchPenalty := None;
     opt_extraFieldPenalty := None |}.

(** [{...a, ...b}], spreading [undefined] adding nothing. *)
Definition spread_rules (a b : option PartialRules) : PartialRules :=
  let a := match a with Some x => x | None => no_rules end in
  let b := match b with Some x => x | None => no_rules end in
  {| opt_ignoreFields := spread_key (opt_ignoreFields a) (opt_ignoreFields b);
     opt_arrayStrategy :=
       spread_key (opt_arrayStrategy a) (opt_arrayStrategy b);
     opt_numericTolerance :=
       spread_key (opt_numericTolerance a) (opt_numericTolerance b);
     opt_typeCoercion := spread_key (opt_typeCoercion a) (opt_typeCoercion b);
     opt_extraFieldsWarning :=
       spread_key (opt_extraFieldsWarning a) (opt_extraFieldsWarning b) |}.

Definition spread_scoring (a b : option PartialScoring) : PartialScoring :=
  let a := match a with Some x => x | None => no_scoring end in
  let b := match b with Some x => x | None => no_scoring end in
  {| opt_missingFieldPenalty :=
       spread_key (opt_missingFieldPenalty a) (opt_missingFieldPenalty b);
     opt_mismatchPenalty :=
       spread_key (opt_mismatchPenalty a) (opt_mismatchPenalty b);
     opt_extraFieldPenalty :=
       spread_key (opt_extraFieldPenalty a) (opt_extraFieldPenalty b) |}.

(** The merged object read as [ComparisonRules].  A key that is defined
    nowhere is [undefined]; it gets the value on which the comparator's
    tests come out as they do on [undefined]: [ignoreFields || []] is the
    empty list, [arrayStrategy === 'ordered'] fails, no difference is
    [<= undefined] (as with a negative tolerance), and an undefined flag
    is falsy. *)
Definition rules_of (p : PartialRules) : ComparisonRules :=
  {| ignoreFields :=
       match opt_ignoreFields p with Some l => l | None => [] end;
     arrayStrategy :=
       match opt_arrayStrategy p with Some a => a | None => unordered end;
     numericTolerance :=
       match opt_numericTolerance p with Some t => t | None => - (1) end;
     typeCoercion :=
       match opt_typeCoercion p with Some b => b | None => false end;
     extraFieldsWarning :=
       match opt_extraFieldsWarning p with Some b => b | None => false end |}.

(** The merged object read as [ScoringConfig].  The model is that of a
    configuration that defines the three penalties (an undefined penalty
    would make the overall score NaN, which the rationals do not have); a
    missing one is read as the schema's default. *)
Definition scoring_of (p : PartialScoring) : ScoringConfig :=
  {| missingFieldPenalty :=
       match opt_missingFieldPenalty p with Some x => x | None => 10 end;
     mismatchPenalty :=
       match opt_mismatchPenalty p with Some x => x | None => 5 end;
     extraFieldPenalty :=
       match opt_extraFieldPenalty p with Some x => x | None => 2 end |}.

(** *** Results *)

Inductive Status := status_passed | status_failed | status_warning.

Record CaseError := {
  error_message : string;
  error_code : string
}.

Record TestCaseResult := {
  caseId : string;
  result_description : option string;
  status : Status;
  comparison : ComparisonResult;
  scoring : ScoringResult;
  error : option CaseError
}.

Record TestSuiteResult := {
  suiteName : string;
  suite_version : string;
  totalCases : nat;
  passedCases : nat;
  failedCases : nat;
  warningCases : nat;
  suite_cases : list TestCaseResult;
  averageScore : Q;
  averageCompleteness : Q;
  averageAccuracy : Q
}.

Module TestOrchestrator.

(** [error instanceof Error ? error.message : 'Unknown error']. *)
Definition message_of (e : exn) : string :=
  match e with
  | Error m => m
  | Thrown => "Unknown error"
  end.

Definition failed_comparison : ComparisonResult :=
  {| passed := false; mismatches := []; missing := []; extra := [];
     warnings := [] |}.

Definition zero_scoring : ScoringResult :=
  {| overallScore := 0; completenessScore := 0; accuracyScore := 0;
     extraFieldScore := 0; fieldScores := [];
     breakdown := {| totalFields := 0; matchedFields := 0;
                     missingFields := 0; mismatchedFields := 0;
                     extraFields := 0 |} |}.

(** The result built in the [catch] of [runCase]. *)
Definition caught (testCase : TestCase) (e : exn) : TestCaseResult :=
  {| caseId := id testCase;
     result_description := description testCase;
     status := status_failed;
     comparison := failed_comparison;
     scoring := zero_scoring;
     error := Some {| error_message := message_of e;
                      error_code := "EXECUTION_ERROR" |} |}.

Definition runCase (testCase : TestCase) (config : TestSuiteConfig)
  : Async TestCaseResult :=
  try_catch
    (let comparisonRules :=
       rules_of (spread_rules (defaults_comparison config)
                   (case_comparison testCase)) in
     let scoringConfig :=
       scoring_of (spread_scoring (defaults_scoring config)
                     (case_scoring testCase)) in
     input <- await (FetchData (input testCase) (auth config)) ;;
     groundTruth <- await (FetchData (groundTruth testCase) (auth config)) ;;
     output <- await (ExecuteService (execution_endpoint testCase)
                        (match execution_method testCase with
                         | Some m => if String.eqb m "" then "POST" else m
                         | None => "POST"
                         end)
                        input (auth config)) ;;
     let comparison :=
       Comparator.compare groundTruth output comparisonRules in
     let scoring := Scorer.score comparison scoringConfig in
     let status :=
       if negb (passed comparison) then status_failed
       else if negb (List.length (warnings comparison) =? 0)%nat
            then status_warning
            else status_passed in
     ret {| caseId := id testCase;
            result_description := description testCase;
            status := status;
            comparison := comparison;
            scoring := scoring;
            error := None |})
    (fun e => ret (caught testCase e)).

(** The result pushed in the [catch] of [processNext]. *)
Definition caught_by_pool (testCase : TestCase) (e : exn) : TestCaseResult :=
  {| caseId := id testCase;
     result_description := None;
     status := status_failed;
     comparison := failed_comparison;
     scoring := zero_scoring;
     error := Some {| error_message := message_of e;
                      error_code := "EXECUTION_ERROR" |} |}.

(** *** [runCasesWithConcurrency]

    A call of [processNext] that has taken a case is suspended in
    [await this.runCase(testCase, config)].  [answers] records what the
    environment has answered to the awaits of that case so far (a history
    kept for the statements; the code does not hold it). *)
Record Worker := {
  worker_case : TestCase;
  answers : list response;
  task : Async TestCaseResult
}.

Record Pool := {
  queue : list TestCase;
  active : list Worker;              (* activeCount is its length *)
  timers : nat;                      (* pending setTimeout(processNext) *)
  results : list TestCaseResult;
  settled : list (TestCase * list response);  (* whose result, in order *)
  resolved : option (list TestCaseResult)
}.

Definition activeCount (p : Pool) : nat := List.length (active p).

Definition start (config : TestSuiteConfig) (testCase : TestCase) : Worker :=
  {| worker_case := testCase; answers := [];
     task := runCase testCase config |}.

(** One synchronous call of [processNext]. *)
Definition processNext (config : TestSuiteConfig) (maxParallel : Js.number)
    (p : Pool) : Pool :=
  match queue p with
  | [] =>
      if (activeCount p =? 0)%nat then
        {| queue := queue p; active := active p; timers := timers p;
           results := results p; settled := settled p;
           resolved := match resolved p with
                       | None => Some (results p)
                       | Some r => Some r
                       end |}
      else p
  | testCase :: rest =>
      if Js.ltb (Js.of_count (activeCount p)) maxParallel then
        {| queue := rest;
           active := (active p ++ [start config testCase])%list;
           timers := timers p; results := results p; settled := settled p;
           resolved := resolved p |}
      else p
  end.

(** [for (let i = 0; i < maxParallel && queue.length > 0; i++)
    processNext()], for at most [turns] turns of the loop. *)
Fixpoint initial_batch (config : TestSuiteConfig) (maxParallel : Js.number)
    (turns i : nat) (p : Pool) : Pool :=
  match turns with
  | O => p
  | S turns' =>
      if Js.ltb (Js.of_count i) maxParallel then
        match queue p with
        | [] => p
        | _ => initial_batch config maxParallel turns' (S i)
                 (processNext config maxParallel p)
        end
      else p
  end.

(** The pool when [runCasesWithConcurrency] returns its promise.  Every
    turn of the initial loop takes a case from the queue, so that as many
    turns as there are cases bring the loop to its end
    ([initial_loop_ends]). *)
Definition initial (config : TestSuiteConfig) (cases : list TestCase)
    (maxParallel : Js.number) : Pool :=
  initial_batch config maxParallel (List.length cases) 0
    {| queue := cases; active := []; timers := 0; results := [];
       settled := []; resolved := None |}.

(** What the event loop may do next. *)
Inductive step (config : TestSuiteConfig) (maxParallel : Js.number)
  : Pool -> Pool -> Prop :=
| step_answer :
    (* an external call of a case in flight settles *)
    forall p before w after rq k r,
      active p = (before ++ w :: after)%list ->
      task w = Await rq k ->
      step config maxParallel p
        {| queue := queue p;
           active :=
             (before
              ++ {| worker_case := worker_case w;
                    answers := (answers w ++ [r])%list;
                    task := k r |} :: after)%list;
           timers := timers p; results := results p; settled := settled p;
           resolved := resolved p |}
| step_finish :
    (* [runCase] has settled: push the result, free the slot, set the timer *)
    forall p before w after outcome,
      active p = (before ++ w :: after)%list ->
      task w = Done outcome ->
      step config maxParallel p
        {| queue := queue p;
           active := (before ++ after)%list;
           timers := S (timers p);
           results :=
             (results p
              ++ [match outcome with
                  | inr result => result
                  | inl e => caught_by_pool (worker_case w) e
                  end])%list;
           settled := (settled p ++ [(worker_case w, answers w)])%list;
           resolved := resolved p |}
| step_timer :
    (* a timer fires and calls [processNext] *)
    forall p n,
      timers p = S n ->
      step config maxParallel p
        (processNext config maxParallel
           {| queue := queue p; active := active p; timers := n;
              results := results p; settled := settled p;
              resolved := resolved p |}).

Inductive reachable (config : TestSuiteConfig) (cases : list TestCase)
    (maxParallel : Js.number) : Pool -> Prop :=
| reachable_initial :
    reachable config cases maxParallel (initial config cases maxParallel)
| reachable_step :
    forall p p',
      reachable config cases maxParallel p ->
      step config maxParallel p p' ->
      reachable config cases maxParallel p'.

(** [config.concurrency?.maxParallel || 3]: 3 when the number is
    undefined, zero or NaN. *)
Definition maxParallel_of (config : TestSuiteConfig) : Js.number :=
  match concurrency_maxParallel config with
  | Some (Js.Fin q) => if Js.is_zero q then Js.Fin 3 else Js.Fin q
  | Some (Js.Inf s) => Js.Inf s
  | Some Js.NaN | None => Js.Fin 3
  end.

Definition count_status (s : Status) (rs : list TestCaseResult) : nat :=
  List.length
    (filter (fun r => match status r, s with
                      | status_passed, status_passed
                      | status_failed, status_failed
                      | status_warning, status_warning => true
                      | _, _ => false
                      end) rs).

Definition average (f : ScoringResult -> Q) (rs : list TestCaseResult) : Q :=
  match rs with
  | [] => 0
  | _ =>
      fold_left (fun sum r => sum + f (scoring r)) rs 0
      / inject_Z (Z.of_nat (List.length rs))
  end.

(** The aggregation of [runSuite], once the case results are there. *)
Definition aggregate (config : TestSuiteConfig)
    (caseResults : list TestCaseResult) : TestSuiteResult :=
  {| suiteName := suite_name config;
     suite_version := version config;
     totalCases := List.length (cases config);
     passedCases := count_status status_passed caseResults;
     failedCases := count_status status_failed caseResults;
     warningCases := count_status status_warning caseResults;
     suite_cases := caseResults;
     averageScore := Scorer.round2 (average overallScore caseResults);
     averageCompleteness :=
       Scorer.round2 (average completenessScore caseResults);
     averageAccuracy := Scorer.round2 (average accuracyScore caseResults) |}.

(** The first rejection among the answers given to a case. *)
Fixpoint first_error (rs : list response) : option exn :=
  match rs with
  | [] => None
  | inl e :: _ => Some e
  | inr _ :: rs' => first_error rs'
  end.

(** What is left to do: it decreases with every step of the event loop. *)
Definition worker_weight (w : Worker) : nat :=
  2 * (4 - List.length (answers w)).

Definition remaining (p : Pool) : nat :=
  10 * List.length (queue p)
  + list_sum (map worker_weight (active p))
  + timers p
  + match resolved p with None => 1 | Some _ => 0 end.

End TestOrchestrator.

(** A suite of one case whose first fetch is refused. *)
Definition sample_case : TestCase :=
  {| id := "case-1"; description := None;
     input := FileSource "input.json";
     groundTruth := FileSource "expected.json";
     execution_endpoint := Some "http://localhost:8000/extract";
     execution_method := None;
     case_comparison := None; case_scoring := None |}.

Definition sample_config : TestSuiteConfig :=
  {| suite_name := "Sample"; version := "1.0.0";
     defaults_comparison := None; defaults_scoring := None;
     auth := None; concurrency_maxParallel := Some (Js.Fin 1);
     cases := [sample_case] |}.

Definition sample_failure : TestCaseResult :=
  TestOrchestrator.caught sample_case (Error "Failed to read file: input.json").

Definition sample_final : TestOrchestrator.Pool :=
  {| TestOrchestrator.queue := []; TestOrchestrator.active := [];
     TestOrchestrator.timers := 0;
     TestOrchestrator.results := [sample_failure];
     TestOrchestrator.settled :=
       [(sample_case, [inl (Error "Failed to read file: input.json")])];
     TestOrchestrator.resolved := Some [sample_failure] |}.

(** A suite of two cases with room for both: the first fetch of the one
    is refused, the other runs to its end and passes. *)
Definition sample_sibling : TestCase :=
  {| id := "case-2"; description := None;
     input := FileSource "input-2.json";
     groundTruth := FileSource "expected-2.json";
     execution_endpoint := Some "http://localhost:8000/extract";
     execution_method := None;
     case_comparison := None; case_scoring := None |}.

Definition sample_pair_config : TestSuiteConfig :=
  {| suite_name := "Pair"; version := "1.0.0";
     defaults_comparison := None; defaults_scoring := None;
     auth := None; concurrency_maxParallel := Some (Js.Fin 2);
     cases := [sample_case; sample_sibling] |}.

Definition sample_answer : Json := JObj [("name", JStr "Ada")].

Definition sample_success : TestCaseResult :=
  let comparison :=
    Comparator.compare sample_answer sample_answer
      (rules_of (spread_rules None None)) in
  {| caseId := "case-2"; result_description := None;
     status := status_passed;
     comparison := comparison;
     scoring := Scorer.score comparison (scoring_of (spread_scoring None None));
     error := None |}.

Definition sample_pair_final : TestOrchestrator.Pool :=
  {| TestOrchestrator.queue := []; TestOrchestrator.active := [];
     TestOrchestrator.timers := 0;
     TestOrchestrator.results := [sample_failure; sample_success];
     TestOrchestrator.settled :=
       [(sample_case, [inl (Error "Failed to read file: input.json")]);
        (sample_sibling,
         [inr (JStr "scan-2"); inr sample_answer; inr sample_answer])];
     TestOrchestrator.resolved := Some [sample_failure; sample_success] |}.

(** A ground truth of 160 fields against an actual object of 23 other
    fields: 160 missing paths and 23 extra entries. *)
Definition wide_truth : Json :=
  JObj (map (fun i => ("f" ++ Js.nat_to_string i, JNull)) (seq 0 160)).

Definition wide_actual : Json :=
  JObj (map (fun i => ("x" ++ Js.nat_to_string i, JNull)) (seq 0 23)).

(** ** Notions of the specification *)

Definition nonempty {A} (l : list A) : bool := negb (List.length l =? 0)%nat.

(** The value of [passed] as the specification's invariant words it:
    false exactly when there is a mismatch, or a missing field, or an
    extra field while the extra-fields-warning policy is disabled. *)
Definition passed_as_specified (r : ComparisonResult)
    (rules : ComparisonRules) : bool :=
  negb (nonempty (mismatches r)
        || nonempty (missing r)
        || (nonempty (extra r) && negb (extraFieldsWarning rules))).

(** The scoring universe: the distinct paths of the mismatches and of the
    missing fields. *)
Definition universe (c : ComparisonResult) : list string :=
  nodup string_dec
    (map mismatch_path (mismatches c) ++ map missing_path (missing c))%list.

(** [r] is [x] rounded to two decimal places, a tie going up. *)
Definition rounded_half_up_2dp (x r : Q) : Prop :=
  exists n : Z,
    r == inject_Z n / 100 /\
    inject_Z n - (1 # 2) <= x * 100 /\ x * 100 < inject_Z n + (1 # 2).

(** The number of items of [l] whose string coercion is [s]: the
    multiplicity of [s] in the multiset of the coerced items. *)
Definition multiplicity (s : string) (l : list Json) : nat :=
  count_occ string_dec (map Js.String_ l) s.

(** [item] is absent from the multiset of [l], under string-coerced
    equality. *)
Definition absent_from (l : list Json) (item : Json) : bool :=
  (multiplicity (Js.String_ item) l =? 0)%nat.

(** A primitive leaf that reaches [comparePrimitives]: a boolean, a number
    or a string ([null] is settled before). *)
Definition primitive_leaf (v : Json) : bool :=
  match v with
  | JBool _ | JNum _ _ | JStr _ => true
  | _ => false
  end.

(** One side is a number and the other a numeric-looking string, one that
    [Number] does not turn into NaN. *)
Definition numeric_pair (gt actual : Json) : bool :=
  match gt, actual with
  | JNum _ _, JStr s | JStr s, JNum _ _ =>
      negb (Js.isNaN (Js.StringToNumber s))
  | _, _ => false
  end.

(** What the specification words for two leaves of differing type under
    type coercion: numbers under the tolerance for a numeric pair, exact
    value equality otherwise. *)
Definition leaves_as_specified (gt actual : Json) (path : string)
    (result : ComparisonResult) (rules : ComparisonRules)
  : ComparisonResult :=
  if numeric_pair gt actual then
    if Js.within (Js.Number_ gt) (Js.Number_ actual) (numericTolerance rules)
    then result
    else push_mismatch result
           {| mismatch_path := path; mismatch_groundTruth := gt;
              mismatch_actual := actual; mismatch_type := numeric_mismatch |}
  else if Comparator.strict_eq gt actual then result
  else push_mismatch result
         {| mismatch_path := path; mismatch_groundTruth := gt;
            mismatch_actual := actual; mismatch_type := value_mismatch |}.

(** [r] with further entries pushed on its four lists. *)
Definition extend (r : ComparisonResult) (ms : list FieldMismatch)
    (xs : list MissingField) (es : list ExtraField)
    (ws : list ArrayOrderWarning) : ComparisonResult :=
  {| passed := passed r;
     mismatches := (mismatches r ++ ms)%list;
     missing := (missing r ++ xs)%list;
     extra := (extra r ++ es)%list;
     warnings := (warnings r ++ ws)%list |}.

(** [s] holds a dot: it is a dotted path, not a bare key name. *)
Definition dotted (s : string) : bool :=
  existsb (Ascii.eqb ".") (list_ascii_of_string s).

(** [v] without the properties whose bare name is in the ignore set, at
    every depth. *)
Fixpoint prune (ignoreSet : JsSet.t) (v : Json) : Json :=
  match v with
  | JArr l => JArr (map (prune ignoreSet) l)
  | JObj kvs =>
      JObj ((fix each (kvs : list (string * Json)) : list (string * Json) :=
               match kvs with
               | [] => []
               | (k, x) :: r =>
                   if JsSet.has ignoreSet k then each r
                   else (k, prune ignoreSet x) :: each r
               end) kvs)
  | _ => v
  end.

(** The properties of an object, pruned. *)
Definition prune_props (ignoreSet : JsSet.t) (kvs : list (string * Json))
  : list (string * Json) :=
  match prune ignoreSet (JObj kvs) with
  | JObj kvs' => kvs'
  | _ => []
  end.

(** Every number of [v] is within the range of binary64: its value is
    finite ([1e999] is not: its value is Infinity). *)
Fixpoint finite_numbers (v : Json) : Prop :=
  match v with
  | JNum m e => Js.isFinite (Js.fl (Js.dec_value m e)) = true
  | JArr l => (fix all (l : list Json) : Prop :=
                 match l with
                 | [] => True
                 | x :: r => finite_numbers x /\ all r
                 end) l
  | JObj kvs =>
      (fix all (l : list (string * Json)) : Prop :=
         match l with
         | [] => True
         | kv :: r => finite_numbers (snd kv) /\ all r
         end) kvs
  | _ => True
  end.

(** A property named [k] is met at the empty path: in the root object, or
    in an object reached from the root through properties named by the
    empty string only (the path of such an object is still empty). *)
Fixpoint bare_at_root (k : string) (v : Json) : bool :=
  match v with
  | JObj kvs =>
      (fix any (kvs : list (string * Json)) : bool :=
         match kvs with
         | [] => false
         | (key, x) :: r =>
             String.eqb key k
             || (String.eqb key "" && bare_at_root k x)
             || any r
         end) kvs
  | _ => false
  end.

(** [rules] with another list of ignored fields. *)
Definition with_ignore (rules : ComparisonRules) (fs : list string)
  : ComparisonRules :=
  {| ignoreFields := fs;
     arrayStrategy := arrayStrategy rules;
     numericTolerance := numericTolerance rules;
     typeCoercion := typeCoercion rules;
     extraFieldsWarning := extraFieldsWarning rules |}.

(** A value compared with itself leaves the result as it found it. *)
Definition same_is_equal (rules : ComparisonRules) (ignoreSet : JsSet.t)
    (v : Json) : Prop :=
  forall path result,
    Comparator.compareObject rules ignoreSet v v path result = result.

Definition same_has_no_extra (ignoreSet : JsSet.t) (v : Json) : Prop :=
  forall path result,
    Comparator.detectExtraFields ignoreSet v v path result = result.

Definition extra_paths (r : ComparisonResult) : list string :=
  map extra_path (extra r).

(** The extra paths reported for [a] and for [a] pruned are the same. *)
Definition pruning_is_silent (ignoreSet : JsSet.t) (a : Json) : Prop :=
  forall gt path r r',
    extra_paths r = extra_paths r' ->
    extra_paths (Comparator.detectExtraFields ignoreSet gt a path r)
    = extra_paths
        (Comparator.detectExtraFields ignoreSet gt (prune ignoreSet a) path r').

(** Below the root the missing/mismatch traversal gives the same result
    under two ignore sets. *)
Definition ignores_alike (rules : ComparisonRules) (ig ig' : JsSet.t)
    (gt : Json) : Prop :=
  forall actual path result,
    path <> "" ->
    Comparator.compareObject rules ig gt actual path result
    = Comparator.compareObject rules ig' gt actual path result.

(** At the empty path the ignore sets with and without [k] give one
    result, as long as no property named [k] is met there. *)
Definition alike_at_root (rules : ComparisonRules) (fs : list string)
    (k : string) (gt : Json) : Prop :=
  bare_at_root k gt = false ->
  forall actual result,
    Comparator.compareObject rules (JsSet.of_list (k :: fs)) gt actual ""
      result
    = Comparator.compareObject rules (JsSet.of_list fs) gt actual "" result.

(** The invariant of the pool: every case is in exactly one place; the
    workers and the results are those of [runCase] on the answers given; a
    resolved pool is drained. *)
Record invariant (config : TestSuiteConfig) (cases0 : list TestCase)
    (p : TestOrchestrator.Pool) : Prop := {
  inv_cases :
    Permutation
      (TestOrchestrator.queue p
       ++ map TestOrchestrator.worker_case (TestOrchestrator.active p)
       ++ map fst (TestOrchestrator.settled p))%list
      cases0;
  inv_workers :
    Forall (fun w =>
              feed (TestOrchestrator.runCase
                      (TestOrchestrator.worker_case w) config)
                (TestOrchestrator.answers w)
              = Some (TestOrchestrator.task w))
      (TestOrchestrator.active p);
  inv_results :
    Forall2 (fun s r =>
               feed (TestOrchestrator.runCase (fst s) config) (snd s)
               = Some (Done (inr r)))
      (TestOrchestrator.settled p) (TestOrchestrator.results p);
  inv_resolved :
    forall rs,
      TestOrchestrator.resolved p = Some rs ->
      rs = TestOrchestrator.results p
      /\ TestOrchestrator.queue p = []
      /\ TestOrchestrator.active p = []
}.

(** An unresolved pool has a case in flight or a timer pending. *)
Definition live (p : TestOrchestrator.Pool) : Prop :=
  TestOrchestrator.resolved p = None ->
  TestOrchestrator.active p <> [] \/ TestOrchestrator.timers p <> O.

(** The cases in flight are below the limit: the last one was started
    when the count of the others was under [maxParallel]. *)
Definition under_limit (maxParallel : Js.number) (p : TestOrchestrator.Pool)
  : Prop :=
  TestOrchestrator.activeCount p = O
  \/ Js.ltb (Js.of_count (TestOrchestrator.activeCount p - 1)) maxParallel
     = true.

Ltac solve_wf :=
  simpl;
  repeat match goal with
         | |- _ /\ _ => split
         | |- NoDup _ => constructor
         | |- ~ In _ _ => simpl; intuition discriminate
         | |- True => exact I
         end.

#[global] Arguments Js.Number_toString : simpl never.
#[global] Arguments Js.StringToNumber : simpl never.
#[global] Arguments Js.JSON_stringify : simpl never.
#[global] Arguments Js.dec_value : simpl never.
#[global] Arguments Js.fl : simpl never.

(** ** Further notions *)

(** [f] only pushes entries on the lists of the result it is given: the
    entries do not depend on the result, and [passed] is left alone. *)
Definition appends (f : ComparisonResult -> ComparisonResult) : Prop :=
  forall r,
    f r = extend r
            (mismatches (f Comparator.empty_result))
            (missing (f Comparator.empty_result))
            (extra (f Comparator.empty_result))
            (warnings (f Comparator.empty_result)).

(** The entries for the items [more] that lie beyond the end of the other
    array, the first of them at index [start]. *)
Fixpoint overflow_extra (path : string) (start : nat) (more : list Json)
  : list ExtraField :=
  match more with
  | [] => []
  | a :: more' =>
      {| extra_path := Comparator.itemPath path start; extra_value := a |}
        :: overflow_extra path (S start) more'
  end.

Fixpoint overflow_missing (path : string) (start : nat) (more : list Json)
  : list MissingField :=
  match more with
  | [] => []
  | g :: more' =>
      {| missing_path := Comparator.itemPath path start; expectedValue := g |}
        :: overflow_missing path (S start) more'
  end.

(** [f] leaves everything but the extra list as it finds it. *)
Definition touches_only_extra
    (f : ComparisonResult -> ComparisonResult) : Prop :=
  forall r,
    passed (f r) = passed r
    /\ mismatches (f r) = mismatches r
    /\ missing (f r) = missing r
    /\ warnings (f r) = warnings r.

(** The entries of a schema are in order: no path twice, and every field
    stored under its own path and marked required. *)
Definition schema_ok (m : JsMap.t) : Prop :=
  NoDup (map fst m)
  /\ Forall (fun kv => schema_path (snd kv) = fst kv
                       /\ isRequired (snd kv) = true) m.

(** The requests made by [m] while the environment answers [rs]. *)
Fixpoint asked {A} (m : Async A) (rs : list response) {struct rs}
  : list request :=
  match m with
  | Done _ => []
  | Await rq k =>
      rq :: match rs with
            | [] => []
            | r :: rs' => asked (k r) rs'
            end
  end.

(** ** The data fetcher

    What the fetcher gets from outside is left open: the environment
    variables, the file system, [JSON.parse], the base64 encoding,
    [toLowerCase], and what the HTTP client answers.  A call either
    settles without a request, or makes one request and settles on its
    answer.  The log lines are left out. *)

Record Host := {
  env : string -> option string;            (* process.env *)
  resolve : string -> string;               (* path.resolve *)
  readFileSync : string -> exn + string;
  JSON_parse : string -> exn + Json;
  base64 : string -> string;     (* Buffer.from(s).toString('base64') *)
  toLowerCase : string -> string
}.

Record AxiosConfig := {
  axios_method : string;
  axios_url : option string;
  axios_headers : list (string * string);
  axios_data : option Json
}.

Inductive Fetch :=
| Settled (outcome : exn + Json)
| Request (config : AxiosConfig) (k : exn + Json -> exn + Json).

(** How the call settles when the HTTP client answers [answer] (an answer
    is used only if a request was made). *)
Definition run (f : Fetch) (answer : exn + Json) : response :=
  match f with
  | Settled outcome => outcome
  | Request _ k => k answer
  end.

Module DataFetcher.

(** [s.endsWith(suffix)]. *)
Definition endsWith (s suffix : string) : bool :=
  (String.length suffix <=? String.length s)%nat
  && String.eqb
       (substring (String.length s - String.length suffix)
          (String.length suffix) s)
       suffix.

(** [headers[name] = value] on a plain object: a property that is there
    keeps its place, a new one comes last; assigning a string to
    [__proto__] has no effect. *)
Fixpoint assign (o : list (string * string)) (name value : string)
  : list (string * string) :=
  match o with
  | [] => [(name, value)]
  | (k, v) :: o' =>
      if String.eqb k name then (k, value) :: o'
      else (k, v) :: assign o' name value
  end.

Definition set_header (o : list (string * string)) (name value : string)
  : list (string * string) :=
  if String.eqb name "__proto__" then o else assign o name value.

(** The own property [name] of the headers object. *)
Fixpoint get_header (o : list (string * string)) (name : string)
  : option string :=
  match o with
  | [] => None
  | (k, v) :: o' => if String.eqb k name then Some v else get_header o' name
  end.

Section Host.

Variable h : Host.

Definition fetchFromFile (filePath : string) : exn + Json :=
  match
    (let absolutePath := resolve h filePath in
     match readFileSync h absolutePath with
     | inl e => inl e
     | inr content =>
         if endsWith filePath ".json" then JSON_parse h content
         else inr (JStr (base64 h content))
     end)
  with
  | inl _ => inl (Error ("Failed to read file: " ++ filePath))
  | inr v => inr v
  end.

(** The block [if (auth) { ... }] that [fetchFromApi] and [executeService]
    both have, on the headers built so far. *)
Definition auth_headers (auth : option Auth)
    (headers : list (string * string)) : exn + list (string * string) :=
  match auth with
  | Some (AuthBearer tokenEnv) =>
      match env h tokenEnv with
      | Some token =>
          if String.eqb token "" then
            inl (Error ("Bearer token not found in env: " ++ tokenEnv))
          else inr (set_header headers "Authorization" ("Bearer " ++ token))
      | None => inl (Error ("Bearer token not found in env: " ++ tokenEnv))
      end
  | Some (AuthApiKey keyEnv headerName) =>
      match env h keyEnv with
      | Some key =>
          if String.eqb key "" then
            inl (Error ("API key not found in env: " ++ keyEnv))
          else
            inr (set_header headers
                   (if String.eqb headerName "" then "X-API-Key"
                    else headerName)
                   key)
      | None => inl (Error ("API key not found in env: " ++ keyEnv))
      end
  | Some AuthNone | None => inr headers
  end.

Definition fetchFromApi (endpoint method : string) (body : option Json)
    (auth : option Auth) : Fetch :=
  match auth_headers auth [] with
  | inl _ => Settled (inl (Error ("Failed to fetch from API: " ++ endpoint)))
  | inr headers =>
      Request
        {| axios_method := toLowerCase h method;
           axios_url := Some endpoint;
           axios_headers := headers;
           axios_data :=
             match body with
             | Some b => if SchemaInferrer.truthy b then Some b else None
             | None => None
             end |}
        (fun answer =>
           match answer with
           | inl _ => inl (Error ("Failed to fetch from API: " ++ endpoint))
           | inr data => inr data
           end)
  end.

Definition fetchJson (source : Json) : exn + Json :=
  match source with
  | JStr filePath => fetchFromFile filePath
  | _ => inr source
  end.

Definition fetchData (source : DataSource) (auth : option Auth) : Fetch :=
  match source with
  | FileSource path => Settled (fetchFromFile path)
  | ApiSource endpoint method body =>
      fetchFromApi endpoint
        (match method with
         | Some m => if String.eqb m "" then "POST" else m
         | None => "POST"
         end)
        body auth
  | JsonFileSource source => Settled (fetchJson (JStr source))
  | JsonInlineSource source => Settled (fetchJson source)
  end.

Definition executeService (endpoint : option string) (method : string)
    (input : Json) (auth : option Auth) : Fetch :=
  match auth_headers auth [("Content-Type", "application/json")] with
  | inl e => Settled (inl e)
  | inr headers =>
      Request
        {| axios_method := toLowerCase h method;
           axios_url := endpoint;
           axios_headers := headers;
           axios_data := Some input |}
        (fun answer => answer)
  end.

(** The call of the fetcher that stands behind a request of [runCase]. *)
Definition perform (rq : request) : Fetch :=
  match rq with
  | FetchData source auth => fetchData source auth
  | ExecuteService endpoint method input auth =>
      executeService endpoint method input auth
  end.

End Host.

End DataFetcher.

Definition auth_of (rq : request) : option Auth :=
  match rq with
  | FetchData _ auth => auth
  | ExecuteService _ _ _ auth => auth
  end.

(** A machine with no credentials and no files. *)
Definition bare_host : Host :=
  {| env := fun _ => None;
     resolve := fun p => p;
     readFileSync := fun _ => inl Thrown;
     JSON_parse := fun _ => inl Thrown;
     base64 := fun s => s;
     toLowerCase := fun s => s |}.

(** A machine that holds the token [secret] in [API_TOKEN]. *)
Definition host_with_token : Host :=
  {| env := fun name => if String.eqb name "API_TOKEN" then Some "secret"
                        else None;
     resolve := fun p => p;
     readFileSync := fun _ => inl Thrown;
     JSON_parse := fun _ => inl Thrown;
     base64 := fun s => s;
     toLowerCase := fun s => s |}.

(** * Properties *)

(** ** Binary64 rounding *)

(** The arithmetic agrees with the IEEE 754 operations of the Standard
    Library's [SpecFloat] at precision 53 and exponent bound 1024, on
    operands that round, that lose a bit above 2^53, that overflow and
    that are subnormal. *)
Example agrees_with_SpecFloat :
  Js.of_spec_float
    (SFmul 53 1024
       (SFmul 53 1024
          (SFdiv 53 1024 (Js.spec_of_Z 23) (Js.spec_of_Z 160))
          (Js.spec_of_Z 100))
       (Js.spec_of_Z 100))
  = Js.mul (Js.mul (Js.div (Js.of_Z 23) (Js.of_Z 160)) (Js.of_Z 100))
      (Js.of_Z 100)
  /\ Js.of_spec_float
       (SFadd 53 1024
          (SFdiv 53 1024 (Js.spec_of_Z 1) (Js.spec_of_Z 10))
          (SFdiv 53 1024 (Js.spec_of_Z 2) (Js.spec_of_Z 10)))
     = Js.add (Js.fl (1 # 10)) (Js.fl (2 # 10))
  /\ Js.of_spec_float
       (SFsub 53 1024
          (SFdiv 53 1024 (Js.spec_of_Z 11) (Js.spec_of_Z 10))
          (Js.spec_of_Z 1))
     = Js.sub (Js.fl (11 # 10)) (Js.fl 1)
  /\ Js.of_spec_float
       (SFadd 53 1024 (Js.spec_of_Z (2 ^ 53)) (Js.spec_of_Z 1))
     = Js.add (Js.of_Z (2 ^ 53)) (Js.of_Z 1)
  /\ Js.of_spec_float
       (SFmul 53 1024 (Js.spec_of_Z (10 ^ 200)) (Js.spec_of_Z (10 ^ 200)))
     = Js.mul (Js.of_Z (10 ^ 200)) (Js.of_Z (10 ^ 200))
  /\ Js.of_spec_float
       (SFdiv 53 1024
          (SFdiv 53 1024 (Js.spec_of_Z 7) (Js.spec_of_Z (10 ^ 300)))
          (Js.spec_of_Z (10 ^ 20)))
     = Js.div (Js.div (Js.of_Z 7) (Js.of_Z (10 ^ 300))) (Js.of_Z (10 ^ 20))
  /\ Js.of_spec_float
       (SFdiv 53 1024
          (SFdiv 53 1024 (Js.spec_of_Z 1) (Js.spec_of_Z (10 ^ 300)))
          (Js.spec_of_Z (10 ^ 30)))
     = Js.Fin 0.
Proof. vm_compute. repeat split. Qed.

Lemma pow2_pos (e : Z) : 0 < Js.pow2 e.
Proof. apply Qpower_0_lt. reflexivity. Qed.

Lemma pow2_plus (a b : Z) : Js.pow2 (a + b) == Js.pow2 a * Js.pow2 b.
Proof. apply Qpower_plus. discriminate. Qed.

Lemma pow2_Z (k : Z) : (0 <= k)%Z -> inject_Z (2 ^ k) == Js.pow2 k.
Proof. intros H. unfold Js.pow2. now rewrite Zpower_Qpower. Qed.

Lemma pow2_le (a b : Z) : (a <= b)%Z -> Js.pow2 a <= Js.pow2 b.
Proof. intros H. apply Qpower_le_compat_l; [assumption | discriminate]. Qed.

Lemma pow2_lt (a b : Z) : (a < b)%Z -> Js.pow2 a < Js.pow2 b.
Proof. intros H. apply Qpower_lt_compat_l; [assumption | reflexivity]. Qed.

Lemma ilog2_spec (q : Q) :
  0 < q -> Js.pow2 (Js.ilog2 q) <= q /\ q < Js.pow2 (Js.ilog2 q + 1).
Proof.
  intros Hq. destruct q as [n d].
  assert (0 < n)%Z as Hn by (unfold Qlt in Hq; cbn in Hq; lia).
  unfold Js.ilog2. cbn [Qnum Qden].
  set (a := Z.log2 n). set (b := Z.log2 (Z.pos d)).
  assert (0 <= a)%Z as Ha by apply Z.log2_nonneg.
  assert (0 <= b)%Z as Hb by apply Z.log2_nonneg.
  destruct (Z.log2_spec n Hn) as [Hn1 Hn2]. fold a in Hn1, Hn2.
  destruct (Z.log2_spec (Z.pos d) (Pos2Z.is_pos d)) as [Hd1 Hd2].
  fold b in Hd1, Hd2.
  assert (inject_Z n == (n # d) * inject_Z (Z.pos d)) as Hnd.
  { unfold Qeq, Qmult, inject_Z. cbn. lia. }
  assert (0 < inject_Z (Z.pos d)) as Hdpos by reflexivity.

  rewrite Zle_Qle in Hn1, Hd1. rewrite Zlt_Qlt in Hn2, Hd2.
  rewrite pow2_Z in Hn1, Hd1 by assumption.
  rewrite pow2_Z in Hn2, Hd2 by lia.
  change (Z.succ a) with (a + 1)%Z in *. change (Z.succ b) with (b + 1)%Z in *.
  set (D := inject_Z (Z.pos d)) in *. set (N := inject_Z n) in *.
  set (q := n # d) in *.
  destruct (Qle_bool (Js.pow2 (a - b)) q) eqn:T.
  - apply Qle_bool_iff in T. split; [assumption|].
    (* q * 2^b <= q * D = N < 2^(a+1) = 2^(a-b+1) * 2^b *)
    assert (Js.pow2 (a - b + 1) * Js.pow2 b == Js.pow2 (a + 1)) as E
        by (rewrite <- pow2_plus;
            replace (a - b + 1 + b)%Z with (a + 1)%Z by lia; reflexivity).
    pose proof (pow2_pos b) as Pb.
    apply Qmult_lt_r with (z := Js.pow2 b); [assumption|].
    rewrite E. apply Qle_lt_trans with (y := q * D); [|now rewrite <- Hnd].
    apply Qmult_le_l; assumption.
  - assert (q < Js.pow2 (a - b)) as T'.
    { apply Qnot_le_lt. intros C. apply Qle_bool_iff in C. congruence. }
    replace (a - b - 1 + 1)%Z with (a - b)%Z by lia.
    split; [|assumption].
    (* 2^(a-b-1) * D <= 2^(a-b-1) * 2^(b+1) = 2^a <= N = q * D *)
    assert (Js.pow2 (a - b - 1) * Js.pow2 (b + 1) == Js.pow2 a) as E
        by (rewrite <- pow2_plus;
            replace (a - b - 1 + (b + 1))%Z with a by lia; reflexivity).
    apply Qmult_le_r with (z := D); [assumption|].
    rewrite <- Hnd. apply Qle_trans with (y := Js.pow2 a); [|assumption].
    rewrite <- E. apply Qmult_le_l; [apply pow2_pos|].
    now apply Qlt_le_weak.
Qed.

Lemma ilog2_unique (q : Q) (e : Z) :
  Js.pow2 e <= q -> q < Js.pow2 (e + 1) -> Js.ilog2 q = e.
Proof.
  intros H1 H2.
  assert (0 < q) as Hq by (eapply Qlt_le_trans; [apply pow2_pos | eassumption]).
  destruct (ilog2_spec q Hq) as [S1 S2].
  assert (Js.pow2 e < Js.pow2 (Js.ilog2 q + 1)) as A
      by (eapply Qle_lt_trans; eassumption).
  assert (Js.pow2 (Js.ilog2 q) < Js.pow2 (e + 1)) as B
      by (eapply Qle_lt_trans; eassumption).
  apply Qpower_lt_compat_l_inv in A; [|reflexivity].
  apply Qpower_lt_compat_l_inv in B; [|reflexivity]. lia.
Qed.

Lemma ilog2_mono (x y : Q) : 0 < x -> x <= y -> (Js.ilog2 x <= Js.ilog2 y)%Z.
Proof.
  intros Hx Hxy.
  assert (0 < y) as Hy by (eapply Qlt_le_trans; eassumption).
  destruct (ilog2_spec x Hx) as [X1 _], (ilog2_spec y Hy) as [_ Y2].
  assert (Js.pow2 (Js.ilog2 x) < Js.pow2 (Js.ilog2 y + 1)) as A.
  { eapply Qle_lt_trans; [eassumption|].
    eapply Qle_lt_trans; eassumption. }
  apply Qpower_lt_compat_l_inv in A; [|reflexivity]. lia.
Qed.

Lemma round_half_even_floor (x : Q) :
  (Qfloor x <= Js.round_half_even x <= Qfloor x + 1)%Z.
Proof.
  unfold Js.round_half_even.
  destruct (Qcompare _ _); [destruct (Z.even _)| |]; lia.
Qed.

Lemma round_half_even_mono (x y : Q) :
  x <= y -> (Js.round_half_even x <= Js.round_half_even y)%Z.
Proof.
  intros H. pose proof (Qfloor_resp_le _ _ H) as Hf.
  pose proof (round_half_even_floor x) as Rx.
  pose proof (round_half_even_floor y) as Ry.
  destruct (Z.eq_dec (Qfloor x) (Qfloor y)) as [E|N]; [|lia].
  unfold Js.round_half_even in *. rewrite <- E in *.
  set (f := Qfloor x) in *.
  destruct (Qcompare_spec (x - inject_Z f) (1 # 2)) as [X|X|X],
           (Qcompare_spec (y - inject_Z f) (1 # 2)) as [Y|Y|Y];
    try destruct (Z.even f); try lia; exfalso; lra.
Qed.

Lemma round_half_even_Z (n : Z) : Js.round_half_even (inject_Z n) = n.
Proof.
  unfold Js.round_half_even. rewrite Qfloor_Z.
  destruct (Qcompare_spec (inject_Z n - inject_Z n) (1 # 2)) as [X|X|X];
    try reflexivity; exfalso; lra.
Qed.

Lemma round_half_even_le (x : Q) (n : Z) :
  x <= inject_Z n -> (Js.round_half_even x <= n)%Z.
Proof.
  intros H. rewrite <- (round_half_even_Z n). now apply round_half_even_mono.
Qed.

Lemma round_half_even_ge (x : Q) (n : Z) :
  inject_Z n <= x -> (n <= Js.round_half_even x)%Z.
Proof.
  intros H. rewrite <- (round_half_even_Z n) at 1.
  now apply round_half_even_mono.
Qed.

Lemma ulp_pos (a : Q) : 0 < Js.ulp a.
Proof. apply pow2_pos. Qed.

Lemma nearest_lower (a : Q) :
  0 < a -> (-1022 <= Js.ilog2 a)%Z -> Js.pow2 (Js.ilog2 a) <= Js.nearest a.
Proof.
  intros Ha He. unfold Js.nearest, Js.ulp. rewrite Z.max_l by assumption.
  destruct (ilog2_spec a Ha) as [S1 _].
  set (e := Js.ilog2 a) in *.
  assert (Js.pow2 e == inject_Z (2 ^ 52) * Js.pow2 (e - 52)) as E.
  { rewrite pow2_Z by lia. rewrite <- pow2_plus.
    replace (52 + (e - 52))%Z with e by lia. reflexivity. }
  rewrite E. apply Qmult_le_r; [apply pow2_pos|].
  rewrite <- Zle_Qle. apply round_half_even_ge.
  apply Qle_shift_div_l; [apply pow2_pos|]. now rewrite <- E.
Qed.

Lemma nearest_upper (a : Q) :
  0 < a -> Js.nearest a <= Js.pow2 (Z.max (Js.ilog2 a) (-1022) + 1).
Proof.
  intros Ha. unfold Js.nearest, Js.ulp.
  destruct (ilog2_spec a Ha) as [_ S2].
  set (e := Z.max (Js.ilog2 a) (-1022)).
  assert (Js.pow2 (e + 1) == inject_Z (2 ^ 53) * Js.pow2 (e - 52)) as E.
  { rewrite pow2_Z by lia. rewrite <- pow2_plus.
    replace (53 + (e - 52))%Z with (e + 1)%Z by lia. reflexivity. }
  rewrite E. apply Qmult_le_r; [apply pow2_pos|].
  rewrite <- Zle_Qle. apply round_half_even_le.
  apply Qle_shift_div_r; [apply pow2_pos|]. rewrite <- E.
  apply Qlt_le_weak. eapply Qlt_le_trans; [eassumption|].
  apply pow2_le. unfold e. lia.
Qed.

Lemma nearest_mono (x y : Q) :
  0 < x -> x <= y -> Js.nearest x <= Js.nearest y.
Proof.
  intros Hx Hxy.
  assert (0 < y) as Hy by (eapply Qlt_le_trans; eassumption).
  pose proof (ilog2_mono x y Hx Hxy) as He.
  destruct (Z.eq_dec (Z.max (Js.ilog2 x) (-1022)) (Z.max (Js.ilog2 y) (-1022)))
    as [E|N].
  - unfold Js.nearest, Js.ulp. rewrite E.
    apply Qmult_le_r; [apply pow2_pos|].
    rewrite <- Zle_Qle. apply round_half_even_mono.
    apply Qmult_le_r; [apply Qinv_lt_0_compat, pow2_pos | assumption].
  - eapply Qle_trans; [apply nearest_upper; assumption|].
    eapply Qle_trans; [|apply nearest_lower; [assumption | lia]].
    apply pow2_le. lia.
Qed.

Lemma Qabs_opp_eq (x : Q) : Qabs (- x) = Qabs x.
Proof. destruct x as [n d]. unfold Qabs, Qopp. cbn. now rewrite Z.abs_opp. Qed.

Lemma fl_wd (x y : Q) : x == y -> Js.fl x = Js.fl y.
Proof. intros H. unfold Js.fl. now rewrite (Qred_complete x y H). Qed.

Lemma fl_zero (x : Q) : x == 0 -> Js.fl x = Js.Fin 0.
Proof. intros H. unfold Js.fl. now rewrite (Qred_complete _ _ H). Qed.

(** Rounding is symmetric about zero. *)
Lemma fl_opp (x : Q) : Js.fl (- x) = Js.negate (Js.fl x).
Proof.
  unfold Js.fl. rewrite Qred_opp, Qabs_opp_eq.
  destruct (Qred x) as [n d]. destruct n as [|n|n]; [reflexivity| |];
    cbn [Qopp Qnum Z.opp Z.ltb Z.compare];
    match goal with
    | |- context [if ?b then _ else _] => destruct b
    end; cbn [Js.negate negb]; try reflexivity.
  - now rewrite Qred_opp.
  - rewrite Qred_opp. f_equal. destruct (Qred (Js.nearest (Qabs (Z.neg n # d)))).
    unfold Qopp. cbn. now rewrite Z.opp_involutive.
Qed.

(** The value of a positive Js.number. *)
Lemma fl_positive (x : Q) :
  0 < x ->
  Js.fl x = if Qle_bool (Js.pow2 1024) (Js.nearest (Qred x)) then Js.Inf false
         else Js.Fin (Qred (Js.nearest (Qred x))).
Proof.
  intros H. unfold Js.fl. rewrite <- (Qred_correct x) in H.
  destruct (Qred x) as [n d]. destruct n as [|n|n].
  - exfalso. apply (Qlt_irrefl 0). exact H.
  - reflexivity.
  - exfalso. apply (Qlt_not_le _ _ H). discriminate.
Qed.

Lemma leb_refl_fl (x : Q) : Js.leb (Js.fl x) (Js.fl x) = true.
Proof.
  unfold Js.fl. destruct (Qnum (Qred x)); [reflexivity| |];
    match goal with
    | |- context [if ?b then _ else _] => destruct b
    end; cbn [Js.leb]; try reflexivity; apply Qle_bool_iff, Qle_refl.
Qed.

Lemma leb_trans (a b c : Js.number) :
  Js.leb a b = true -> Js.leb b c = true -> Js.leb a c = true.
Proof.
  destruct a as [|x|[|]], b as [|y|[|]], c as [|z|[|]]; cbn [Js.leb orb negb];
    try discriminate; try reflexivity.
  intros H1 H2. apply Qle_bool_iff in H1, H2. apply Qle_bool_iff.
  eapply Qle_trans; eassumption.
Qed.

Lemma fl_mono_pos (x y : Q) :
  0 < x -> x <= y -> Js.leb (Js.fl x) (Js.fl y) = true.
Proof.
  intros Hx Hxy.
  assert (0 < y) as Hy by (eapply Qlt_le_trans; eassumption).
  rewrite (fl_positive x Hx), (fl_positive y Hy).
  assert (Js.nearest (Qred x) <= Js.nearest (Qred y)) as M.
  { apply nearest_mono; rewrite !Qred_correct; assumption. }
  destruct (Qle_bool (Js.pow2 1024) (Js.nearest (Qred y))) eqn:Oy.
  - destruct (Qle_bool (Js.pow2 1024) (Js.nearest (Qred x))); reflexivity.
  - destruct (Qle_bool (Js.pow2 1024) (Js.nearest (Qred x))) eqn:Ox.
    + apply Qle_bool_iff in Ox.
      assert (Qle_bool (Js.pow2 1024) (Js.nearest (Qred y)) = true) as C
          by (apply Qle_bool_iff; eapply Qle_trans; eassumption).
      congruence.
    + cbn [Js.leb]. apply Qle_bool_iff.
      rewrite (Qred_correct (Js.nearest (Qred x))),
        (Qred_correct (Js.nearest (Qred y))). exact M.
Qed.

Lemma fl_nonneg (x : Q) : 0 <= x -> Js.leb (Js.Fin 0) (Js.fl x) = true.
Proof.
  intros H. destruct (Qlt_le_dec 0 x) as [P|N].
  - rewrite (fl_positive x P).
    destruct (Qle_bool _ _); [reflexivity|].
    cbn [Js.leb]. apply Qle_bool_iff. rewrite Qred_correct.
    unfold Js.nearest. apply Qmult_le_0_compat.
    + change 0 with (inject_Z 0). rewrite <- Zle_Qle.
      apply round_half_even_ge. cbn. apply Qle_shift_div_l;
        [apply ulp_pos|]. rewrite Qmult_0_l, Qred_correct.
      now apply Qlt_le_weak.
    + apply Qlt_le_weak, ulp_pos.
  - rewrite fl_zero; [reflexivity|]. now apply Qle_antisym.
Qed.

Lemma leb_negate (a b : Js.number) :
  Js.leb (Js.negate a) (Js.negate b) = Js.leb b a.
Proof.
  destruct a as [|x|[|]], b as [|y|[|]]; cbn [Js.leb Js.negate negb orb];
    try reflexivity.
  destruct (Qle_bool (- x) (- y)) eqn:H1, (Qle_bool y x) eqn:H2;
    try reflexivity.
  - apply Qle_bool_iff in H1. assert (y <= x) as C by lra.
    apply Qle_bool_iff in C. congruence.
  - apply Qle_bool_iff in H2. assert (- x <= - y) as C by lra.
    apply Qle_bool_iff in C. congruence.
Qed.

(** Rounding is monotone. *)
Lemma fl_mono (x y : Q) : x <= y -> Js.leb (Js.fl x) (Js.fl y) = true.
Proof.
  intros H. destruct (Qlt_le_dec 0 x) as [Px|Nx].
  - now apply fl_mono_pos.
  - assert (Js.fl x = Js.negate (Js.fl (- x))) as Ex
        by (rewrite <- fl_opp; apply fl_wd; ring).
    destruct (Qlt_le_dec y 0) as [Ny|Py].
    + assert (Js.fl y = Js.negate (Js.fl (- y))) as Ey
          by (rewrite <- fl_opp; apply fl_wd; ring).
      rewrite Ex, Ey, leb_negate. apply fl_mono_pos; lra.
    + apply leb_trans with (b := Js.Fin 0); [|now apply fl_nonneg].
      rewrite Ex. change (Js.Fin 0) with (Js.negate (Js.Fin 0)).
      rewrite leb_negate. apply fl_nonneg. lra.
Qed.

Lemma fl_not_NaN (x : Q) : Js.isNaN (Js.fl x) = false.
Proof.
  unfold Js.fl. destruct (Qnum (Qred x)); [reflexivity| |];
    match goal with
    | |- context [if ?b then _ else _] => destruct b
    end; reflexivity.
Qed.

Lemma abs_negate (a : Js.number) : Js.abs (Js.negate a) = Js.abs a.
Proof.
  destruct a as [|x|s]; cbn [Js.abs Js.negate]; try reflexivity.
  now rewrite Qabs_opp_eq.
Qed.

(** The difference of a finite number with itself is zero. *)
Lemma sub_diag (x : Js.number) :
  Js.isFinite x = true -> Js.sub x x = Js.Fin 0.
Proof.
  destruct x as [|q|]; try discriminate. intros _.
  cbn [Js.sub Js.negate Js.add]. apply fl_zero. ring.
Qed.

Lemma abs_sub_sym (a b : Js.number) :
  Js.abs (Js.sub a b) = Js.abs (Js.sub b a).
Proof.
  destruct a as [|x|s], b as [|y|t]; try reflexivity.
  - cbn [Js.sub Js.negate Js.add].
    rewrite <- (abs_negate (Js.fl (x + - y))), <- fl_opp.
    f_equal. apply fl_wd. ring.
  - now destruct s, t.
Qed.

Lemma within_sym (a b : Js.number) (tol : Q) :
  Js.within a b tol = Js.within b a tol.
Proof. unfold Js.within. now rewrite abs_sub_sym. Qed.

(** The binary64 value of an integer from 2 on is above 1. *)
Lemma of_Z_above_one (n : Z) :
  (2 <= n)%Z -> Js.leb (Js.of_Z n) (Js.of_Z 1) = false.
Proof.
  intros H. unfold Js.of_Z.
  assert (Js.leb (Js.fl 2) (Js.fl (inject_Z n)) = true) as M.
  { apply fl_mono. change 2 with (inject_Z 2). now rewrite <- Zle_Qle. }
  change (Js.fl 2) with (Js.Fin 2) in M.
  change (Js.fl (inject_Z 1)) with (Js.Fin 1).
  destruct (Js.fl (inject_Z n)) as [|q|[|]]; try discriminate;
    try reflexivity.
  cbn [Js.leb] in *. apply Qle_bool_iff in M.
  destruct (Qle_bool q 1) eqn:C; [|reflexivity].
  apply Qle_bool_iff in C. exfalso. lra.
Qed.

(** [Math.max(totalFields, 1)] is [totalFields]. *)
Lemma max_total (n : nat) :
  n <> O ->
  Js.max (Js.of_Z (Z.of_nat n)) (Js.of_Z 1) = Js.of_Z (Z.of_nat n).
Proof.
  intros Hn. destruct (Nat.eq_dec n 1) as [->|N1]; [reflexivity|].
  pose proof (of_Z_above_one (Z.of_nat n) ltac:(lia)) as H.
  pose proof (fl_not_NaN (inject_Z (Z.of_nat n))) as Nn.
  unfold Js.max, Js.of_Z in *.
  change (Js.fl (inject_Z 1)) with (Js.Fin 1) in *.
  destruct (Js.fl (inject_Z (Z.of_nat n))); try discriminate;
    now rewrite H.
Qed.

(** ** Sets of strings *)

Lemma has_add (s : JsSet.t) (x y : string) :
  JsSet.has (JsSet.add s y) x = JsSet.has s x || String.eqb x y.
Proof.
  unfold JsSet.add. destruct (JsSet.has s y) eqn:Hy.
  - destruct (String.eqb x y) eqn:Hxy.
    + apply String.eqb_eq in Hxy. subst. rewrite Hy. reflexivity.
    + now rewrite orb_false_r.
  - unfold JsSet.has. rewrite existsb_app. simpl. now rewrite orb_false_r.
Qed.

Lemma has_fold_add (l : list string) (s : JsSet.t) (x : string) :
  JsSet.has (fold_left JsSet.add l s) x
  = JsSet.has s x || existsb (String.eqb x) l.
Proof.
  revert s. induction l as [|y l IH]; intros s; simpl.
  - now rewrite orb_false_r.
  - rewrite IH, has_add. now rewrite orb_assoc.
Qed.

Lemma has_of_list (l : list string) (x : string) :
  JsSet.has (JsSet.of_list l) x = existsb (String.eqb x) l.
Proof. unfold JsSet.of_list. now rewrite has_fold_add. Qed.

Lemma has_In (s : list string) (x : string) :
  JsSet.has s x = true <-> In x s.
Proof.
  unfold JsSet.has. rewrite existsb_exists. split.
  - intros (y & Hy & E). apply String.eqb_eq in E. now subst.
  - intros H. exists x. split; [assumption | apply String.eqb_refl].
Qed.

Lemma NoDup_add (s : JsSet.t) (x : string) :
  NoDup s -> NoDup (JsSet.add s x).
Proof.
  intros H. unfold JsSet.add. destruct (JsSet.has s x) eqn:Hx; [assumption|].
  apply NoDup_app; [assumption | repeat constructor; intros [] | ].
  intros y Hy [<- | []]. apply has_In in Hy. congruence.
Qed.

Lemma NoDup_fold_add (l : list string) (s : JsSet.t) :
  NoDup s -> NoDup (fold_left JsSet.add l s).
Proof.
  revert s. induction l as [|y l IH]; intros s H; simpl; [assumption|].
  apply IH, NoDup_add, H.
Qed.

Lemma fold_add_map {A} (f : A -> string) (l : list A) (s : JsSet.t) :
  fold_left (fun s m => JsSet.add s (f m)) l s
  = fold_left JsSet.add (map f l) s.
Proof. revert s. induction l; intros s; simpl; [reflexivity | apply IHl]. Qed.

(** ** The comparator's verdict *)

Lemma passed_compare (gt actual : Json) (rules : ComparisonRules) :
  let r := Comparator.compare gt actual rules in
  passed r
  = (List.length (mismatches r) =? 0)%nat
    && (List.length (missing r) =? 0)%nat
    && ((List.length (extra r) =? 0)%nat || negb (extraFieldsWarning rules)).
Proof. reflexivity. Qed.

Lemma verdict_false_iff {A B C} (ms : list A) (xs : list B) (es : list C)
    (w : bool) :
  (List.length ms =? 0)%nat && (List.length xs =? 0)%nat
  && ((List.length es =? 0)%nat || negb w) = false
  <-> (ms <> [] \/ xs <> [] \/ (es <> [] /\ w = true)).
Proof.
  destruct ms as [|m ms]; simpl.
  2: { split; [intros _; left; discriminate | reflexivity]. }
  destruct xs as [|x xs]; simpl.
  2: { split; [intros _; right; left; discriminate | reflexivity]. }
  destruct es as [|e es]; simpl.
  - split; [discriminate|]. intros [H | [H | [H _]]]; now elim H.
  - destruct w; simpl.
    + split; [intros _; right; right; split; [discriminate | reflexivity]
             | reflexivity].
    + split; [discriminate|].
      intros [H | [H | [_ H]]]; [now elim H | now elim H | discriminate].
Qed.

(** C1, as the specification words it, fails: with the extra-fields-warning
    flag enabled (the default), an extra field alone makes [passed] false,
    where the worded invariant gives true. *)
Lemma C1_counterexample :
  passed (Comparator.compare (JObj []) (JObj [("extra", JBool true)])
            defaultRules) = false
  /\ passed_as_specified
       (Comparator.compare (JObj []) (JObj [("extra", JBool true)])
          defaultRules) defaultRules = true
  /\ extraFieldsWarning defaultRules = true.
Proof. vm_compute. repeat split. Qed.

(** C1, amended: [passed] is false exactly when mismatches is non-empty, or
    missing is non-empty, or extra is non-empty and the extra-fields-warning
    flag is enabled. *)
Theorem C1_passed_iff (gt actual : Json) (rules : ComparisonRules) :
  passed (Comparator.compare gt actual rules) = false
  <-> (mismatches (Comparator.compare gt actual rules) <> []
       \/ missing (Comparator.compare gt actual rules) <> []
       \/ (extra (Comparator.compare gt actual rules) <> []
           /\ extraFieldsWarning rules = true)).
Proof. rewrite passed_compare. apply verdict_false_iff. Qed.

(** ** The scorer *)

Lemma extractSchema_paths (c : ComparisonResult) :
  Scorer.extractSchema c
  = fold_left JsSet.add
      (map mismatch_path (mismatches c) ++ map missing_path (missing c))%list
      JsSet.empty.
Proof.
  unfold Scorer.extractSchema.
  rewrite (fold_add_map missing_path), (fold_add_map mismatch_path).
  now rewrite fold_left_app.
Qed.

Lemma extractSchema_In (c : ComparisonResult) (p : string) :
  In p (Scorer.extractSchema c) <-> In p (universe c).
Proof.
  rewrite extractSchema_paths. unfold universe.
  etransitivity; [symmetry; apply has_In|].
  rewrite has_fold_add. simpl.
  etransitivity; [apply has_In|]. symmetry. apply nodup_In.
Qed.

Lemma extractSchema_size (c : ComparisonResult) :
  JsSet.size (Scorer.extractSchema c) = List.length (universe c).
Proof.
  unfold JsSet.size. apply Permutation_length, NoDup_Permutation.
  - rewrite extractSchema_paths. apply NoDup_fold_add. constructor.
  - apply NoDup_nodup.
  - apply extractSchema_In.
Qed.

(** C3: when the scoring universe is empty, [score] returns the sentinel
    (overall, completeness and accuracy 100, extra-field score 0, no field
    scores and a breakdown of zeros) whatever the configuration and however
    many extra entries the comparison holds. *)
Theorem C3_sentinel (c : ComparisonResult) (config : ScoringConfig) :
  universe c = [] ->
  Scorer.score c config
  = {| overallScore := 100; completenessScore := 100; accuracyScore := 100;
       extraFieldScore := 0; fieldScores := [];
       breakdown := {| totalFields := 0; matchedFields := 0;
                       missingFields := 0; mismatchedFields := 0;
                       extraFields := 0 |} |}.
Proof.
  intros H. unfold Scorer.score.
  rewrite extractSchema_size, H. reflexivity.
Qed.

Lemma C3_sentinel_witness :
  let c := Comparator.compare (JObj []) (JObj [("extra", JBool true)])
             defaultRules in
  extra c = [{| extra_path := "extra"; extra_value := JBool true |}]
  /\ overallScore (Scorer.score c defaultScoring) = 100
  /\ extraFieldScore (Scorer.score c defaultScoring) = 0.
Proof.
  split; [vm_compute; reflexivity|].
  rewrite (C3_sentinel
             (Comparator.compare (JObj []) (JObj [("extra", JBool true)])
                defaultRules) defaultScoring eq_refl).
  split; reflexivity.
Defined.

Lemma round2_half_up (x : Q) : rounded_half_up_2dp x (Scorer.round2 x).
Proof.
  exists (Scorer.Math_round (x * 100)). split; [reflexivity|].
  unfold Scorer.Math_round.
  pose proof (Qfloor_le (x * 100 + (1 # 2))) as Hle.
  pose proof (Qlt_floor (x * 100 + (1 # 2))) as Hlt.
  rewrite inject_Z_plus in Hlt.
  set (n := inject_Z (Qfloor (x * 100 + (1 # 2)))) in *.
  change (inject_Z 1) with 1 in Hlt.
  split; lra.
Qed.

Lemma rounded_half_up_2dp_eq (x y r : Q) :
  x == y -> rounded_half_up_2dp x r -> rounded_half_up_2dp y r.
Proof.
  intros E (n & Hr & Hlo & Hhi). exists n. rewrite <- E. auto.
Qed.

Lemma Math_max_Qmax (a b : Q) : Scorer.Math_max a b == Qmax a b.
Proof.
  unfold Scorer.Math_max. destruct (Qle_bool a b) eqn:H.
  - apply Qle_bool_iff in H. symmetry. now apply Q.max_r.
  - symmetry. apply Q.max_l. apply Qlt_le_weak, Qnot_le_lt.
    intros C. apply Qle_bool_iff in C. congruence.
Qed.

Lemma Math_max_total (n : nat) :
  n <> O -> Scorer.Math_max (inject_Z (Z.of_nat n)) 1 == inject_Z (Z.of_nat n).
Proof.
  intros Hn. unfold Scorer.Math_max.
  destruct (Qle_bool (inject_Z (Z.of_nat n)) 1) eqn:H; [|reflexivity].
  apply Qle_bool_iff in H. change 1 with (inject_Z 1) in H.
  rewrite <- Zle_Qle in H. assert (n = 1%nat) as -> by lia. reflexivity.
Qed.

(** Over the rationals the four scores are the stated quotients, each
    rounded to two decimal places with a tie going up. *)
Lemma score_formulas_exact (c : ComparisonResult) (config : ScoringConfig) :
  let total := inject_Z (Z.of_nat (List.length (universe c))) in
  let missingN := inject_Z (Z.of_nat (List.length (missing c))) in
  let mismatchN := inject_Z (Z.of_nat (List.length (mismatches c))) in
  let extraN := inject_Z (Z.of_nat (List.length (extra c))) in
  universe c <> [] ->
  rounded_half_up_2dp ((total - missingN - mismatchN) / total * 100)
    (completenessScore (Scorer.score c config))
  /\ rounded_half_up_2dp ((total - mismatchN) / total * 100)
       (accuracyScore (Scorer.score c config))
  /\ rounded_half_up_2dp
       (Qmax 0
          (100 - ((missingN * missingFieldPenalty config
                   + mismatchN * mismatchPenalty config
                   + extraN * extraFieldPenalty config) / total) * 10))
       (overallScore (Scorer.score c config))
  /\ rounded_half_up_2dp (extraN / total * 100)
       (extraFieldScore (Scorer.score c config)).
Proof.
  intros total missingN mismatchN extraN Hne.
  assert (List.length (universe c) <> O) as Hlen
      by (destruct (universe c); [congruence | discriminate]).
  unfold Scorer.score. rewrite extractSchema_size.
  destruct (Z.of_nat (List.length (universe c)) =? 0)%Z eqn:Hz;
    [apply Z.eqb_eq in Hz; lia|].
  cbn [completenessScore accuracyScore overallScore extraFieldScore].
  unfold Scorer.len. fold total missingN mismatchN extraN.
  repeat split.
  - eapply rounded_half_up_2dp_eq; [|apply round2_half_up].
    unfold Zminus. rewrite !inject_Z_plus, !inject_Z_opp.
    fold total missingN mismatchN. reflexivity.
  - eapply rounded_half_up_2dp_eq; [|apply round2_half_up].
    unfold Zminus. rewrite !inject_Z_plus, !inject_Z_opp.
    fold total mismatchN. reflexivity.
  - eapply rounded_half_up_2dp_eq; [|apply round2_half_up].
    rewrite Math_max_Qmax. rewrite Qplus_0_l. reflexivity.
  - eapply rounded_half_up_2dp_eq; [|apply round2_half_up].
    unfold total. rewrite (Math_max_total _ Hlen). reflexivity.
Qed.

(** C4, as the specification words it, fails: with 160 missing paths and
    23 extra entries the extra-field quotient is 14.375, which rounds
    half-up to 14.38; the runtime's product [(23 / 160) * 100 * 100] is
    1437.4999999999998, and the score returned is 14.37. *)
Lemma C4_counterexample :
  let c := Comparator.compare wide_truth wide_actual defaultRules in
  List.length (universe c) = 160%nat
  /\ List.length (extra c) = 23%nat
  /\ rounded_half_up_2dp ((23 / 160) * 100) (1438 # 100)
  /\ Js.Number_toString
       (Js.mul (Js.mul (Js.div (Js.of_Z 23) (Js.of_Z 160)) (Js.of_Z 100))
          (Js.of_Z 100))
     = "1437.4999999999998"
  /\ extraFieldScore64 (Scorer.score64 c defaultScoring)
     = Js.fl (1437 # 100)
  /\ Js.Number_toString (extraFieldScore64 (Scorer.score64 c defaultScoring))
     = "14.37".
Proof.
  cbv zeta. split; [vm_compute; reflexivity|].
  split; [vm_compute; reflexivity|].
  split; [exists 1438%Z; vm_compute; repeat split; discriminate|].
  vm_compute. auto.
Qed.

(** C4, amended: with a non-empty universe of size [total], the four
    scores are the stated expressions evaluated in binary64 arithmetic,
    every operation rounded to the nearest binary64 value, each passed
    through [Math.round(x * 100) / 100]: the rounding to two decimals is
    that of the computed product, a tie of which goes up, not that of the
    exact quotient. *)
Theorem C4_score_formulas (c : ComparisonResult) (config : ScoringConfig) :
  let total := Js.of_Z (Z.of_nat (List.length (universe c))) in
  let missingN := Js.of_Z (Z.of_nat (List.length (missing c))) in
  let mismatchN := Js.of_Z (Z.of_nat (List.length (mismatches c))) in
  let extraN := Js.of_Z (Z.of_nat (List.length (extra c))) in
  let times x y := Js.mul x (Js.fl y) in
  let rounded x :=
    Js.div (Js.round (Js.mul x (Js.fl 100))) (Js.fl 100) in
  universe c <> [] ->
  completenessScore64 (Scorer.score64 c config)
  = rounded
      (Js.mul (Js.div (Js.sub (Js.sub total missingN) mismatchN) total)
         (Js.fl 100))
  /\ accuracyScore64 (Scorer.score64 c config)
     = rounded
         (Js.mul (Js.div (Js.sub total mismatchN) total) (Js.fl 100))
  /\ overallScore64 (Scorer.score64 c config)
     = rounded
         (Js.max (Js.fl 0)
            (Js.sub (Js.fl 100)
               (Js.mul
                  (Js.div
                     (Js.add
                        (Js.add
                           (Js.add (Js.fl 0)
                              (times missingN (missingFieldPenalty config)))
                           (times mismatchN (mismatchPenalty config)))
                        (times extraN (extraFieldPenalty config)))
                     total)
                  (Js.fl 10))))
  /\ extraFieldScore64 (Scorer.score64 c config)
     = rounded (Js.mul (Js.div extraN total) (Js.fl 100)).
Proof.
  intros total missingN mismatchN extraN times rounded Hne.
  assert (List.length (universe c) <> O) as Hlen
      by (destruct (universe c); [congruence | discriminate]).
  unfold Scorer.score64. rewrite extractSchema_size.
  destruct (Z.of_nat (List.length (universe c)) =? 0)%Z eqn:Hz;
    [apply Z.eqb_eq in Hz; lia|].
  cbn [completenessScore64 accuracyScore64 overallScore64 extraFieldScore64].
  unfold Scorer.len. fold total missingN mismatchN extraN.
  repeat split.
  unfold total. rewrite (max_total _ Hlen). reflexivity.
Qed.

Lemma C4_score_formulas_witness :
  let c := Comparator.compare (JObj [("x", jnum 1); ("y", jnum 2)])
             (JObj [("x", jnum 1)]) defaultRules in
  completenessScore64 (Scorer.score64 c defaultScoring) = Js.Fin 0
  /\ accuracyScore64 (Scorer.score64 c defaultScoring) = Js.Fin 100
  /\ overallScore64 (Scorer.score64 c defaultScoring) = Js.Fin 0
  /\ extraFieldScore64 (Scorer.score64 c defaultScoring) = Js.Fin 0.
Proof.
  cbv zeta.
  destruct (C4_score_formulas
              (Comparator.compare (JObj [("x", jnum 1); ("y", jnum 2)])
                 (JObj [("x", jnum 1)]) defaultRules) defaultScoring)
    as (Hc & Ha & Ho & He); [vm_compute; discriminate|].
  rewrite Hc, Ha, Ho, He. vm_compute. auto.
Defined.

(** C5: the scores are not confined to [0, 100].  Two extra fields against a
    universe of one path give an extra-field score of 200; two items missing
    at one array path give a completeness of -100. *)
Theorem C5_scores_leave_range :
  extraFieldScore
    (Scorer.score
       (Comparator.compare (JObj [("x", jnum 1)])
          (JObj [("x", jnum 2); ("a", jnum 1); ("b", jnum 1)]) defaultRules)
       defaultScoring) == 200
  /\ completenessScore
       (Scorer.score
          (Comparator.compare (JObj [("arr", JArr [jnum 1; jnum 2])])
             (JObj [("arr", JArr [jnum 3; jnum 4])]) defaultRules)
          defaultScoring) == - (100).
Proof. split; vm_compute; reflexivity. Qed.

(** ** Results grow by appending *)

Lemma extend_nil (r : ComparisonResult) : extend r [] [] [] [] = r.
Proof. destruct r. unfold extend. simpl. now rewrite !app_nil_r. Qed.

Lemma extend_extend (r : ComparisonResult) ms xs es ws ms' xs' es' ws' :
  extend (extend r ms xs es ws) ms' xs' es' ws'
  = extend r (ms ++ ms') (xs ++ xs') (es ++ es') (ws ++ ws').
Proof. unfold extend. simpl. now rewrite !app_assoc. Qed.

Lemma push_mismatch_extend r m : push_mismatch r m = extend r [m] [] [] [].
Proof. unfold push_mismatch, extend. now rewrite !app_nil_r. Qed.

Lemma push_missing_extend r m : push_missing r m = extend r [] [m] [] [].
Proof. unfold push_missing, extend. now rewrite !app_nil_r. Qed.

Lemma push_extra_extend r e : push_extra r e = extend r [] [] [e] [].
Proof. unfold push_extra, extend. now rewrite !app_nil_r. Qed.

Lemma push_warning_extend r w : push_warning r w = extend r [] [] [] [w].
Proof. unfold push_warning, extend. now rewrite !app_nil_r. Qed.

Lemma fold_push_missing (f : Json -> bool) (mk : Json -> MissingField)
    (l : list Json) (r : ComparisonResult) :
  fold_left (fun r item => if f item then push_missing r (mk item) else r) l r
  = extend r [] (map mk (filter f l)) [] [].
Proof.
  revert r. induction l as [|x l IH]; intros r; simpl.
  - symmetry. apply extend_nil.
  - rewrite IH. destruct (f x); [|reflexivity].
    now rewrite push_missing_extend, extend_extend.
Qed.

Lemma fold_push_extra (f : Json -> bool) (mk : Json -> ExtraField)
    (l : list Json) (r : ComparisonResult) :
  fold_left (fun r item => if f item then push_extra r (mk item) else r) l r
  = extend r [] [] (map mk (filter f l)) [].
Proof.
  revert r. induction l as [|x l IH]; intros r; simpl.
  - symmetry. apply extend_nil.
  - rewrite IH. destruct (f x); [|reflexivity].
    now rewrite push_extra_extend, extend_extend.
Qed.

(** ** Unordered comparison of arrays *)

Lemma existsb_eqb_count (x : string) (l : list string) :
  negb (existsb (String.eqb x) l) = (count_occ string_dec l x =? 0)%nat.
Proof.
  induction l as [|y l IH]; simpl; [reflexivity|].
  destruct (string_dec y x) as [->|N].
  - now rewrite String.eqb_refl.
  - destruct (String.eqb x y) eqn:E; [|exact IH].
    apply String.eqb_eq in E. congruence.
Qed.

Lemma not_has_absent (l : list Json) (item : Json) :
  negb (JsSet.has (JsSet.of_list (map Js.String_ l)) (Js.String_ item))
  = absent_from l item.
Proof. rewrite has_of_list. apply existsb_eqb_count. Qed.

Lemma absent_from_In (l : list Json) (item : Json) :
  In item l -> absent_from l item = false.
Proof.
  intros H. unfold absent_from, multiplicity. apply Nat.eqb_neq.
  apply Nat.neq_0_lt_0, count_occ_In, in_map, H.
Qed.

Lemma filter_none {A} (f : A -> bool) (l : list A) :
  (forall x, In x l -> f x = false) -> filter f l = [].
Proof.
  induction l as [|x l IH]; intros H; simpl; [reflexivity|].
  rewrite (H x (or_introl eq_refl)). apply IH. intros y Hy. apply H. now right.
Qed.

Lemma compareUnordered_extend (gt actual : list Json) (path : string)
    (result : ComparisonResult) :
  Comparator.compareUnordered gt actual path result
  = extend result []
      (map (fun item =>
              {| missing_path := path ++ "[]"; expectedValue := item |})
           (filter (absent_from actual) gt))
      (map (fun item =>
              {| extra_path := path ++ "[]"; extra_value := item |})
           (filter (absent_from gt) actual))
      (if (List.length gt =? List.length actual)%nat
          && negb (String.eqb (Js.JSON_stringify (JArr gt))
                              (Js.JSON_stringify (JArr actual)))
       then [{| warning_path := path;
                message :=
                  "Array order differs (unordered comparison enabled)" |}]
       else []).
Proof.
  unfold Comparator.compareUnordered.
  rewrite (fold_push_missing
             (fun item =>
                negb (JsSet.has (JsSet.of_list (map Js.String_ actual))
                        (Js.String_ item)))
             (fun item =>
                {| missing_path := path ++ "[]"; expectedValue := item |})).
  rewrite (fold_push_extra
             (fun item =>
                negb (JsSet.has (JsSet.of_list (map Js.String_ gt))
                        (Js.String_ item)))
             (fun item =>
                {| extra_path := path ++ "[]"; extra_value := item |})).
  rewrite (filter_ext _ _ (not_has_absent actual)).
  rewrite (filter_ext _ _ (not_has_absent gt)).
  rewrite extend_extend.
  destruct ((List.length gt =? List.length actual)%nat
            && negb (String.eqb (Js.JSON_stringify (JArr gt))
                                (Js.JSON_stringify (JArr actual)))).
  - rewrite push_warning_extend, extend_extend. simpl.
    now rewrite !app_nil_r.
  - simpl. now rewrite !app_nil_r.
Qed.

(** C2: under the unordered strategy [compareArrays] reports as missing
    exactly the ground-truth items whose string coercion has multiplicity
    zero among the actual items, as extra exactly the actual items absent
    from the ground truth in the same sense, and no mismatch; a reordering
    of an array against the original adds no missing and no extra entry;
    and arrays of equal length whose serializations differ get one order
    warning at the array's path. *)
Theorem C2_unordered_multiset (rules : ComparisonRules) (ignoreSet : JsSet.t)
    (gt actual : list Json) (path : string) (result : ComparisonResult) :
  arrayStrategy rules = unordered ->
  let r := Comparator.compareArrays rules ignoreSet gt actual path result in
  missing r
  = (missing result
     ++ map (fun item =>
               {| missing_path := path ++ "[]"; expectedValue := item |})
          (filter (absent_from actual) gt))%list
  /\ extra r
     = (extra result
        ++ map (fun item =>
                  {| extra_path := path ++ "[]"; extra_value := item |})
             (filter (absent_from gt) actual))%list
  /\ mismatches r = mismatches result
  /\ (Permutation gt actual ->
      missing r = missing result /\ extra r = extra result)
  /\ (List.length gt = List.length actual ->
      String.eqb (Js.JSON_stringify (JArr gt))
                 (Js.JSON_stringify (JArr actual)) = false ->
      warnings r
      = (warnings result
         ++ [{| warning_path := path;
                message :=
                  "Array order differs (unordered comparison enabled)" |}])
        %list).
Proof.
  intros Hs r. subst r. unfold Comparator.compareArrays. rewrite Hs.
  rewrite compareUnordered_extend.
  cbn [extend missing extra mismatches warnings].
  repeat split.
  - apply app_nil_r.
  - rewrite filter_none; [apply app_nil_r|].
    intros x Hx. apply absent_from_In. eapply Permutation_in; eassumption.
  - rewrite filter_none; [apply app_nil_r|].
    intros x Hx. apply absent_from_In.
    eapply Permutation_in; [apply Permutation_sym|]; eassumption.
  - intros Hl Hj. rewrite Hl, Nat.eqb_refl, Hj. reflexivity.
Qed.

Lemma C2_unordered_multiset_witness :
  let r := Comparator.compareArrays defaultRules []
             [jnum 1; jnum 2; jnum 3] [jnum 3; JStr "2"; jnum 1; jnum 7]
             "arr" Comparator.empty_result in
  missing r = []
  /\ extra r = [{| extra_path := "arr[]"; extra_value := jnum 7 |}]
  /\ mismatches r = [].
Proof.
  pose proof (C2_unordered_multiset defaultRules []
                [jnum 1; jnum 2; jnum 3] [jnum 3; JStr "2"; jnum 1; jnum 7]
                "arr" Comparator.empty_result eq_refl) as (Hm & He & Hx & _).
  cbv zeta. rewrite Hm, He, Hx. vm_compute. auto.
Defined.

(** ** Primitive leaves *)

(** C6, as the specification words it, fails: under type coercion the
    boolean [true] and the string "true" differ as values, yet the
    comparator reports no mismatch, their string coercions being equal. *)
Lemma C6_counterexample :
  typeCoercion defaultRules = true
  /\ Js.type_tag_eqb (Js.typeof (JBool true)) (Js.typeof (JStr "true")) = false
  /\ Comparator.comparePrimitives (JBool true) (JStr "true") "flag"
       Comparator.empty_result defaultRules
     = Comparator.empty_result
  /\ leaves_as_specified (JBool true) (JStr "true") "flag"
       Comparator.empty_result defaultRules
     = push_mismatch Comparator.empty_result
         {| mismatch_path := "flag"; mismatch_groundTruth := JBool true;
            mismatch_actual := JStr "true";
            mismatch_type := value_mismatch |}.
Proof. vm_compute. auto. Qed.

(** C6, amended: for two primitive leaves of differing type under type
    coercion, a number against a numeric-looking string is compared as
    numbers under the tolerance (equal within it, a numeric mismatch
    otherwise, with no recourse to string equality); in every other case
    the leaves are equal when their string coercions are equal, and a
    value mismatch is reported otherwise. *)
Theorem C6_coerced_leaves (gt actual : Json) (path : string)
    (result : ComparisonResult) (rules : ComparisonRules) :
  primitive_leaf gt = true ->
  primitive_leaf actual = true ->
  Js.type_tag_eqb (Js.typeof gt) (Js.typeof actual) = false ->
  typeCoercion rules = true ->
  Comparator.comparePrimitives gt actual path result rules
  = if numeric_pair gt actual then
      if Js.within (Js.Number_ gt) (Js.Number_ actual)
           (numericTolerance rules)
      then result
      else push_mismatch result
             {| mismatch_path := path; mismatch_groundTruth := gt;
                mismatch_actual := actual;
                mismatch_type := numeric_mismatch |}
    else if String.eqb (Js.String_ gt) (Js.String_ actual) then result
    else push_mismatch result
           {| mismatch_path := path; mismatch_groundTruth := gt;
              mismatch_actual := actual; mismatch_type := value_mismatch |}.
Proof.
  intros Hg Ha Ht Hc. unfold Comparator.comparePrimitives. rewrite Hc.
  destruct gt; try discriminate; destruct actual; try discriminate;
    cbn [Js.typeof Js.type_tag_eqb Comparator.is_number Comparator.is_string
         Comparator.strict_eq negb andb orb numeric_pair Js.Number_ Js.isNaN];
    rewrite ?fl_not_NaN; cbn [negb andb]; rewrite ?andb_true_r; reflexivity.
Qed.

Lemma C6_coerced_leaves_witness :
  Comparator.comparePrimitives (jnum 10) (JStr "10.5") "n"
    Comparator.empty_result defaultRules
  = push_mismatch Comparator.empty_result
      {| mismatch_path := "n"; mismatch_groundTruth := jnum 10;
         mismatch_actual := JStr "10.5";
         mismatch_type := numeric_mismatch |}.
Proof.
  rewrite (C6_coerced_leaves (jnum 10) (JStr "10.5") "n"
             Comparator.empty_result defaultRules
             eq_refl eq_refl eq_refl eq_refl).
  vm_compute. reflexivity.
Defined.

(** ** The schema inferrer on arrays *)




(** An array under an object's field whose first element is falsy (here 0)
    is typed string as well: [value[0] || ''] replaces the element. *)
Example falsy_first_element_typed_string :
  JsMap.get
    (fields (SchemaInferrer.infer (JObj [("n", JArr [jnum 0; jnum 1])]) ""))
    "n"
  = Some {| schema_path := "n"; schema_type := TyString; isArray := true;
            isRequired := true; sampleValues := [jnum 0; jnum 1] |}.
Proof. reflexivity. Qed.

(** ** The equations of the traversals *)

Section Equations.
Variable rules : ComparisonRules.
Variable ignoreSet : JsSet.t.

Lemma compareObject_array (gl al : list Json) (path : string)
    (result : ComparisonResult) :
  Comparator.compareObject rules ignoreSet (JArr gl) (JArr al) path result
  = if (List.length gl =? 0)%nat && (List.length al =? 0)%nat then result
    else if Comparator.first_is_object gl
         then Comparator.compareObjectArrays rules ignoreSet gl al path result
         else Comparator.compareArrays rules ignoreSet gl al path result.
Proof.
  unfold Comparator.compareObjectArrays, Comparator.compareArrays.
  cbn [Comparator.compareObject Js.isNull andb orb].
  match goal with
  | |- context [if Comparator.first_is_object gl
                then ?f gl al O result else _] =>
      assert (forall gl al i r,
                 f gl al i r
                 = Comparator.positional rules ignoreSet gl al path i r) as E
  end.
  { clear. induction gl as [|g gl IH]; intros al i r; [reflexivity|].
    destruct al as [|a al]; cbn [Comparator.positional]; rewrite <- IH;
      reflexivity. }
  rewrite !E. now destruct (arrayStrategy rules).
Qed.

Lemma compareObject_object (kvs : list (string * Json)) (actual : Json)
    (path : string) (result : ComparisonResult) :
  Js.isNull actual = false ->
  Comparator.compareObject rules ignoreSet (JObj kvs) actual path result
  = if negb (Comparator.is_object actual) then
      push_mismatch result
        {| mismatch_path := path; mismatch_groundTruth := JObj kvs;
           mismatch_actual := actual; mismatch_type := type_mismatch |}
    else Comparator.compareFields rules ignoreSet kvs actual path result.
Proof.
  intros Hn. cbn [Comparator.compareObject Js.isNull andb orb]. rewrite Hn.
  destruct (negb (Comparator.is_object actual)); [reflexivity|].
  revert result.
  induction kvs as [|[k v] l IH]; intros result; [reflexivity|].
  cbn [Comparator.compareFields].
  destruct (JsSet.has ignoreSet (Comparator.fieldPath path k));
    [apply IH|].
  destruct (get actual k); apply IH.
Qed.

Lemma detectExtraFields_objects (gkvs akvs : list (string * Json))
    (path : string) (result : ComparisonResult) :
  Comparator.detectExtraFields ignoreSet (JObj gkvs) (JObj akvs) path result
  = Comparator.detectExtraKeys ignoreSet (JObj gkvs) akvs path result.
Proof.
  cbn [Comparator.detectExtraFields Comparator.is_object Js.typeof
       Js.type_tag_eqb Js.isNull Js.isArray negb andb orb].
  revert result. induction akvs as [|[k a] l IH]; intros result;
    [reflexivity|].
  cbn [Comparator.detectExtraKeys].
  destruct (JsSet.has ignoreSet (Comparator.fieldPath path k)
            || JsSet.has ignoreSet k); [apply IH|].
  destruct (get (JObj gkvs) k) as [g|]; [|apply IH].
  destruct (Comparator.is_object a && Comparator.is_object g); apply IH.
Qed.

(** Outside two objects the extra-field traversal reports nothing. *)
Lemma detectExtraFields_other (gt actual : Json) (path : string)
    (result : ComparisonResult) :
  (forall gkvs akvs, gt = JObj gkvs -> actual = JObj akvs -> False) ->
  Comparator.detectExtraFields ignoreSet gt actual path result = result.
Proof.
  intros H. destruct actual; try reflexivity.
  - destruct gt; reflexivity.
  - destruct gt; try reflexivity. elim (H _ _ eq_refl eq_refl).
Qed.

End Equations.

(** An array whose first ground-truth element is not [typeof 'object'] is
    handed to [compareArrays]; under the unordered strategy it is compared
    as [C2_unordered_multiset] says. *)
Lemma compareObject_unordered_array (rules : ComparisonRules)
    (ignoreSet : JsSet.t) (g : Json) (gl al : list Json) (path : string)
    (result : ComparisonResult) :
  Comparator.is_object g = false ->
  arrayStrategy rules = unordered ->
  Comparator.compareObject rules ignoreSet (JArr (g :: gl)) (JArr al) path
    result
  = Comparator.compareUnordered (g :: gl) al path result.
Proof.
  intros Hg Hs. rewrite compareObject_array.
  cbn [List.length Nat.eqb andb Comparator.first_is_object]. rewrite Hg.
  unfold Comparator.compareArrays. now rewrite Hs.
Qed.

(** An array that starts with [null] counts as an array of objects
    ([typeof null] is 'object') and is compared index by index. *)
Example null_first_array_is_positional :
  Comparator.compare (JArr [JNull; jnum 1]) (JArr [jnum 1; JNull])
    defaultRules
  = {| passed := false;
       mismatches :=
         [{| mismatch_path := "[0]"; mismatch_groundTruth := JNull;
             mismatch_actual := jnum 1; mismatch_type := value_mismatch |};
          {| mismatch_path := "[1]"; mismatch_groundTruth := jnum 1;
             mismatch_actual := JNull; mismatch_type := value_mismatch |}];
       missing := []; extra := []; warnings := [] |}.
Proof. reflexivity. Qed.

(** ** Reflexivity of the comparison *)

Lemma wf_array (l : list Json) : wf (JArr l) <-> Forall wf l.
Proof.
  cbn [wf]. induction l as [|x l IH].
  - split; [constructor | trivial].
  - split.
    + intros [Hx Hl]. constructor; [assumption | now apply IH].
    + intros H. inversion H; subst. split; [assumption | now apply IH].
Qed.

Lemma wf_object (kvs : list (string * Json)) :
  wf (JObj kvs)
  <-> NoDup (map fst kvs) /\ Forall (fun kv => wf (snd kv)) kvs.
Proof.
  cbn [wf]. apply and_iff_compat_l. induction kvs as [|kv l IH].
  - split; [constructor | trivial].
  - split.
    + intros [Hx Hl]. constructor; [assumption | now apply IH].
    + intros H. inversion H; subst. split; [assumption | now apply IH].
Qed.

Lemma lookup_NoDup (kvs : list (string * Json)) (k : string) (v : Json) :
  NoDup (map fst kvs) -> In (k, v) kvs -> lookup k kvs = Some v.
Proof.
  induction kvs as [|[k' v'] l IH]; intros Hnd Hin; [contradiction|].
  inversion Hnd as [|? ? Hnotin Hnd']; subst. cbn [lookup].
  destruct Hin as [E | Hin].
  - inversion E; subst. now rewrite String.eqb_refl.
  - destruct (String.eqb k k') eqn:E; [|now apply IH].
    apply String.eqb_eq in E. subst. elim Hnotin.
    change k' with (fst (k', v)). now apply in_map.
Qed.

Lemma finite_numbers_array (l : list Json) :
  finite_numbers (JArr l) <-> Forall finite_numbers l.
Proof.
  cbn [finite_numbers]. induction l as [|x l IH].
  - split; [constructor | trivial].
  - split.
    + intros [Hx Hl]. constructor; [assumption | now apply IH].
    + intros H. inversion H; subst. split; [assumption | now apply IH].
Qed.

Lemma finite_numbers_object (kvs : list (string * Json)) :
  finite_numbers (JObj kvs) <-> Forall (fun kv => finite_numbers (snd kv)) kvs.
Proof.
  cbn [finite_numbers]. induction kvs as [|kv l IH].
  - split; [constructor | trivial].
  - split.
    + intros [Hx Hl]. constructor; [assumption | now apply IH].
    + intros H. inversion H; subst. split; [assumption | now apply IH].
Qed.

Section Reflexivity.
Variable rules : ComparisonRules.
Variable ignoreSet : JsSet.t.
Hypothesis tolerance_nonneg :
  Js.leb (Js.Fin 0) (Js.fl (numericTolerance rules)) = true.

Local Abbreviation same_is_equal := (same_is_equal rules ignoreSet).
Local Abbreviation same_has_no_extra := (same_has_no_extra ignoreSet).

Lemma within_refl (x : Js.number) :
  Js.isFinite x = true ->
  Js.within x x (numericTolerance rules) = true.
Proof.
  intros Hx. unfold Js.within. rewrite (sub_diag x Hx).
  exact tolerance_nonneg.
Qed.

Lemma comparePrimitives_refl (v : Json) (path : string)
    (result : ComparisonResult) :
  primitive_leaf v = true ->
  finite_numbers v ->
  Comparator.comparePrimitives v v path result rules = result.
Proof.
  intros Hv Hf. unfold Comparator.comparePrimitives.
  assert (Js.type_tag_eqb (Js.typeof v) (Js.typeof v) = true) as ->
      by (destruct v; reflexivity).
  rewrite andb_false_r.
  destruct v; try discriminate;
    cbn [Comparator.is_number Js.typeof Js.type_tag_eqb andb
         Comparator.strict_eq Js.Number_].
  - now rewrite Bool.eqb_reflx.
  - now rewrite within_refl.
  - now rewrite String.eqb_refl.
Qed.

Lemma positional_refl (l : list Json) (path : string) (i : nat)
    (result : ComparisonResult) :
  Forall same_is_equal l ->
  Comparator.positional rules ignoreSet l l path i result = result.
Proof.
  intros H. revert i result.
  induction H as [|x l Hx _ IH]; intros i result; [reflexivity|].
  cbn [Comparator.positional]. rewrite Hx. apply IH.
Qed.

Lemma compareUnordered_refl (l : list Json) (path : string)
    (result : ComparisonResult) :
  Comparator.compareUnordered l l path result = result.
Proof.
  rewrite compareUnordered_extend.
  rewrite (filter_none _ _ (absent_from_In l)).
  rewrite String.eqb_refl, andb_false_r. apply extend_nil.
Qed.

Lemma compareFields_refl (rest : list (string * Json)) (actual : Json)
    (path : string) (result : ComparisonResult) :
  (forall k v, In (k, v) rest -> get actual k = Some v /\ same_is_equal v) ->
  Comparator.compareFields rules ignoreSet rest actual path result = result.
Proof.
  revert result. induction rest as [|[k v] l IH]; intros result H;
    [reflexivity|].
  cbn [Comparator.compareFields].
  assert (forall k v, In (k, v) l ->
                      get actual k = Some v /\ same_is_equal v) as Hl
      by (intros; apply H; now right).
  destruct (JsSet.has ignoreSet (Comparator.fieldPath path k));
    [now apply IH|].
  destruct (H k v (or_introl eq_refl)) as [-> Hv].
  rewrite Hv. now apply IH.
Qed.

Lemma detectExtraKeys_refl (gt : Json) (rest : list (string * Json))
    (path : string) (result : ComparisonResult) :
  (forall k v, In (k, v) rest -> get gt k = Some v /\ same_has_no_extra v) ->
  Comparator.detectExtraKeys ignoreSet gt rest path result = result.
Proof.
  revert result. induction rest as [|[k v] l IH]; intros result H;
    [reflexivity|].
  cbn [Comparator.detectExtraKeys].
  assert (forall k v, In (k, v) l ->
                      get gt k = Some v /\ same_has_no_extra v) as Hl
      by (intros; apply H; now right).
  destruct (JsSet.has ignoreSet (Comparator.fieldPath path k)
            || JsSet.has ignoreSet k); [now apply IH|].
  destruct (H k v (or_introl eq_refl)) as [-> Hv].
  destruct (Comparator.is_object v && Comparator.is_object v);
    [rewrite Hv|]; now apply IH.
Qed.

Lemma fields_of_self (kvs : list (string * Json)) (P : Json -> Prop) :
  NoDup (map fst kvs) ->
  Forall (fun kv => P (snd kv)) kvs ->
  forall k v, In (k, v) kvs -> get (JObj kvs) k = Some v /\ P v.
Proof.
  intros Hnd HP k v Hin. split.
  - now apply lookup_NoDup.
  - rewrite Forall_forall in HP. exact (HP (k, v) Hin).
Qed.

Lemma compareObject_refl (v : Json) :
  wf v -> finite_numbers v -> same_is_equal v.
Proof.
  induction v as [| b | m e | s | l IH | kvs IH] using Json_nested_ind;
    intros Hwf Hfin path result.
  - reflexivity.
  - now apply (comparePrimitives_refl (JBool b)).
  - now apply (comparePrimitives_refl (JNum m e)).
  - now apply (comparePrimitives_refl (JStr s)).
  - apply wf_array in Hwf. apply finite_numbers_array in Hfin.
    rewrite compareObject_array.
    assert (Forall same_is_equal l) as Hl.
    { rewrite Forall_forall in *. intros x Hx.
      apply IH; [assumption | now apply Hwf | now apply Hfin]. }
    destruct ((List.length l =? 0)%nat && (List.length l =? 0)%nat);
      [reflexivity|].
    unfold Comparator.compareObjectArrays, Comparator.compareArrays.
    destruct (Comparator.first_is_object l);
      [now apply positional_refl|].
    destruct (arrayStrategy rules);
      [now apply positional_refl | apply compareUnordered_refl].
  - apply wf_object in Hwf. destruct Hwf as [Hnd Hwf].
    apply finite_numbers_object in Hfin.
    rewrite compareObject_object by reflexivity. cbn [negb
      Comparator.is_object Js.typeof Js.type_tag_eqb].
    apply compareFields_refl, fields_of_self; [assumption|].
    rewrite Forall_forall in *. intros kv Hkv.
    apply IH; [assumption | now apply Hwf | now apply Hfin].
Qed.

Lemma detectExtraFields_refl (v : Json) : wf v -> same_has_no_extra v.
Proof.
  induction v as [| b | m e | s | l IH | kvs IH] using Json_nested_ind;
    intros Hwf path result; try reflexivity.
  apply wf_object in Hwf. destruct Hwf as [Hnd Hwf].
  rewrite detectExtraFields_objects.
  apply detectExtraKeys_refl, fields_of_self; [assumption|].
  rewrite Forall_forall in *. intros kv Hkv. now apply IH, Hwf.
Qed.

End Reflexivity.




(** ** The extra-field traversal touches the extra list only *)

Lemma touches_only_extra_id : touches_only_extra (fun r => r).
Proof. intros r. auto. Qed.

Lemma touches_only_extra_push e :
  touches_only_extra (fun r => push_extra r e).
Proof. intros r. cbn. auto. Qed.

Lemma touches_only_extra_compose f g :
  touches_only_extra f -> touches_only_extra g ->
  touches_only_extra (fun r => g (f r)).
Proof.
  intros Hf Hg r.
  destruct (Hg (f r)) as (-> & -> & -> & ->). apply Hf.
Qed.

Lemma touches_only_extra_ext f g :
  (forall r, f r = g r) -> touches_only_extra g -> touches_only_extra f.
Proof. intros E Hg r. rewrite E. apply Hg. Qed.

Section OnlyExtra.
Variable ignoreSet : JsSet.t.

Lemma detectExtraKeys_touches_only_extra (gt : Json)
    (akvs : list (string * Json)) :
  Forall (fun kv => forall g path,
              touches_only_extra
                (Comparator.detectExtraFields ignoreSet g (snd kv) path))
    akvs ->
  forall path,
    touches_only_extra (Comparator.detectExtraKeys ignoreSet gt akvs path).
Proof.
  induction 1 as [|[k a] l Ha _ IH]; intros path.
  - apply touches_only_extra_id.
  - cbn [Comparator.detectExtraKeys snd] in *.
    destruct (JsSet.has ignoreSet (Comparator.fieldPath path k)
              || JsSet.has ignoreSet k); [apply IH|].
    destruct (get gt k) as [g|].
    + destruct (Comparator.is_object a && Comparator.is_object g);
        [|apply IH].
      apply (touches_only_extra_compose
               (Comparator.detectExtraFields ignoreSet g a _) _);
        [apply Ha | apply IH].
    + apply (touches_only_extra_compose (fun r => push_extra r _) _);
        [apply touches_only_extra_push | apply IH].
Qed.

Lemma detectExtraFields_touches_only_extra (gt actual : Json)
    (path : string) :
  touches_only_extra (Comparator.detectExtraFields ignoreSet gt actual path).
Proof.
  revert gt path.
  induction actual as [| b | m e | s | l IH | kvs IH] using Json_nested_ind;
    intros gt path; try (destruct gt; apply touches_only_extra_id).
  destruct gt as [| | | | |gkvs]; try apply touches_only_extra_id.
  eapply touches_only_extra_ext;
    [intros r; apply detectExtraFields_objects|].
  now apply detectExtraKeys_touches_only_extra.
Qed.

End OnlyExtra.

(** ** Ignored fields *)

Lemma prune_props_cons (ig : JsSet.t) (k : string) (x : Json)
    (r : list (string * Json)) :
  prune_props ig ((k, x) :: r)
  = if JsSet.has ig k then prune_props ig r
    else (k, prune ig x) :: prune_props ig r.
Proof. unfold prune_props. cbn [prune]. now destruct (JsSet.has ig k). Qed.

Lemma prune_object (ig : JsSet.t) (kvs : list (string * Json)) :
  prune ig (JObj kvs) = JObj (prune_props ig kvs).
Proof. reflexivity. Qed.

Lemma is_object_prune (ig : JsSet.t) (v : Json) :
  Comparator.is_object (prune ig v) = Comparator.is_object v.
Proof. now destruct v. Qed.

Section ExtraPaths.
Variable ignoreSet : JsSet.t.

Local Abbreviation pruning_is_silent := (pruning_is_silent ignoreSet).

Lemma extra_paths_push (r r' : ComparisonResult) (p : string) (a a' : Json) :
  extra_paths r = extra_paths r' ->
  extra_paths (push_extra r {| extra_path := p; extra_value := a |})
  = extra_paths (push_extra r' {| extra_path := p; extra_value := a' |}).
Proof.
  unfold extra_paths. cbn [push_extra extra]. rewrite !map_app.
  now intros ->.
Qed.

Lemma detectExtraKeys_prune (gt : Json) (rest : list (string * Json))
    (path : string) :
  Forall (fun kv => pruning_is_silent (snd kv)) rest ->
  forall r r',
    extra_paths r = extra_paths r' ->
    extra_paths (Comparator.detectExtraKeys ignoreSet gt rest path r)
    = extra_paths
        (Comparator.detectExtraKeys ignoreSet gt
           (prune_props ignoreSet rest) path r').
Proof.
  induction 1 as [|[k a] l Ha _ IH]; intros r r' E; [exact E|].
  rewrite prune_props_cons. cbn [Comparator.detectExtraKeys snd] in *.
  destruct (JsSet.has ignoreSet k) eqn:Hk.
  - rewrite orb_true_r. now apply IH.
  - cbn [Comparator.detectExtraKeys]. rewrite Hk, orb_false_r.
    destruct (JsSet.has ignoreSet (Comparator.fieldPath path k));
      [now apply IH|].
    destruct (get gt k) as [g|].
    + rewrite is_object_prune.
      destruct (Comparator.is_object a && Comparator.is_object g);
        [|now apply IH].
      apply IH. now apply Ha.
    + apply IH. now apply extra_paths_push.
Qed.

Lemma detectExtraFields_prune (a : Json) : pruning_is_silent a.
Proof.
  induction a as [| b | m e | s | l IH | kvs IH] using Json_nested_ind;
    intros gt path r r' E; try (destruct gt; exact E).
  rewrite prune_object.
  destruct gt as [| | | | |gkvs]; try exact E.
  rewrite !detectExtraFields_objects. now apply detectExtraKeys_prune.
Qed.

End ExtraPaths.

Lemma dotted_app_dot (p k : string) : dotted (p ++ "." ++ k) = true.
Proof.
  unfold dotted. induction p as [|c p IH]; simpl in *.
  - reflexivity.
  - rewrite IH. apply orb_true_r.
Qed.

Lemma fieldPath_below (path key : string) :
  path <> "" -> Comparator.fieldPath path key = path ++ "." ++ key.
Proof. destruct path; [congruence | reflexivity]. Qed.

Lemma fieldPath_nonempty (path key : string) :
  path <> "" -> Comparator.fieldPath path key <> "".
Proof. destruct path; [congruence | discriminate]. Qed.

Lemma itemPath_nonempty (path : string) (i : nat) :
  Comparator.itemPath path i <> "".
Proof. unfold Comparator.itemPath. destruct path; discriminate. Qed.

Section DottedPaths.
Variable rules : ComparisonRules.
Variables ig ig' : JsSet.t.
Hypothesis agree :
  forall s, dotted s = true -> JsSet.has ig s = JsSet.has ig' s.

Local Abbreviation ignores_alike := (ignores_alike rules ig ig').

Lemma positional_alike (gl : list Json) :
  Forall ignores_alike gl ->
  forall al path i result,
    Comparator.positional rules ig gl al path i result
    = Comparator.positional rules ig' gl al path i result.
Proof.
  induction 1 as [|g gl Hg _ IH]; intros al path i result; [reflexivity|].
  cbn [Comparator.positional]. destruct al as [|a al]; [apply IH|].
  rewrite Hg by apply itemPath_nonempty. apply IH.
Qed.

Lemma compareFields_alike (kvs : list (string * Json)) :
  Forall (fun kv => ignores_alike (snd kv)) kvs ->
  forall actual path result,
    path <> "" ->
    Comparator.compareFields rules ig kvs actual path result
    = Comparator.compareFields rules ig' kvs actual path result.
Proof.
  induction 1 as [|[k v] l Hv _ IH]; intros actual path result Hp;
    [reflexivity|].
  cbn [Comparator.compareFields snd] in *.
  rewrite (agree (Comparator.fieldPath path k))
    by (rewrite fieldPath_below by assumption; apply dotted_app_dot).
  destruct (JsSet.has ig' (Comparator.fieldPath path k)); [now apply IH|].
  destruct (get actual k) as [a|]; [|now apply IH].
  rewrite Hv by now apply fieldPath_nonempty. now apply IH.
Qed.

Lemma compareObject_alike (gt : Json) : ignores_alike gt.
Proof.
  induction gt as [| b | m e | s | l IH | kvs IH] using Json_nested_ind;
    intros actual path result Hp; try reflexivity.
  - destruct actual as [| | | |al|]; try reflexivity.
    rewrite !compareObject_array.
    unfold Comparator.compareObjectArrays, Comparator.compareArrays.
    now rewrite (positional_alike l IH).
  - destruct actual; try reflexivity;
      rewrite !compareObject_object by reflexivity;
      now rewrite (compareFields_alike kvs IH).
Qed.

End DottedPaths.

Lemma bare_key_not_consulted (fs : list string) (k s : string) :
  dotted k = false -> dotted s = true ->
  JsSet.has (JsSet.of_list (k :: fs)) s = JsSet.has (JsSet.of_list fs) s.
Proof.
  intros Hk Hs. rewrite !has_of_list. cbn [existsb].
  destruct (String.eqb s k) eqn:E; [|reflexivity].
  apply String.eqb_eq in E. congruence.
Qed.

Lemma has_of_list_cons (fs : list string) (k s : string) :
  s <> k ->
  JsSet.has (JsSet.of_list (k :: fs)) s = JsSet.has (JsSet.of_list fs) s.
Proof.
  intros Hs. rewrite !has_of_list. cbn [existsb].
  destruct (String.eqb s k) eqn:E; [|reflexivity].
  apply String.eqb_eq in E. congruence.
Qed.

Lemma bare_at_root_cons (k key : string) (x : Json)
    (r : list (string * Json)) :
  bare_at_root k (JObj ((key, x) :: r))
  = String.eqb key k || (String.eqb key "" && bare_at_root k x)
    || bare_at_root k (JObj r).
Proof. reflexivity. Qed.

Section EmptyPath.
Variable rules : ComparisonRules.
Variable fs : list string.
Variable k : string.
Hypothesis bare : dotted k = false.

Local Abbreviation ig := (JsSet.of_list (k :: fs)).
Local Abbreviation ig' := (JsSet.of_list fs).

Lemma below_alike (gt : Json) : ignores_alike rules ig ig' gt.
Proof.
  apply compareObject_alike. intros s Hs. now apply bare_key_not_consulted.
Qed.

Local Abbreviation alike_at_root := (alike_at_root rules fs k).

Lemma compareFields_root_alike (kvs : list (string * Json)) :
  Forall (fun kv => alike_at_root (snd kv)) kvs ->
  bare_at_root k (JObj kvs) = false ->
  forall actual result,
    Comparator.compareFields rules ig kvs actual "" result
    = Comparator.compareFields rules ig' kvs actual "" result.
Proof.
  induction 1 as [|[key v] l Hv _ IH]; intros Hb actual result;
    [reflexivity|].
  rewrite bare_at_root_cons in Hb.
  apply orb_false_iff in Hb. destruct Hb as [Hb Hl].
  apply orb_false_iff in Hb. destruct Hb as [Hk Hv'].
  apply String.eqb_neq in Hk.
  cbn [Comparator.compareFields Comparator.fieldPath snd] in *.
  rewrite (has_of_list_cons fs k key Hk).
  destruct (JsSet.has ig' key); [now apply IH|].
  destruct (get actual key) as [a|]; [|now apply IH].
  destruct (String.eqb key "") eqn:E.
  - apply String.eqb_eq in E. subst key. rewrite (Hv Hv'). now apply IH.
  - apply String.eqb_neq in E. rewrite (below_alike v a key _ E).
    now apply IH.
Qed.

Lemma compareObject_root_alike (gt : Json) : alike_at_root gt.
Proof.
  induction gt as [| b | m e | s | l IH | kvs IH] using Json_nested_ind;
    intros Hb actual result; try reflexivity.
  - destruct actual as [| | | |al|]; try reflexivity.
    rewrite !compareObject_array.
    unfold Comparator.compareObjectArrays, Comparator.compareArrays.
    rewrite (positional_alike rules ig ig' l); [reflexivity|].
    apply Forall_forall. intros x _. apply below_alike.
  - destruct actual; try reflexivity;
      rewrite !compareObject_object by reflexivity;
      now rewrite (compareFields_root_alike kvs IH Hb).
Qed.

End EmptyPath.

(** C10, as the specification words it, fails: nested in the property
    named by the empty string, "id" is still at the empty path; its field
    path is the bare name, and the ignore entry "id" suppresses the report
    that it is missing. *)
Lemma C10_counterexample :
  let gt := JObj [("", JObj [("id", jnum 1)])] in
  let actual := JObj [("", JObj [])] in
  dotted "id" = false
  /\ missing (Comparator.compare gt actual defaultRules)
     = [{| missing_path := "id"; expectedValue := jnum 1 |}]
  /\ missing
       (Comparator.compare gt actual (with_ignore defaultRules ["id"]))
     = []
  /\ passed (Comparator.compare gt actual (with_ignore defaultRules ["id"]))
     = true.
Proof. vm_compute. auto. Qed.

(** C10, amended: a property whose bare name is in the ignore set is
    invisible to the extra-field detection at every depth (the reported
    extra paths are those of the value with such properties removed
    everywhere).  The missing/mismatch traversal looks up field paths
    only: below a non-empty path these are dotted, and adding a bare key
    name (one without a dot) to the ignore set changes nothing of what it
    reports there; [compare] then reports the same mismatches, missing
    fields and warnings, provided no property of that name is met at the
    empty path (in the root object, or in an object reached from it
    through properties named by the empty string), where the field path
    is the bare name. *)
Theorem C10_bare_key_ignore (rules : ComparisonRules) (fs : list string)
    (k : string) (gt actual : Json) (path : string)
    (result : ComparisonResult) :
  dotted k = false ->
  (forall path0,
      map extra_path
        (extra (Comparator.detectExtraFields (JsSet.of_list (k :: fs))
                  gt actual path0 result))
      = map extra_path
          (extra (Comparator.detectExtraFields (JsSet.of_list (k :: fs))
                    gt (prune (JsSet.of_list (k :: fs)) actual) path0
                    result)))
  /\ (forall (a : Json) (rest : list (string * Json)) path0,
         Comparator.detectExtraKeys (JsSet.of_list (k :: fs)) gt
           ((k, a) :: rest) path0 result
         = Comparator.detectExtraKeys (JsSet.of_list (k :: fs)) gt rest
             path0 result)
  /\ (path <> "" ->
      Comparator.compareObject rules (JsSet.of_list (k :: fs)) gt actual path
        result
      = Comparator.compareObject rules (JsSet.of_list fs) gt actual path
          result)
  /\ (bare_at_root k gt = false ->
      mismatches (Comparator.compare gt actual (with_ignore rules (k :: fs)))
      = mismatches (Comparator.compare gt actual (with_ignore rules fs))
      /\ missing (Comparator.compare gt actual (with_ignore rules (k :: fs)))
         = missing (Comparator.compare gt actual (with_ignore rules fs))
      /\ warnings
           (Comparator.compare gt actual (with_ignore rules (k :: fs)))
         = warnings (Comparator.compare gt actual (with_ignore rules fs))).
Proof.
  intros Hk. split; [|split; [|split]].
  - intros path0.
    now apply (detectExtraFields_prune (JsSet.of_list (k :: fs)) actual).
  - intros a rest path0. cbn [Comparator.detectExtraKeys].
    assert (JsSet.has (JsSet.of_list (k :: fs)) k = true) as ->.
    { rewrite has_of_list. cbn [existsb]. now rewrite String.eqb_refl. }
    now rewrite orb_true_r.
  - intros Hp. apply compareObject_alike; [|assumption].
    intros s Hs. now apply bare_key_not_consulted.
  - intros Hb. unfold Comparator.compare.
    cbn [with_ignore ignoreFields set_passed mismatches missing warnings].
    destruct (detectExtraFields_touches_only_extra
                (JsSet.of_list (k :: fs)) gt actual ""
                (Comparator.compareObject (with_ignore rules (k :: fs))
                   (JsSet.of_list (k :: fs)) gt actual ""
                   Comparator.empty_result)) as (_ & -> & -> & ->).
    destruct (detectExtraFields_touches_only_extra
                (JsSet.of_list fs) gt actual ""
                (Comparator.compareObject (with_ignore rules fs)
                   (JsSet.of_list fs) gt actual ""
                   Comparator.empty_result)) as (_ & -> & -> & ->).
    rewrite (compareObject_root_alike (with_ignore rules (k :: fs)) fs k Hk
               gt Hb actual Comparator.empty_result).
    assert (forall ig v a p r,
               Comparator.compareObject (with_ignore rules (k :: fs)) ig
                 v a p r
               = Comparator.compareObject (with_ignore rules fs) ig v a p r)
      as E.
    { intros ig v a p r. revert a p r.
      induction v as [| b | m e | s | l IH | kvs IH] using Json_nested_ind;
        intros a p r; reflexivity. }
    rewrite E. repeat split.
Qed.

Lemma C10_bare_key_ignore_witness :
  (* nested under "item", "id" is still reported missing *)
  missing
    (Comparator.compareObject defaultRules (JsSet.of_list ["id"])
       (JObj [("id", jnum 1)]) (JObj []) "item" Comparator.empty_result)
  = [{| missing_path := "item.id"; expectedValue := jnum 1 |}]
  (* and by [compare] as well *)
  /\ missing
       (Comparator.compare (JObj [("item", JObj [("id", jnum 1)])])
          (JObj [("item", JObj [])]) (with_ignore defaultRules ["id"]))
     = [{| missing_path := "item.id"; expectedValue := jnum 1 |}]
  (* while an extra "id" is not reported at any depth *)
  /\ extra
       (Comparator.compare (JObj [("item", JObj [])])
          (JObj [("item", JObj [("id", jnum 1)]); ("id", jnum 2)])
          (with_ignore defaultRules ["id"]))
     = [].
Proof.
  split; [|split].
  - rewrite (proj1 (proj2 (proj2
               (C10_bare_key_ignore defaultRules [] "id"
                  (JObj [("id", jnum 1)]) (JObj []) "item"
                  Comparator.empty_result eq_refl)))
               ltac:(discriminate)).
    reflexivity.
  - rewrite (proj1 (proj2 (proj2 (proj2 (proj2
               (C10_bare_key_ignore defaultRules [] "id"
                  (JObj [("item", JObj [("id", jnum 1)])])
                  (JObj [("item", JObj [])]) "" Comparator.empty_result
                  eq_refl))) eq_refl))).
    reflexivity.
  - vm_compute. reflexivity.
Defined.

(** ** The scenarios of the specification, on the model *)

Example scenario_equal_objects :
  let c := Comparator.compare (JObj [("x", jnum 1)]) (JObj [("x", jnum 1)])
             defaultRules in
  passed c = true
  /\ Scorer.score c defaultScoring = Scorer.emptyResult.
Proof. vm_compute. auto. Qed.

(** One of two fields missing: the universe is the missing path alone, so
    the completeness is 0 (and the accuracy 100). *)
Example scenario_missing_field :
  let c := Comparator.compare (JObj [("x", jnum 1); ("y", jnum 2)])
             (JObj [("x", jnum 1)]) defaultRules in
  missing c = [{| missing_path := "y"; expectedValue := jnum 2 |}]
  /\ mismatches c = []
  /\ completenessScore (Scorer.score c defaultScoring) == 0
  /\ accuracyScore (Scorer.score c defaultScoring) == 100.
Proof. vm_compute. auto. Qed.

Example scenario_reordered_array :
  Comparator.compare (JObj [("arr", JArr [jnum 1; jnum 2; jnum 3])])
    (JObj [("arr", JArr [jnum 3; jnum 2; jnum 1])]) defaultRules
  = {| passed := true; mismatches := []; missing := []; extra := [];
       warnings :=
         [{| warning_path := "arr";
             message :=
               "Array order differs (unordered comparison enabled)" |}] |}.
Proof. reflexivity. Qed.

Example scenario_numeric_coercion :
  Comparator.compare (JObj [("n", jnum 10)]) (JObj [("n", JStr "10")])
    defaultRules
  = Comparator.empty_result.
Proof. reflexivity. Qed.

Example scenario_extra_only :
  let c := Comparator.compare (JObj []) (JObj [("extra", JBool true)])
             defaultRules in
  extra c = [{| extra_path := "extra"; extra_value := JBool true |}]
  /\ Scorer.score c defaultScoring = Scorer.emptyResult.
Proof. vm_compute. auto. Qed.

(** ** The orchestrator: failure containment *)

Module OrchestratorFacts.
Import TestOrchestrator.

Section Suite.
Variable config : TestSuiteConfig.

Lemma feed_app {A} (m : Async A) (h h' : list response) :
  feed m (h ++ h')
  = match feed m h with
    | Some m' => feed m' h'
    | None => None
    end.
Proof.
  revert m. induction h as [|r h IH]; intros m; [reflexivity|].
  cbn [app feed]. destruct m; [reflexivity | apply IH].
Qed.

(** [runCase] awaits at most three answers, never rejects, and turns the
    first rejection it meets into the caught result. *)
Lemma runCase_feed (tc : TestCase) (hist : list response)
    (t : Async TestCaseResult) :
  feed (runCase tc config) hist = Some t ->
  (List.length hist <= 3)%nat
  /\ (forall rq k, t = Await rq k -> (List.length hist < 3)%nat)
  /\ (forall out, t = Done out ->
      exists result, out = inr result
        /\ caseId result = id tc
        /\ forall e, first_error hist = Some e -> result = caught tc e).
Proof.
  unfold runCase.
  destruct hist as [|[e1|i] [|[e2|g] [|[e3|o] [|r4 hist]]]];
    cbn; intros H; inversion H; subst; clear H;
    (split; [lia|]); (split; [intros rq k E; try discriminate E; lia|]);
    intros out E; inversion E; subst; eexists; (split; [reflexivity|]);
    (split; [reflexivity|]); intros e He; inversion He; reflexivity.
Qed.

Variable cases0 : list TestCase.
Variable maxParallel : Js.number.

Local Abbreviation invariant := (invariant config cases0).

Lemma processNext_invariant (p : Pool) :
  invariant p -> invariant (processNext config maxParallel p).
Proof.
  intros [Hc Hw Hr Hres]. unfold processNext, activeCount.
  destruct (queue p) as [|tc rest] eqn:Hq.
  - destruct (active p) as [|w ws] eqn:Ha; cbn [List.length Nat.eqb].
    + constructor; cbn [queue active timers results settled resolved];
        rewrite ?Hq, ?Ha; try assumption.
      intros rs E. destruct (resolved p) as [r0|] eqn:Hr0.
      * destruct (Hres r0 eq_refl) as (-> & _). inversion E. auto.
      * inversion E. auto.
    + constructor; rewrite ?Hq, ?Ha; assumption.
  - destruct (Js.ltb (Js.of_count (List.length (active p))) maxParallel).
    + constructor; cbn [queue active timers results settled resolved].
      * rewrite map_app. cbn [map start worker_case]. rewrite <- Hc.
        cbn [app]. rewrite <- app_assoc. cbn [app]. symmetry.
        rewrite !app_assoc. apply Permutation_cons_app, Permutation_refl.
      * apply Forall_app. split; [assumption|]. repeat constructor.
      * assumption.
      * intros rs E. destruct (Hres rs E) as (_ & C & _). discriminate C.
    + constructor; rewrite ?Hq; assumption.
Qed.

Lemma initial_batch_invariant (n i : nat) (p : Pool) :
  invariant p -> invariant (initial_batch config maxParallel n i p).
Proof.
  revert i p. induction n as [|n IH]; intros i p Hp; [assumption|].
  cbn [initial_batch].
  destruct (Js.ltb (Js.of_count i) maxParallel); [|assumption].
  destruct (queue p) eqn:Hq; [assumption|].
  apply IH. now apply processNext_invariant.
Qed.

Lemma initial_invariant : invariant (initial config cases0 maxParallel).
Proof.
  unfold initial. apply initial_batch_invariant.
  constructor; cbn [queue active timers results settled resolved map app].
  - rewrite app_nil_r. apply Permutation_refl.
  - constructor.
  - constructor.
  - discriminate.
Qed.

Lemma settle_one {A} (q b a s : list A) (x : A) :
  Permutation (q ++ (b ++ a) ++ s ++ [x]) (q ++ (b ++ x :: a) ++ s).
Proof.
  apply Permutation_app_head.
  transitivity (x :: (b ++ a) ++ s).
  - rewrite app_assoc. symmetry. apply Permutation_cons_append.
  - rewrite <- !app_assoc. cbn [app]. apply Permutation_cons_app.
    apply Permutation_refl.
Qed.

Lemma step_invariant (p p' : Pool) :
  invariant p -> step config maxParallel p p' -> invariant p'.
Proof.
  intros Hp Hstep.
  destruct Hstep as [p before w after rq k r Ha Ht
                    | p before w after outcome Ha Ht
                    | p n Hn].
  - destruct Hp as [Hc Hw Hr Hres]. rewrite Ha in *.
    constructor; cbn [queue active timers results settled resolved].
    + now rewrite map_app in *.
    + apply Forall_app in Hw. destruct Hw as [Hb Hw].
      inversion Hw as [|? ? Hw1 Hw2]; subst.
      apply Forall_app. split; [assumption|]. constructor; [|assumption].
      cbn [worker_case answers task]. rewrite feed_app, Hw1, Ht.
      reflexivity.
    + assumption.
    + intros rs E. destruct (Hres rs E) as (_ & _ & C).
      destruct before; discriminate C.
  - destruct Hp as [Hc Hw Hr Hres]. rewrite Ha in *.
    apply Forall_app in Hw. destruct Hw as [Hb Hw].
    inversion Hw as [|? ? Hw1 Hw2]; subst.
    destruct (runCase_feed _ _ _ Hw1) as (_ & _ & Hout).
    destruct (Hout _ Ht) as (result & -> & _).
    constructor; cbn [queue active timers results settled resolved].
    + rewrite !map_app in *. cbn [map fst] in *. rewrite <- Hc.
      apply settle_one.
    + apply Forall_app. split; assumption.
    + apply Forall2_app; [assumption|]. repeat constructor.
      cbn [fst snd]. now rewrite Hw1, Ht.
    + intros rs E. destruct (Hres rs E) as (_ & _ & C).
      destruct before; discriminate C.
  - apply processNext_invariant. destruct Hp as [Hc Hw Hr Hres].
    constructor; assumption.
Qed.

Lemma reachable_invariant (p : Pool) :
  reachable config cases0 maxParallel p -> invariant p.
Proof.
  induction 1 as [|p p' _ IH Hstep];
    [apply initial_invariant | eapply step_invariant; eassumption].
Qed.

Lemma list_sum_cons (x : nat) (l : list nat) :
  list_sum (x :: l) = (x + list_sum l)%nat.
Proof. reflexivity. Qed.

Lemma step_decreases (p p' : Pool) :
  invariant p -> step config maxParallel p p' ->
  (remaining p' < remaining p)%nat.
Proof.
  intros [Hc Hw Hr Hres] Hstep.
  destruct Hstep as [p before w after rq k r Ha Ht
                    | p before w after outcome Ha Ht
                    | p n Hn]; unfold remaining.
  - rewrite Ha in *. cbn [queue active timers resolved].
    apply Forall_app in Hw. destruct Hw as [_ Hw].
    inversion Hw as [|? ? Hw1 _]; subst.
    destruct (runCase_feed _ _ _ Hw1) as (_ & Hlt & _).
    specialize (Hlt _ _ Ht).
    rewrite !map_app, !list_sum_app. cbn [map].
    rewrite !list_sum_cons. unfold worker_weight. cbn [answers].
    rewrite length_app. cbn [List.length]. lia.
  - rewrite Ha in *. cbn [queue active timers resolved].
    apply Forall_app in Hw. destruct Hw as [_ Hw].
    inversion Hw as [|? ? Hw1 _]; subst.
    destruct (runCase_feed _ _ _ Hw1) as (Hle & _ & _).
    rewrite !map_app, !list_sum_app. cbn [map].
    rewrite !list_sum_cons. unfold worker_weight. lia.
  - unfold processNext, activeCount. cbn [queue active timers resolved].
    rewrite Hn. destruct (queue p) as [|tc rest].
    + destruct (List.length (active p) =? 0)%nat;
        cbn [queue active timers resolved]; destruct (resolved p); lia.
    + destruct (Js.ltb (Js.of_count (List.length (active p))) maxParallel);
        cbn [queue active timers resolved List.length]; [|lia].
      rewrite map_app, list_sum_app. cbn [map].
      rewrite list_sum_cons. cbn. lia.
Qed.

(** *** The cases in flight *)

Lemma ltb_count_mono (a b : nat) :
  (a <= b)%nat ->
  Js.ltb (Js.of_count b) maxParallel = true ->
  Js.ltb (Js.of_count a) maxParallel = true.
Proof.
  intros H. unfold Js.of_count.
  destruct maxParallel as [|y|[|]]; cbn [Js.ltb negb]; trivial.
  intros E. apply negb_true_iff in E. apply negb_true_iff.
  destruct (Qle_bool y (inject_Z (Z.of_nat a))) eqn:Ea; [|reflexivity].
  apply Qle_bool_iff in Ea. rewrite <- E. symmetry. apply Qle_bool_iff.
  eapply Qle_trans; [exact Ea|]. rewrite <- Zle_Qle. lia.
Qed.

Lemma processNext_under_limit (p : Pool) :
  under_limit maxParallel p ->
  under_limit maxParallel (processNext config maxParallel p).
Proof.
  intros H. unfold processNext.
  destruct (queue p) as [|tc rest].
  - destruct (activeCount p =? 0)%nat; exact H.
  - destruct (Js.ltb (Js.of_count (activeCount p)) maxParallel) eqn:E;
      [|exact H].
    right. unfold activeCount in *. cbn [active]. rewrite length_app.
    cbn [List.length].
    replace (List.length (active p) + 1 - 1)%nat
      with (List.length (active p)) by lia.
    exact E.
Qed.

Lemma initial_batch_under_limit (n i : nat) (p : Pool) :
  under_limit maxParallel p ->
  under_limit maxParallel (initial_batch config maxParallel n i p).
Proof.
  revert i p. induction n as [|n IH]; intros i p Hp; [assumption|].
  cbn [initial_batch].
  destruct (Js.ltb (Js.of_count i) maxParallel); [|assumption].
  destruct (queue p); [assumption|].
  apply IH. now apply processNext_under_limit.
Qed.

Lemma under_limit_fewer (p p' : Pool) :
  (activeCount p' <= activeCount p)%nat ->
  under_limit maxParallel p -> under_limit maxParallel p'.
Proof.
  intros Hle [H0|H]; [left; lia|].
  destruct (activeCount p') as [|n'] eqn:E; [now left|]. right.
  apply ltb_count_mono with (b := (activeCount p - 1)%nat); [lia|exact H].
Qed.

Lemma reachable_under_limit (p : Pool) :
  reachable config cases0 maxParallel p -> under_limit maxParallel p.
Proof.
  induction 1 as [|p p' _ IH Hstep].
  - unfold initial. apply initial_batch_under_limit. now left.
  - destruct Hstep as [p before w after rq k r Ha Ht
                      | p before w after outcome Ha Ht
                      | p n Hn].
    + apply under_limit_fewer with (p := p); [|exact IH].
      unfold activeCount. cbn [active]. rewrite Ha, !length_app.
      cbn [List.length]. lia.
    + apply under_limit_fewer with (p := p); [|exact IH].
      unfold activeCount. cbn [active]. rewrite Ha, !length_app.
      cbn [List.length]. lia.
    + apply processNext_under_limit.
      apply under_limit_fewer with (p := p); [|exact IH].
      unfold activeCount. cbn [active]. lia.
Qed.

(** *** The initial loop

    As many turns as there are cases bring the loop to its end: more turns
    change nothing. *)
Lemma initial_batch_ends (n extra i : nat) (p : Pool) :
  (activeCount p <= i)%nat ->
  (List.length (queue p) <= n)%nat ->
  initial_batch config maxParallel (n + extra) i p
  = initial_batch config maxParallel n i p.
Proof.
  revert i p. induction n as [|n IH]; intros i p Hi Hq.
  - destruct (queue p) as [|tc rest] eqn:E; [|cbn in Hq; lia].
    destruct extra as [|extra]; [reflexivity|].
    cbn [Nat.add initial_batch]. rewrite E.
    now destruct (Js.ltb (Js.of_count i) maxParallel).
  - cbn [Nat.add initial_batch].
    destruct (Js.ltb (Js.of_count i) maxParallel) eqn:Ei; [|reflexivity].
    destruct (queue p) as [|tc rest] eqn:E; [reflexivity|].
    apply IH; unfold processNext; rewrite E,
      (ltb_count_mono (activeCount p) i Hi Ei);
      unfold activeCount in *; cbn [active queue].
    + rewrite length_app. cbn [List.length]. lia.
    + cbn [List.length] in Hq. lia.
Qed.

Lemma initial_loop_ends (extra : nat) :
  initial_batch config maxParallel (List.length cases0 + extra) 0
    {| queue := cases0; active := []; timers := 0; results := [];
       settled := []; resolved := None |}
  = initial config cases0 maxParallel.
Proof. unfold initial. now apply initial_batch_ends. Qed.

(** *** Progress *)

Section Live.

Hypothesis some_case : cases0 <> [].
Hypothesis one_slot : Js.ltb (Js.of_count 0) maxParallel = true.

Lemma processNext_live (p : Pool) : live (processNext config maxParallel p).
Proof.
  unfold live, processNext.
  destruct (queue p) as [|tc rest].
  - unfold activeCount. destruct (active p) as [|w ws] eqn:Ha;
      cbn [List.length Nat.eqb resolved active].
    + destruct (resolved p); discriminate.
    + intros _. left. rewrite Ha. discriminate.
  - destruct (Js.ltb (Js.of_count (activeCount p)) maxParallel) eqn:E;
      cbn [resolved active]; intros _; left.
    + destruct (active p); discriminate.
    + unfold activeCount in E. destruct (active p); [|discriminate].
      cbn [List.length] in E. congruence.
Qed.

Lemma initial_batch_live (n i : nat) (p : Pool) :
  live p -> live (initial_batch config maxParallel n i p).
Proof.
  revert i p. induction n as [|n IH]; intros i p Hp; [assumption|].
  cbn [initial_batch].
  destruct (Js.ltb (Js.of_count i) maxParallel); [|assumption].
  destruct (queue p); [assumption|].
  apply IH, processNext_live.
Qed.

Lemma initial_live : live (initial config cases0 maxParallel).
Proof.
  unfold initial. destruct cases0 as [|tc rest]; [congruence|].
  cbn [List.length initial_batch queue]. rewrite one_slot.
  apply initial_batch_live, processNext_live.
Qed.

Lemma reachable_live (p : Pool) :
  reachable config cases0 maxParallel p -> live p.
Proof.
  induction 1 as [|p p' _ IH Hstep]; [apply initial_live|].
  destruct Hstep as [p before w after rq k r Ha Ht
                    | p before w after outcome Ha Ht
                    | p n Hn].
  - intros _. left. cbn [active]. destruct before; discriminate.
  - intros _. right. discriminate.
  - apply processNext_live.
Qed.

End Live.

Lemma progress (p : Pool) :
  live p -> resolved p = None ->
  exists p', step config maxParallel p p'.
Proof.
  intros Hlive Hn. destruct (Hlive Hn) as [Ha | Ht].
  - destruct (active p) as [|w ws] eqn:E; [congruence|].
    destruct (task w) as [outcome | rq k] eqn:Ew.
    + eexists. now apply (step_finish config maxParallel p [] w ws outcome).
    + eexists.
      now apply (step_answer config maxParallel p [] w ws rq k (inl Thrown)).
  - destruct (timers p) as [|n] eqn:E; [congruence|].
    eexists. now apply step_timer with (n := n).
Qed.

End Suite.
End OrchestratorFacts.

Import TestOrchestrator.


(** [runSuite] asks for room for one case in flight, unless the
    configuration names a negative limit. *)
Lemma maxParallel_of_positive (config : TestSuiteConfig) :
  match concurrency_maxParallel config with
  | Some m => Js.ltb m (Js.Fin 0) = false
  | None => True
  end ->
  Js.ltb (Js.of_count 0) (maxParallel_of config) = true.
Proof.
  unfold maxParallel_of, Js.is_zero.
  destruct (concurrency_maxParallel config) as [[|q|[|]]|];
    cbn [Js.ltb negb]; try reflexivity; try discriminate.
  intros H. apply negb_false_iff, Qle_bool_iff in H.
  destruct (Qnum q =? 0)%Z eqn:E; [reflexivity|].
  cbn [Js.of_count Js.ltb]. apply negb_true_iff. apply Z.eqb_neq in E.
  destruct q as [n d]. unfold Qle_bool, Qle in *. cbn in *.
  apply Z.leb_gt. lia.
Qed.

Lemma step_timer_to (config : TestSuiteConfig) (maxParallel : Js.number)
    (p : Pool) (n : nat) (p' : Pool) :
  timers p = S n ->
  p' = processNext config maxParallel
         {| queue := queue p; active := active p; timers := n;
            results := results p; settled := settled p;
            resolved := resolved p |} ->
  step config maxParallel p p'.
Proof. intros Hn ->. now apply step_timer. Qed.

Lemma sample_run :
  reachable sample_config [sample_case] (Js.Fin 1) sample_final.
Proof.
  eapply reachable_step.
  - eapply reachable_step.
    + eapply reachable_step.
      * apply reachable_initial.
      * eapply (step_answer sample_config (Js.Fin 1)
                  (initial sample_config [sample_case] (Js.Fin 1)) []
                  (start sample_config sample_case) []
                  (FetchData (FileSource "input.json") None)
                  _ (inl (Error "Failed to read file: input.json")));
          reflexivity.
    + eapply (step_finish sample_config (Js.Fin 1) _ [] _ []); reflexivity.
  - apply (step_timer_to sample_config (Js.Fin 1) _ 0%nat); reflexivity.
Qed.

(** Two cases in flight together: the first fetch of the one is refused
    while the other is waiting, and the other runs to its end. *)
Lemma sample_pair_run :
  reachable sample_pair_config [sample_case; sample_sibling] (Js.Fin 2)
    sample_pair_final.
Proof.
  eapply reachable_step.
  - eapply reachable_step.
    + eapply reachable_step.
      * eapply reachable_step.
        -- eapply reachable_step.
           ++ eapply reachable_step.
              ** eapply reachable_step.
                 --- eapply reachable_step.
                     +++ apply reachable_initial.
                     +++ eapply (step_answer sample_pair_config (Js.Fin 2)
                                   _ [] _ [_] _ _
                                   (inl (Error
                                     "Failed to read file: input.json")));
                           reflexivity.
                 --- eapply (step_answer sample_pair_config (Js.Fin 2)
                               _ [_] _ [] _ _ (inr (JStr "scan-2")));
                       reflexivity.
              ** eapply (step_finish sample_pair_config (Js.Fin 2)
                           _ [] _ [_]); reflexivity.
           ++ eapply (step_answer sample_pair_config (Js.Fin 2)
                        _ [] _ [] _ _ (inr sample_answer)); reflexivity.
        -- apply (step_timer_to sample_pair_config (Js.Fin 2) _ 0%nat);
             reflexivity.
      * eapply (step_answer sample_pair_config (Js.Fin 2)
                  _ [] _ [] _ _ (inr sample_answer)); reflexivity.
    + eapply (step_finish sample_pair_config (Js.Fin 2) _ [] _ []);
        reflexivity.
  - apply (step_timer_to sample_pair_config (Js.Fin 2) _ 0%nat);
      reflexivity.
Qed.


(** With no case at all the initial loop of [runCasesWithConcurrency]
    calls [processNext] not once: the pool stays as it starts, unresolved,
    and no step is possible. *)
Remark empty_suite_stays_unresolved (config : TestSuiteConfig)
    (maxParallel : Js.number) (p : Pool) :
  resolved (initial config [] maxParallel) = None
  /\ ~ step config maxParallel (initial config [] maxParallel) p.
Proof.
  split; [reflexivity|].
  intros H. inversion H as [? before ? ? ? ? ? Ha | ? before ? ? ? Ha | ? ? Hn];
    subst; cbn in *; try discriminate; destruct before; discriminate.
Qed.

(** * Further properties *)

(** ** The traversals only append *)

Lemma extend_empty ms xs es ws :
  extend Comparator.empty_result ms xs es ws
  = {| passed := true; mismatches := ms; missing := xs; extra := es;
       warnings := ws |}.
Proof. reflexivity. Qed.

Lemma appends_id : appends (fun r => r).
Proof. intros r. cbn. symmetry. apply extend_nil. Qed.

Lemma appends_extend ms xs es ws : appends (fun r => extend r ms xs es ws).
Proof. intros r. reflexivity. Qed.

Lemma appends_compose (f g : ComparisonResult -> ComparisonResult) :
  appends f -> appends g -> appends (fun r => g (f r)).
Proof.
  intros Hf Hg r. rewrite (Hg (f r)), (Hf r), extend_extend.
  rewrite (Hg (f Comparator.empty_result)), (Hf Comparator.empty_result).
  reflexivity.
Qed.

Lemma appends_ext (f g : ComparisonResult -> ComparisonResult) :
  (forall r, f r = g r) -> appends g -> appends f.
Proof. intros E Hg r. rewrite !E. apply Hg. Qed.

Lemma appends_push_mismatch m : appends (fun r => push_mismatch r m).
Proof.
  apply (appends_ext _ (fun r => extend r [m] [] [] []));
    [intros r; apply push_mismatch_extend | apply appends_extend].
Qed.

Lemma appends_push_missing m : appends (fun r => push_missing r m).
Proof.
  apply (appends_ext _ (fun r => extend r [] [m] [] []));
    [intros r; apply push_missing_extend | apply appends_extend].
Qed.

Lemma appends_push_extra e : appends (fun r => push_extra r e).
Proof.
  apply (appends_ext _ (fun r => extend r [] [] [e] []));
    [intros r; apply push_extra_extend | apply appends_extend].
Qed.

Lemma appends_if (b : bool) (f g : ComparisonResult -> ComparisonResult) :
  appends f -> appends g -> appends (fun r => if b then f r else g r).
Proof. now destruct b. Qed.

Lemma appends_comparePrimitives gt actual path rules :
  appends (fun r => Comparator.comparePrimitives gt actual path r rules).
Proof.
  unfold Comparator.comparePrimitives.
  repeat first [ apply appends_if
               | apply appends_id
               | apply appends_push_mismatch ].
Qed.

Lemma appends_extra_items al path i :
  appends (Comparator.extra_items al path i).
Proof.
  revert i. induction al as [|a al IH]; intros i; [apply appends_id|].
  cbn [Comparator.extra_items].
  apply (appends_compose (fun r => push_extra r _) _);
    [apply appends_push_extra | apply IH].
Qed.

Lemma appends_compareUnordered gt actual path :
  appends (Comparator.compareUnordered gt actual path).
Proof.
  eapply appends_ext; [intros r; apply compareUnordered_extend|].
  apply appends_extend.
Qed.

Section Appends.
Variable rules : ComparisonRules.
Variable ignoreSet : JsSet.t.

Lemma appends_positional (gl : list Json) :
  Forall (fun g => forall a path,
              appends (Comparator.compareObject rules ignoreSet g a path))
    gl ->
  forall al path i,
    appends (Comparator.positional rules ignoreSet gl al path i).
Proof.
  induction 1 as [|g gl Hg _ IH]; intros al path i.
  - apply appends_extra_items.
  - cbn [Comparator.positional]. destruct al as [|a al].
    + apply (appends_compose (fun r => push_missing r _) _);
        [apply appends_push_missing | apply IH].
    + apply (appends_compose
               (Comparator.compareObject rules ignoreSet g a _) _);
        [apply Hg | apply IH].
Qed.

Lemma appends_compareFields (kvs : list (string * Json)) :
  Forall (fun kv => forall a path,
              appends (Comparator.compareObject rules ignoreSet (snd kv) a
                         path)) kvs ->
  forall actual path,
    appends (Comparator.compareFields rules ignoreSet kvs actual path).
Proof.
  induction 1 as [|[k v] l Hv _ IH]; intros actual path.
  - apply appends_id.
  - cbn [Comparator.compareFields snd] in *.
    destruct (JsSet.has ignoreSet (Comparator.fieldPath path k));
      [apply IH|].
    destruct (get actual k) as [a|].
    + apply (appends_compose
               (Comparator.compareObject rules ignoreSet v a _) _);
        [apply Hv | apply IH].
    + apply (appends_compose (fun r => push_missing r _) _);
        [apply appends_push_missing | apply IH].
Qed.

Lemma appends_compareObject (gt actual : Json) (path : string) :
  appends (Comparator.compareObject rules ignoreSet gt actual path).
Proof.
  revert actual path.
  induction gt as [| b | m e | s | l IH | kvs IH] using Json_nested_ind;
    intros actual path.
  - destruct actual;
      first [apply appends_id | apply appends_push_mismatch].
  - destruct actual;
      first [apply appends_push_mismatch
            | apply (appends_comparePrimitives (JBool b))].
  - destruct actual;
      first [apply appends_push_mismatch
            | apply (appends_comparePrimitives (JNum m e))].
  - destruct actual;
      first [apply appends_push_mismatch
            | apply (appends_comparePrimitives (JStr s))].
  - destruct actual as [| | | |al|]; try apply appends_push_mismatch.
    eapply appends_ext; [intros r; apply compareObject_array|].
    unfold Comparator.compareObjectArrays, Comparator.compareArrays.
    repeat apply appends_if; try apply appends_id;
      try (now apply appends_positional).
    destruct (arrayStrategy rules);
      [now apply appends_positional | apply appends_compareUnordered].
  - destruct actual; try apply appends_push_mismatch;
      (eapply appends_ext;
       [intros r; apply compareObject_object; reflexivity|]);
      apply appends_if; try apply appends_push_mismatch;
      now apply appends_compareFields.
Qed.

Lemma appends_detectExtraKeys (gt : Json) (akvs : list (string * Json)) :
  Forall (fun kv => forall g path,
              appends (Comparator.detectExtraFields ignoreSet g (snd kv)
                         path)) akvs ->
  forall path, appends (Comparator.detectExtraKeys ignoreSet gt akvs path).
Proof.
  induction 1 as [|[k a] l Ha _ IH]; intros path.
  - apply appends_id.
  - cbn [Comparator.detectExtraKeys snd] in *.
    destruct (JsSet.has ignoreSet (Comparator.fieldPath path k)
              || JsSet.has ignoreSet k); [apply IH|].
    destruct (get gt k) as [g|].
    + destruct (Comparator.is_object a && Comparator.is_object g);
        [|apply IH].
      apply (appends_compose
               (Comparator.detectExtraFields ignoreSet g a _) _);
        [apply Ha | apply IH].
    + apply (appends_compose (fun r => push_extra r _) _);
        [apply appends_push_extra | apply IH].
Qed.

Lemma appends_detectExtraFields (gt actual : Json) (path : string) :
  appends (Comparator.detectExtraFields ignoreSet gt actual path).
Proof.
  revert gt path.
  induction actual as [| b | m e | s | l IH | kvs IH] using Json_nested_ind;
    intros gt path; try (destruct gt; apply appends_id).
  destruct gt as [| | | | |gkvs]; try apply appends_id.
  eapply appends_ext; [intros r; apply detectExtraFields_objects|].
  now apply appends_detectExtraKeys.
Qed.

End Appends.

(** X1.  [compareObject] only appends: what it pushes on the four lists
    does not depend on the result it is handed, the entries already there
    stay in front, and [passed] is not touched. *)
Theorem compareObject_only_appends (rules : ComparisonRules)
    (ignoreSet : JsSet.t) (gt actual : Json) (path : string)
    (result : ComparisonResult) :
  Comparator.compareObject rules ignoreSet gt actual path result
  = extend result
      (mismatches (Comparator.compareObject rules ignoreSet gt actual path
                     Comparator.empty_result))
      (missing (Comparator.compareObject rules ignoreSet gt actual path
                  Comparator.empty_result))
      (extra (Comparator.compareObject rules ignoreSet gt actual path
                Comparator.empty_result))
      (warnings (Comparator.compareObject rules ignoreSet gt actual path
                   Comparator.empty_result))
  /\ passed (Comparator.compareObject rules ignoreSet gt actual path result)
     = passed result.
Proof.
  pose proof (appends_compareObject rules ignoreSet gt actual path result)
    as H.
  split; [exact H | now rewrite H].
Qed.

Lemma compare_lists (gt actual : Json) (rules : ComparisonRules) :
  let ignoreSet := JsSet.of_list (ignoreFields rules) in
  let c := Comparator.compareObject rules ignoreSet gt actual ""
             Comparator.empty_result in
  let d := Comparator.detectExtraFields ignoreSet gt actual ""
             Comparator.empty_result in
  mismatches d = [] /\ missing d = [] /\ warnings d = []
  /\ mismatches (Comparator.compare gt actual rules) = mismatches c
  /\ missing (Comparator.compare gt actual rules) = missing c
  /\ warnings (Comparator.compare gt actual rules) = warnings c
  /\ extra (Comparator.compare gt actual rules) = (extra c ++ extra d)%list.
Proof.
  intros ignoreSet c d.
  destruct (detectExtraFields_touches_only_extra ignoreSet gt actual ""
              Comparator.empty_result) as (_ & Hm & Hx & Hw).
  destruct (detectExtraFields_touches_only_extra ignoreSet gt actual "" c)
    as (_ & Hm' & Hx' & Hw').
  repeat split; try assumption.
  unfold Comparator.compare. cbn [set_passed extra]. fold ignoreSet c.
  now rewrite (appends_detectExtraFields ignoreSet gt actual "" c).
Qed.

(** X2.  The extra-field traversal reports extras and nothing else, so the
    mismatches, missing fields and warnings of [compare] are those of
    [compareObject] alone, and its extras are those of [compareObject]
    (array items beyond the ground truth) followed by those of
    [detectExtraFields]. *)
Theorem compare_is_two_traversals (gt actual : Json)
    (rules : ComparisonRules) :
  let ignoreSet := JsSet.of_list (ignoreFields rules) in
  let c := Comparator.compareObject rules ignoreSet gt actual ""
             Comparator.empty_result in
  let d := Comparator.detectExtraFields ignoreSet gt actual ""
             Comparator.empty_result in
  mismatches d = [] /\ missing d = [] /\ warnings d = []
  /\ mismatches (Comparator.compare gt actual rules) = mismatches c
  /\ missing (Comparator.compare gt actual rules) = missing c
  /\ warnings (Comparator.compare gt actual rules) = warnings c
  /\ extra (Comparator.compare gt actual rules) = (extra c ++ extra d)%list.
Proof. exact (compare_lists gt actual rules). Qed.

(** ** Arrays compared by position *)

Lemma extra_items_overflow (more : list Json) (path : string) (i : nat)
    (r : ComparisonResult) :
  Comparator.extra_items more path i r
  = extend r [] [] (overflow_extra path i more) [].
Proof.
  revert i r. induction more as [|a more IH]; intros i r.
  - symmetry. apply extend_nil.
  - cbn [Comparator.extra_items overflow_extra].
    now rewrite IH, push_extra_extend, extend_extend.
Qed.

Lemma positional_no_actual (rules : ComparisonRules) (ignoreSet : JsSet.t)
    (more : list Json) (path : string) (i : nat) (r : ComparisonResult) :
  Comparator.positional rules ignoreSet more [] path i r
  = extend r [] (overflow_missing path i more) [] [].
Proof.
  revert i r. induction more as [|g more IH]; intros i r.
  - symmetry. apply extend_nil.
  - cbn [Comparator.positional overflow_missing].
    now rewrite IH, push_missing_extend, extend_extend.
Qed.

Lemma positional_overflow_at (rules : ComparisonRules)
    (ignoreSet : JsSet.t) (gt actual more : list Json) (path : string)
    (i : nat) (result : ComparisonResult) :
  List.length gt = List.length actual ->
  Comparator.positional rules ignoreSet gt (actual ++ more) path i result
  = extend (Comparator.positional rules ignoreSet gt actual path i result)
      [] [] (overflow_extra path (i + List.length gt) more) []
  /\ Comparator.positional rules ignoreSet (gt ++ more) actual path i result
     = extend (Comparator.positional rules ignoreSet gt actual path i result)
         [] (overflow_missing path (i + List.length gt) more) [] [].
Proof.
  revert actual i result.
  induction gt as [|g gt IH]; intros [|a actual] i result Hlen;
    try discriminate Hlen.
  - cbn [app Comparator.positional List.length]. rewrite Nat.add_0_r.
    split; [apply extra_items_overflow | ].
    destruct more as [|m more]; [symmetry; apply extend_nil|].
    apply (positional_no_actual rules ignoreSet (m :: more)).
  - cbn [app Comparator.positional List.length].
    injection Hlen as Hlen.
    rewrite <- Nat.add_succ_comm. now apply IH.
Qed.

(** X3.  In the index-by-index comparison the items of the longer array
    that lie beyond the shorter one are reported one by one at [path[i]]:
    as extra when the actual array is the longer, as missing when the
    ground truth is; the common part is compared as if alone. *)
Theorem positional_overflow (rules : ComparisonRules) (ignoreSet : JsSet.t)
    (gt actual more : list Json) (path : string)
    (result : ComparisonResult) :
  List.length gt = List.length actual ->
  Comparator.compareObjectArrays rules ignoreSet gt (actual ++ more) path
    result
  = extend
      (Comparator.compareObjectArrays rules ignoreSet gt actual path result)
      [] [] (overflow_extra path (List.length gt) more) []
  /\ Comparator.compareObjectArrays rules ignoreSet (gt ++ more) actual path
       result
     = extend
         (Comparator.compareObjectArrays rules ignoreSet gt actual path
            result)
         [] (overflow_missing path (List.length gt) more) [] [].
Proof.
  unfold Comparator.compareObjectArrays. intros Hlen.
  apply (positional_overflow_at rules ignoreSet gt actual more path 0
           result Hlen).
Qed.

Lemma positional_overflow_witness :
  extra
    (Comparator.compareObjectArrays defaultRules []
       [JObj [("id", jnum 1)]]
       [JObj [("id", jnum 1)]; JObj [("id", jnum 2)]]
       "rows" Comparator.empty_result)
  = [{| extra_path := "rows[1]"; extra_value := JObj [("id", jnum 2)] |}].
Proof.
  refine (eq_trans
            (f_equal extra
               (proj1 (positional_overflow defaultRules []
                         [JObj [("id", jnum 1)]] [JObj [("id", jnum 1)]]
                         [JObj [("id", jnum 2)]] "rows"
                         Comparator.empty_result eq_refl))) _).
  reflexivity.
Defined.

(** ** Fields of objects *)

Section Fields.
Variable rules : ComparisonRules.
Variable ignoreSet : JsSet.t.

Lemma compareFields_app (l1 l2 : list (string * Json)) (actual : Json)
    (path : string) (r : ComparisonResult) :
  Comparator.compareFields rules ignoreSet (l1 ++ l2) actual path r
  = Comparator.compareFields rules ignoreSet l2 actual path
      (Comparator.compareFields rules ignoreSet l1 actual path r).
Proof.
  revert r. induction l1 as [|[k v] l1 IH]; intros r; [reflexivity|].
  cbn [app Comparator.compareFields].
  destruct (JsSet.has ignoreSet (Comparator.fieldPath path k));
    [apply IH|].
  destruct (get actual k); apply IH.
Qed.

Lemma compareFields_appends (kvs : list (string * Json)) (actual : Json)
    (path : string) :
  appends (Comparator.compareFields rules ignoreSet kvs actual path).
Proof.
  apply appends_compareFields. apply Forall_forall.
  intros kv _ a p. apply appends_compareObject.
Qed.

Lemma compareFields_ignored (kvs : list (string * Json)) (actual : Json)
    (path : string) (r : ComparisonResult) :
  Comparator.compareFields rules ignoreSet kvs actual path r
  = Comparator.compareFields rules ignoreSet
      (filter (fun kv =>
                 negb (JsSet.has ignoreSet
                         (Comparator.fieldPath path (fst kv)))) kvs)
      actual path r.
Proof.
  revert r. induction kvs as [|[k v] l IH]; intros r; [reflexivity|].
  cbn [filter fst Comparator.compareFields].
  destruct (JsSet.has ignoreSet (Comparator.fieldPath path k)) eqn:E;
    cbn [negb]; [apply IH|].
  cbn [Comparator.compareFields]. rewrite E.
  destruct (get actual k); apply IH.
Qed.

Lemma detectExtraKeys_app (gt : Json) (l1 l2 : list (string * Json))
    (path : string) (r : ComparisonResult) :
  Comparator.detectExtraKeys ignoreSet gt (l1 ++ l2) path r
  = Comparator.detectExtraKeys ignoreSet gt l2 path
      (Comparator.detectExtraKeys ignoreSet gt l1 path r).
Proof.
  revert r. induction l1 as [|[k a] l1 IH]; intros r; [reflexivity|].
  cbn [app Comparator.detectExtraKeys].
  destruct (JsSet.has ignoreSet (Comparator.fieldPath path k)
            || JsSet.has ignoreSet k); [apply IH|].
  destruct (get gt k) as [g|]; [|apply IH].
  destruct (Comparator.is_object a && Comparator.is_object g); apply IH.
Qed.

Lemma detectExtraKeys_appends (gt : Json) (akvs : list (string * Json))
    (path : string) :
  appends (Comparator.detectExtraKeys ignoreSet gt akvs path).
Proof.
  apply appends_detectExtraKeys. apply Forall_forall.
  intros kv _ g p. apply appends_detectExtraFields.
Qed.

End Fields.

(** X4.  A field of the ground truth whose path is in the ignore set is
    invisible to the missing/mismatch traversal: against an actual object
    or array, the result is that for the ground truth without its ignored
    fields. *)
Theorem ignored_fields_are_invisible (rules : ComparisonRules)
    (ignoreSet : JsSet.t) (kvs : list (string * Json)) (actual : Json)
    (path : string) (result : ComparisonResult) :
  Comparator.is_object actual = true ->
  Js.isNull actual = false ->
  Comparator.compareObject rules ignoreSet (JObj kvs) actual path result
  = Comparator.compareObject rules ignoreSet
      (JObj (filter (fun kv =>
                       negb (JsSet.has ignoreSet
                               (Comparator.fieldPath path (fst kv)))) kvs))
      actual path result.
Proof.
  intros Ho Hn. rewrite !compareObject_object by assumption.
  rewrite Ho. cbn [negb]. apply compareFields_ignored.
Qed.

Lemma ignored_fields_are_invisible_witness :
  Comparator.compareObject defaultRules ["meta.ts"]
    (JObj [("ts", jnum 1); ("id", jnum 2)])
    (JObj [("ts", jnum 9); ("id", jnum 2)]) "meta" Comparator.empty_result
  = Comparator.empty_result.
Proof.
  rewrite (ignored_fields_are_invisible defaultRules ["meta.ts"]
             [("ts", jnum 1); ("id", jnum 2)]
             (JObj [("ts", jnum 9); ("id", jnum 2)]) "meta"
             Comparator.empty_result eq_refl eq_refl).
  reflexivity.
Defined.

Lemma appends_keeps_missing f r m :
  appends f -> In m (missing r) -> In m (missing (f r)).
Proof.
  intros Hf Hin. rewrite (Hf r). cbn [extend missing].
  apply in_or_app. now left.
Qed.

Lemma appends_keeps_extra f r e :
  appends f -> In e (extra r) -> In e (extra (f r)).
Proof.
  intros Hf Hin. rewrite (Hf r). cbn [extend extra].
  apply in_or_app. now left.
Qed.

Lemma nonempty_length {A} (l : list A) (x : A) :
  In x l -> (List.length l =? 0)%nat = false.
Proof. destruct l; [contradiction | reflexivity]. Qed.

(** X5.  A field of a ground-truth object that is not ignored and that the
    actual object (or array) does not have, neither as a property of its
    own nor as a name inherited from its prototype, is reported missing,
    at its field path and with its expected value, whatever else is
    reported; at the root this makes the comparison fail. *)
Theorem absent_field_is_reported_missing (rules : ComparisonRules)
    (ignoreSet : JsSet.t) (kvs : list (string * Json)) (actual : Json)
    (path key : string) (v : Json) (result : ComparisonResult) :
  In (key, v) kvs ->
  JsSet.has ignoreSet (Comparator.fieldPath path key) = false ->
  Comparator.is_object actual = true ->
  Js.isNull actual = false ->
  get actual key = None ->
  inherited actual key = false ->
  In {| missing_path := Comparator.fieldPath path key; expectedValue := v |}
    (missing (Comparator.compareObject rules ignoreSet (JObj kvs) actual
                path result))
  /\ (ignoreSet = JsSet.of_list (ignoreFields rules) -> path = "" ->
      passed (Comparator.compare (JObj kvs) actual rules) = false).
Proof.
  intros Hin Hig Ho Hn Hget _.
  assert (forall r,
             In {| missing_path := Comparator.fieldPath path key;
                   expectedValue := v |}
               (missing (Comparator.compareObject rules ignoreSet (JObj kvs)
                           actual path r))) as Hall.
  { intros r. rewrite compareObject_object by assumption.
    rewrite Ho. cbn [negb].
    destruct (in_split _ _ Hin) as (l1 & l2 & ->).
    rewrite compareFields_app. cbn [Comparator.compareFields].
    rewrite Hig, Hget.
    apply appends_keeps_missing; [apply compareFields_appends|].
    cbn [push_missing missing]. apply in_or_app. right. now left. }
  split; [apply Hall|].
  intros -> ->. rewrite passed_compare.
  destruct (compare_lists (JObj kvs) actual rules)
    as (_ & _ & _ & _ & -> & _).
  rewrite (nonempty_length _ _ (Hall Comparator.empty_result)).
  now rewrite andb_false_r.
Qed.

Lemma absent_field_is_reported_missing_witness :
  passed (Comparator.compare (JObj [("x", jnum 1); ("y", jnum 2)])
            (JObj [("x", jnum 1)]) defaultRules) = false.
Proof.
  apply (proj2 (absent_field_is_reported_missing defaultRules
                  (JsSet.of_list (ignoreFields defaultRules))
                  [("x", jnum 1); ("y", jnum 2)] (JObj [("x", jnum 1)])
                  "" "y" (jnum 2) Comparator.empty_result
                  (or_intror (or_introl eq_refl))
                  eq_refl eq_refl eq_refl eq_refl eq_refl));
    reflexivity.
Defined.

(** X6.  A property of an actual object that the ground-truth object does
    not have, neither as a property of its own nor as a name inherited
    from its prototype, and that is ignored neither by its path nor by its
    bare name, is reported extra, at its field path and with its value; at
    the root this makes the comparison fail when [extraFieldsWarning] is
    set. *)
Theorem unexpected_field_is_reported_extra (rules : ComparisonRules)
    (ignoreSet : JsSet.t) (gkvs akvs : list (string * Json))
    (path key : string) (a : Json) (result : ComparisonResult) :
  In (key, a) akvs ->
  JsSet.has ignoreSet (Comparator.fieldPath path key) = false ->
  JsSet.has ignoreSet key = false ->
  get (JObj gkvs) key = None ->
  inherited (JObj gkvs) key = false ->
  In {| extra_path := Comparator.fieldPath path key; extra_value := a |}
    (extra (Comparator.detectExtraFields ignoreSet (JObj gkvs) (JObj akvs)
              path result))
  /\ (ignoreSet = JsSet.of_list (ignoreFields rules) -> path = "" ->
      extraFieldsWarning rules = true ->
      passed (Comparator.compare (JObj gkvs) (JObj akvs) rules) = false).
Proof.
  intros Hin Hig Hk Hget _.
  assert (forall r,
             In {| extra_path := Comparator.fieldPath path key;
                   extra_value := a |}
               (extra (Comparator.detectExtraFields ignoreSet (JObj gkvs)
                         (JObj akvs) path r))) as Hall.
  { intros r. rewrite detectExtraFields_objects.
    destruct (in_split _ _ Hin) as (l1 & l2 & ->).
    rewrite detectExtraKeys_app. cbn [Comparator.detectExtraKeys].
    rewrite Hig, Hk, Hget. cbn [orb].
    apply appends_keeps_extra; [apply detectExtraKeys_appends|].
    cbn [push_extra extra]. apply in_or_app. right. now left. }
  split; [apply Hall|].
  intros -> -> Hw. rewrite passed_compare, Hw. cbn [negb].
  destruct (compare_lists (JObj gkvs) (JObj akvs) rules)
    as (_ & _ & _ & _ & _ & _ & ->).
  assert (In {| extra_path := Comparator.fieldPath "" key;
                extra_value := a |}
            (extra (Comparator.compareObject rules
                      (JsSet.of_list (ignoreFields rules)) (JObj gkvs)
                      (JObj akvs) "" Comparator.empty_result)
             ++ extra (Comparator.detectExtraFields
                         (JsSet.of_list (ignoreFields rules)) (JObj gkvs)
                         (JObj akvs) "" Comparator.empty_result))%list)
    as Hin' by (apply in_or_app; right; apply Hall).
  rewrite (nonempty_length _ _ Hin'). now rewrite !andb_false_r.
Qed.

Lemma unexpected_field_is_reported_extra_witness :
  passed (Comparator.compare (JObj [("x", jnum 1)])
            (JObj [("x", jnum 1); ("debug", JBool true)]) defaultRules)
  = false.
Proof.
  apply (proj2 (unexpected_field_is_reported_extra defaultRules
                  (JsSet.of_list (ignoreFields defaultRules))
                  [("x", jnum 1)] [("x", jnum 1); ("debug", JBool true)]
                  "" "debug" (JBool true) Comparator.empty_result
                  (or_intror (or_introl eq_refl))
                  eq_refl eq_refl eq_refl eq_refl));
    reflexivity.
Defined.

(** ** Unordered arrays, both ways round *)

(** X7.  Swapping the two arrays of an unordered comparison swaps the
    roles: the items reported missing one way round are the items reported
    extra the other way round, and the order warning is given either both
    ways or neither. *)
Theorem unordered_swap (rules : ComparisonRules) (ignoreSet : JsSet.t)
    (gt actual : list Json) (path : string) :
  arrayStrategy rules = unordered ->
  map expectedValue
    (missing (Comparator.compareArrays rules ignoreSet gt actual path
                Comparator.empty_result))
  = map extra_value
      (extra (Comparator.compareArrays rules ignoreSet actual gt path
                Comparator.empty_result))
  /\ map extra_value
       (extra (Comparator.compareArrays rules ignoreSet gt actual path
                 Comparator.empty_result))
     = map expectedValue
         (missing (Comparator.compareArrays rules ignoreSet actual gt path
                     Comparator.empty_result))
  /\ warnings (Comparator.compareArrays rules ignoreSet gt actual path
                 Comparator.empty_result)
     = warnings (Comparator.compareArrays rules ignoreSet actual gt path
                   Comparator.empty_result).
Proof.
  intros Hs. unfold Comparator.compareArrays. rewrite Hs.
  rewrite !compareUnordered_extend.
  cbn [extend missing extra warnings Comparator.empty_result app].
  rewrite !map_map. cbn [expectedValue extra_value].
  repeat split.
  rewrite (Nat.eqb_sym (List.length actual)).
  now rewrite (String.eqb_sym (Js.JSON_stringify (JArr actual))).
Qed.

Lemma unordered_swap_witness :
  map expectedValue
    (missing (Comparator.compareArrays defaultRules []
                [jnum 1; jnum 2] [jnum 2; jnum 3] "a"
                Comparator.empty_result))
  = [jnum 1].
Proof.
  rewrite (proj1 (unordered_swap defaultRules [] [jnum 1; jnum 2]
                    [jnum 2; jnum 3] "a" eq_refl)).
  reflexivity.
Defined.

(** ** Numbers *)

(** X8.  Two JSON numbers match exactly when the absolute value of the
    binary64 difference of their values is at most the tolerance, the
    bound included, with or without type coercion; otherwise a single
    mismatch of kind numeric is reported.  The verdict does not depend on
    which of the two is the ground truth; two numbers of one finite value
    match under any tolerance that is not negative; and a number beyond
    the range of binary64 matches nothing under a finite tolerance. *)
Theorem numbers_within_tolerance (m e m' e' : Z) (path : string)
    (result : ComparisonResult) (rules : ComparisonRules) :
  let a := Js.Number_ (JNum m e) in
  let b := Js.Number_ (JNum m' e') in
  let mismatch :=
    push_mismatch result
      {| mismatch_path := path; mismatch_groundTruth := JNum m e;
         mismatch_actual := JNum m' e';
         mismatch_type := numeric_mismatch |} in
  Comparator.comparePrimitives (JNum m e) (JNum m' e') path result rules
  = (if Js.leb (Js.abs (Js.sub a b)) (Js.fl (numericTolerance rules))
     then result else mismatch)
  /\ (Comparator.comparePrimitives (JNum m e) (JNum m' e') path result rules
      = result
      <-> Comparator.comparePrimitives (JNum m' e') (JNum m e) path result
            rules
          = result)
  /\ (0 <= numericTolerance rules ->
      Js.isFinite a = true ->
      Js.eqb a b = true ->
      Comparator.comparePrimitives (JNum m e) (JNum m' e') path result rules
      = result)
  /\ (Js.isFinite a = false ->
      Js.isFinite (Js.fl (numericTolerance rules)) = true ->
      Comparator.comparePrimitives (JNum m e) (JNum m' e') path result rules
      = mismatch).
Proof.
  assert (forall a b c d,
             Comparator.comparePrimitives (JNum a b) (JNum c d) path result
               rules
             = if Js.within (Js.Number_ (JNum a b)) (Js.Number_ (JNum c d))
                    (numericTolerance rules)
               then result
               else push_mismatch result
                      {| mismatch_path := path;
                         mismatch_groundTruth := JNum a b;
                         mismatch_actual := JNum c d;
                         mismatch_type := numeric_mismatch |}) as E.
  { intros a b c d. unfold Comparator.comparePrimitives.
    cbn [Js.typeof Js.type_tag_eqb negb andb Comparator.is_number].
    now rewrite andb_false_r. }
  assert (forall r m0, push_mismatch r m0 <> r) as Hne.
  { intros r m0 H. apply (f_equal (fun x => List.length (mismatches x))) in H.
    cbn [push_mismatch mismatches] in H. rewrite length_app in H.
    cbn in H. lia. }
  cbv zeta. rewrite !E. split; [reflexivity|]. split; [|split].
  - rewrite (within_sym (Js.Number_ (JNum m' e'))).
    destruct (Js.within _ _ _); split; intros H;
      first [reflexivity | now apply Hne in H].
  - intros Htol Hfin Heq. unfold Js.within.
    destruct (Js.Number_ (JNum m e)) as [|x|]; try discriminate.
    destruct (Js.Number_ (JNum m' e')) as [|y|]; try discriminate.
    cbn [Js.eqb] in Heq. apply Qeq_bool_iff in Heq.
    cbn [Js.sub Js.negate Js.add].
    rewrite (fl_zero (x + - y)) by (rewrite Heq; ring).
    change (Js.abs (Js.Fin 0)) with (Js.Fin 0).
    now rewrite fl_nonneg.
  - intros Hinf Htol. unfold Js.within.
    pose proof (fl_not_NaN (Js.dec_value m e)) as Na.
    pose proof (fl_not_NaN (Js.dec_value m' e')) as Nb.
    cbn [Js.Number_] in *.
    destruct (Js.fl (Js.dec_value m e)) as [|x|s]; try discriminate.
    destruct (Js.fl (numericTolerance rules)) as [|t|]; try discriminate.
    destruct (Js.fl (Js.dec_value m' e')) as [|y|s']; try discriminate.
    + reflexivity.
    + now destruct s, s'.
Qed.

Lemma numbers_within_tolerance_witness :
  Comparator.comparePrimitives (JNum 10 (-1)) (JNum 1 0) "total"
    Comparator.empty_result defaultRules
  = Comparator.empty_result.
Proof.
  apply (proj1 (proj2 (proj2
           (numbers_within_tolerance 10 (-1) 1 0 "total"
              Comparator.empty_result defaultRules)))).
  - apply Qle_refl.
  - reflexivity.
  - vm_compute. reflexivity.
Defined.

(** The difference is the binary64 one: 1.1 and 1.0 differ by
    0.10000000000000009 and do not match within 0.1; 9007199254740993 has
    the value of 9007199254740992 and matches it exactly. *)
Example binary64_differences :
  Js.Number_toString (Js.sub (Js.Number_ (JNum 11 (-1))) (Js.Number_ (jnum 1)))
  = "0.10000000000000009"
  /\ Js.within (Js.Number_ (JNum 11 (-1))) (Js.Number_ (jnum 1)) (1 # 10)
     = false
  /\ Js.within (Js.Number_ (jnum 9007199254740993))
       (Js.Number_ (jnum 9007199254740992)) 0
     = true
  /\ Js.String_ (jnum 9007199254740993) = "9007199254740992".
Proof. vm_compute. auto. Qed.

(** ** The scores that are bounded *)

Lemma universe_length_le (c : ComparisonResult) :
  (List.length (universe c)
   <= List.length (mismatches c) + List.length (missing c))%nat.
Proof.
  unfold universe.
  rewrite <- (length_map mismatch_path), <- (length_map missing_path),
    <- length_app.
  apply NoDup_incl_length; [apply NoDup_nodup|].
  intros x Hx. now apply nodup_In in Hx.
Qed.

Lemma Math_round_le (x y : Q) :
  x <= y -> (Scorer.Math_round x <= Scorer.Math_round y)%Z.
Proof.
  intros H. unfold Scorer.Math_round. apply Qfloor_resp_le.
  now apply Qplus_le_l.
Qed.

Lemma round2_le (x y : Q) : x <= y -> Scorer.round2 x <= Scorer.round2 y.
Proof.
  intros H. unfold Scorer.round2.
  apply Qmult_le_compat_r; [|discriminate].
  rewrite <- Zle_Qle. apply Math_round_le.
  apply Qmult_le_compat_r; [assumption | discriminate].
Qed.

Lemma Math_max_lower (a b : Q) : a <= Scorer.Math_max a b.
Proof.
  unfold Scorer.Math_max. destruct (Qle_bool a b) eqn:H.
  - now apply Qle_bool_iff.
  - apply Qle_refl.
Qed.

Lemma universe_In_paths (c : ComparisonResult) (f : string) :
  In f (Scorer.extractSchema c) ->
  existsb (fun m => String.eqb (missing_path m) f) (missing c) = true
  \/ existsb (fun m => String.eqb (mismatch_path m) f) (mismatches c) = true.
Proof.
  intros H. apply extractSchema_In in H. unfold universe in H.
  apply nodup_In in H. apply in_app_or in H. destruct H as [H | H].
  - right. apply in_map_iff in H. destruct H as (m & <- & Hm).
    apply existsb_exists. exists m. split; [assumption|].
    apply String.eqb_refl.
  - left. apply in_map_iff in H. destruct H as (m & <- & Hm).
    apply existsb_exists. exists m. split; [assumption|].
    apply String.eqb_refl.
Qed.

Lemma scoreField_one (c : ComparisonResult) (config : ScoringConfig)
    (f : string) :
  In f (Scorer.extractSchema c) ->
  exists fs,
    Scorer.scoreField c config f = [fs]
    /\ (field_score fs = 0 \/ field_score fs = 50).
Proof.
  intros H. unfold Scorer.scoreField.
  destruct (universe_In_paths c f H) as [-> | Hm].
  - eexists. split; [reflexivity | now left].
  - destruct (existsb _ (missing c)).
    + eexists. split; [reflexivity | now left].
    + rewrite Hm. eexists. split; [reflexivity | now right].
Qed.

Lemma scoreField_universe (c : ComparisonResult) (config : ScoringConfig)
    (l : list string) :
  (forall f, In f l -> In f (Scorer.extractSchema c)) ->
  List.length (flat_map (Scorer.scoreField c config) l) = List.length l
  /\ Forall (fun fs => field_score fs = 0 \/ field_score fs = 50)
       (flat_map (Scorer.scoreField c config) l).
Proof.
  induction l as [|f l IH]; intros H; [split; constructor|].
  destruct IH as [IHl IHf]; [intros; apply H; now right|].
  destruct (scoreField_one c config f (H f (or_introl eq_refl)))
    as (fs & E & Hfs).
  cbn [flat_map]. rewrite E. cbn [app List.length]. rewrite IHl.
  split; [reflexivity | now constructor].
Qed.

(** X9.  Every field score is 0 (missing), 50 (mismatched) or 75 (extra):
    a path of the universe is always missing or mismatched, so the
    "Perfect match" score of 100 is never given.  With a non-empty
    universe there is one score per path of the universe and one per
    extra entry. *)
Theorem field_scores_never_perfect (c : ComparisonResult)
    (config : ScoringConfig) :
  Forall (fun fs => field_score fs = 0 \/ field_score fs = 50
                    \/ field_score fs = 75)
    (fieldScores (Scorer.score c config))
  /\ List.length (fieldScores (Scorer.score c config))
     = match universe c with
       | [] => O
       | _ => (List.length (universe c) + List.length (extra c))%nat
       end.
Proof.
  unfold Scorer.score. rewrite extractSchema_size.
  destruct (universe c) as [|p ps] eqn:Hu.
  - split; [constructor | reflexivity].
  - cbn [List.length Z.of_nat Z.eqb fieldScores].
    destruct (scoreField_universe c config (Scorer.extractSchema c)
                (fun f H => H)) as [Hlen Hall].
    split.
    + apply Forall_app. split.
      * eapply Forall_impl; [|exact Hall]. cbn. intuition.
      * apply Forall_forall. intros fs Hfs. apply in_map_iff in Hfs.
        destruct Hfs as (e & <- & _). right. right. reflexivity.
    + rewrite length_app, length_map, Hlen.
      change (List.length (Scorer.extractSchema c))
        with (JsSet.size (Scorer.extractSchema c)).
      now rewrite extractSchema_size, Hu.
Qed.

Lemma round2_nonpositive (x : Q) : x <= 0 -> Scorer.round2 x <= 0.
Proof.
  intros H. eapply Qle_trans; [apply (round2_le x 0 H)|].
  vm_compute. discriminate.
Qed.

Lemma round2_nonnegative (x : Q) : 0 <= x -> 0 <= Scorer.round2 x.
Proof.
  intros H. eapply Qle_trans; [|apply (round2_le 0 x H)].
  vm_compute. discriminate.
Qed.

Lemma round2_at_most_100 (x : Q) : x <= 100 -> Scorer.round2 x <= 100.
Proof.
  intros H. eapply Qle_trans; [apply (round2_le x 100 H)|].
  vm_compute. discriminate.
Qed.

(** X10.  With a non-empty universe the completeness score is never
    positive (every path of the universe is missing or mismatched), the
    accuracy score is at most 100, the extra-field score is at least 0,
    and the overall score is at least 0, and at most 100 when no penalty
    is negative. *)
Theorem score_bounds (c : ComparisonResult) (config : ScoringConfig) :
  universe c <> [] ->
  completenessScore (Scorer.score c config) <= 0
  /\ accuracyScore (Scorer.score c config) <= 100
  /\ 0 <= extraFieldScore (Scorer.score c config)
  /\ 0 <= overallScore (Scorer.score c config)
  /\ (0 <= missingFieldPenalty config -> 0 <= mismatchPenalty config ->
      0 <= extraFieldPenalty config ->
      overallScore (Scorer.score c config) <= 100).
Proof.
  intros Hne.
  assert (List.length (universe c) <> O) as Hlen
      by (destruct (universe c); [congruence | discriminate]).
  pose proof (universe_length_le c) as Hle.
  unfold Scorer.score. rewrite extractSchema_size.
  destruct (Z.of_nat (List.length (universe c)) =? 0)%Z eqn:Hz;
    [apply Z.eqb_eq in Hz; lia|].
  cbn [completenessScore accuracyScore overallScore extraFieldScore].
  unfold Scorer.len.
  set (t := Z.of_nat (List.length (universe c))) in *.
  set (x := Z.of_nat (List.length (missing c))) in *.
  set (y := Z.of_nat (List.length (mismatches c))) in *.
  set (z := Z.of_nat (List.length (extra c))) in *.
  assert (0 < inject_Z t) as Ht
      by (change 0 with (inject_Z 0); rewrite <- Zlt_Qlt; subst t; lia).
  assert (0 <= inject_Z x) as Hx
      by (change 0 with (inject_Z 0); rewrite <- Zle_Qle; subst x; lia).
  assert (0 <= inject_Z y) as Hy
      by (change 0 with (inject_Z 0); rewrite <- Zle_Qle; subst y; lia).
  assert (0 <= inject_Z z) as Hzz
      by (change 0 with (inject_Z 0); rewrite <- Zle_Qle; subst z; lia).
  assert (forall q, 0 <= q -> 0 <= q / inject_Z t) as Hdiv.
  { intros q Hq. apply Qle_shift_div_l; [assumption|]. now rewrite Qmult_0_l. }
  assert (forall q, q <= 0 -> q / inject_Z t <= 0) as Hdiv'.
  { intros q Hq. apply Qle_shift_div_r; [assumption|]. now rewrite Qmult_0_l. }
  repeat apply conj.
  - apply round2_nonpositive.
    assert (inject_Z (t - x - y) / inject_Z t <= 0) as H.
    { apply Hdiv'. change 0 with (inject_Z 0). rewrite <- Zle_Qle.
      subst t x y. lia. }
    lra.
  - apply round2_at_most_100.
    assert (inject_Z (t - y) / inject_Z t <= 1) as H.
    { apply Qle_shift_div_r; [assumption|]. rewrite Qmult_1_l.
      rewrite <- Zle_Qle. subst t y. lia. }
    lra.
  - apply round2_nonnegative.
    assert (0 < Scorer.Math_max (inject_Z t) 1) as Hm
        by (eapply Qlt_le_trans; [exact Ht | apply Math_max_lower]).
    assert (0 <= inject_Z z / Scorer.Math_max (inject_Z t) 1) as H.
    { apply Qle_shift_div_l; [assumption|]. now rewrite Qmult_0_l. }
    lra.
  - apply round2_nonnegative, Math_max_lower.
  - intros P1 P2 P3. apply round2_at_most_100.
    assert (0 <= (0 + inject_Z x * missingFieldPenalty config
                  + inject_Z y * mismatchPenalty config
                  + inject_Z z * extraFieldPenalty config) / inject_Z t)
      as H.
    { apply Hdiv.
      pose proof (Qmult_le_0_compat _ _ Hx P1).
      pose proof (Qmult_le_0_compat _ _ Hy P2).
      pose proof (Qmult_le_0_compat _ _ Hzz P3). lra. }
    unfold Scorer.Math_max.
    destruct (Qle_bool 0 _); [lra | discriminate].
Qed.

Lemma score_bounds_witness :
  completenessScore
    (Scorer.score
       (Comparator.compare (JObj [("x", jnum 1); ("y", jnum 2)])
          (JObj [("x", jnum 1)]) defaultRules) defaultScoring) <= 0.
Proof.
  apply (score_bounds
           (Comparator.compare (JObj [("x", jnum 1); ("y", jnum 2)])
              (JObj [("x", jnum 1)]) defaultRules) defaultScoring).
  vm_compute. discriminate.
Defined.

(** ** The schema inferrer keeps its map in order *)

Lemma set_keys (m : JsMap.t) (k : string) (v : SchemaField) :
  map fst (JsMap.set m k v)
  = if JsSet.has (map fst m) k then map fst m
    else (map fst m ++ [k])%list.
Proof.
  induction m as [|[k' v'] m IH]; [reflexivity|].
  cbn [JsMap.set map fst JsSet.has existsb].
  destruct (String.eqb k k') eqn:E; cbn [orb map fst].
  - apply String.eqb_eq in E. now subst.
  - unfold JsSet.has in IH. rewrite IH.
    now destruct (existsb (String.eqb k) (map fst m)).
Qed.

Lemma set_get (m : JsMap.t) (k : string) (v : SchemaField) :
  JsMap.get (JsMap.set m k v) k = Some v.
Proof.
  induction m as [|[k' v'] m IH]; cbn [JsMap.set JsMap.get].
  - now rewrite String.eqb_refl.
  - destruct (String.eqb k k') eqn:E; cbn [JsMap.get].
    + now rewrite String.eqb_refl.
    + now rewrite E.
Qed.

Lemma set_In (m : JsMap.t) (k : string) (v : SchemaField)
    (kv : string * SchemaField) :
  In kv (JsMap.set m k v) -> kv = (k, v) \/ In kv m.
Proof.
  induction m as [|[k' v'] m IH]; cbn [JsMap.set].
  - intros [<- | []]. now left.
  - destruct (String.eqb k k').
    + intros [<- | H]; [now left | right; now right].
    + intros [<- | H]; [right; now left|].
      destruct (IH H) as [-> | H']; [now left | right; now right].
Qed.

Lemma set_schema_ok (m : JsMap.t) (k : string) (v : SchemaField) :
  schema_path v = k -> isRequired v = true ->
  schema_ok m -> schema_ok (JsMap.set m k v).
Proof.
  intros Hp Hr [Hnd Hall]. split.
  - rewrite set_keys. destruct (JsSet.has (map fst m) k) eqn:E;
      [assumption|].
    apply NoDup_app; [assumption | repeat constructor; intros [] |].
    intros x Hx [<- | []]. apply has_In in Hx. congruence.
  - apply Forall_forall. intros kv Hkv.
    destruct (set_In _ _ _ _ Hkv) as [-> | Hin]; [now split|].
    rewrite Forall_forall in Hall. now apply Hall.
Qed.

Lemma traverseObject_schema_ok (obj : Json) :
  forall prefix fields0,
    schema_ok fields0 ->
    schema_ok (SchemaInferrer.traverseObject obj prefix fields0).
Proof.
  induction obj as [| b | m e | s | l IH | kvs IH] using Json_nested_ind;
    intros prefix fields0 H; try exact H.
  - cbn [SchemaInferrer.traverseObject]. destruct l as [|x l]; [exact H|].
    inversion IH as [|? ? Hx _]; subst.
    destruct (SchemaInferrer.is_container x); [now apply Hx|].
    now apply set_schema_ok.
  - cbn [SchemaInferrer.traverseObject]. revert fields0 H.
    induction IH as [|[k v] rest Hv _ IHrest]; intros fields0 H;
      [exact H|].
    cbn [snd] in Hv.
    destruct v as [| b | m e | s | items | props];
      try (apply IHrest; now apply set_schema_ok).
    + destruct items as [|x items];
        [apply IHrest; now apply set_schema_ok|].
      destruct (SchemaInferrer.is_container x) eqn:Hx.
      * apply IHrest.
        assert (schema_ok
                  (SchemaInferrer.traverseObject (JArr (x :: items))
                     (Comparator.fieldPath prefix k) fields0)) as H'
            by now apply Hv.
        cbn [SchemaInferrer.traverseObject] in H'. now rewrite Hx in H'.
      * apply IHrest. now apply set_schema_ok.
    + apply IHrest. now apply Hv.
Qed.

Lemma get_of_entry (m : JsMap.t) (k : string) (v : SchemaField) :
  NoDup (map fst m) -> In (k, v) m -> JsMap.get m k = Some v.
Proof.
  induction m as [|[k' v'] m IH]; intros Hnd Hin; [contradiction|].
  inversion Hnd as [|? ? Hnotin Hnd']; subst. cbn [JsMap.get].
  destruct Hin as [E | Hin].
  - inversion E; subst. now rewrite String.eqb_refl.
  - destruct (String.eqb k k') eqn:E; [|now apply IH].
    apply String.eqb_eq in E. subst. elim Hnotin.
    change k' with (fst (k', v)). now apply in_map.
Qed.

(** X11.  The inferred schema is a proper map whatever the value: no path
    is recorded twice, so [totalFields] counts distinct paths; every field
    is stored under its own path, is marked required, and is what a lookup
    of its path gives back. *)
Theorem inferred_schema_is_a_map (data : Json) (prefix : string) :
  NoDup (map fst (fields (SchemaInferrer.infer data prefix)))
  /\ schema_totalFields (SchemaInferrer.infer data prefix)
     = List.length (map fst (fields (SchemaInferrer.infer data prefix)))
  /\ forall path f,
       In (path, f) (fields (SchemaInferrer.infer data prefix)) ->
       schema_path f = path
       /\ isRequired f = true
       /\ JsMap.get (fields (SchemaInferrer.infer data prefix)) path
          = Some f.
Proof.
  unfold SchemaInferrer.infer. cbn [fields schema_totalFields].
  destruct (traverseObject_schema_ok data prefix []) as [Hnd Hall].
  { split; constructor. }
  split; [assumption|]. split; [unfold JsMap.size; now rewrite length_map|].
  intros path f Hin. rewrite Forall_forall in Hall.
  destruct (Hall _ Hin) as [Hp Hr]. repeat split; try assumption.
  now apply get_of_entry.
Qed.

Lemma inferred_schema_is_a_map_witness :
  exists f,
    In ("name", f) (fields (SchemaInferrer.infer
                              (JObj [("name", JStr "Ada")]) ""))
    /\ schema_path f = "name".
Proof.
  eexists. split.
  - left. reflexivity.
  - apply (proj2 (proj2 (inferred_schema_is_a_map
                           (JObj [("name", JStr "Ada")]) "")) "name" _
             (or_introl eq_refl)).
Defined.

(** ** The orchestrator: width, order of the calls, aggregation *)

(** X12.  Bounded concurrency.  [maxParallel] is a number, whole or not:
    at every moment of a run either no case is in flight, or the cases in
    flight less one are fewer than [maxParallel] (the last one was started
    when the others were fewer than the limit); so that with a whole
    limit n at most n cases are in flight, and with a limit of 1.5 two
    cases run together. *)
Theorem bounded_concurrency (config : TestSuiteConfig)
    (cases0 : list TestCase) (maxParallel : Js.number) (p : Pool) :
  reachable config cases0 maxParallel p ->
  (activeCount p = 0%nat
   \/ Js.ltb (Js.of_count (activeCount p - 1)) maxParallel = true)
  /\ (forall n : nat,
         maxParallel = Js.of_count n -> (activeCount p <= n)%nat).
Proof.
  intros Hp.
  pose proof (OrchestratorFacts.reachable_under_limit
                config cases0 maxParallel p Hp) as H.
  split; [exact H|]. intros n ->. destruct H as [H|H]; [lia|].
  unfold Js.of_count in H. cbn [Js.ltb] in H.
  apply negb_true_iff in H.
  destruct (Nat.le_gt_cases (activeCount p) n) as [L|G]; [exact L|].
  assert (Qle_bool (inject_Z (Z.of_nat n))
            (inject_Z (Z.of_nat (activeCount p - 1))) = true) as C
      by (apply Qle_bool_iff; rewrite <- Zle_Qle; lia).
  congruence.
Qed.

Lemma bounded_concurrency_witness :
  activeCount (initial sample_pair_config [sample_case; sample_sibling]
                 (Js.Fin (3 # 2)))
  = 2%nat
  /\ (activeCount (initial sample_pair_config [sample_case; sample_sibling]
                     (Js.Fin (3 # 2)))
      = 0%nat
      \/ Js.ltb
           (Js.of_count
              (activeCount
                 (initial sample_pair_config [sample_case; sample_sibling]
                    (Js.Fin (3 # 2))) - 1))
           (Js.Fin (3 # 2))
         = true).
Proof.
  split; [reflexivity|].
  exact (proj1 (bounded_concurrency sample_pair_config
                  [sample_case; sample_sibling] (Js.Fin (3 # 2)) _
                  (reachable_initial _ _ _))).
Defined.

(** X13.  [runCase] calls the service last: whatever the answers it is
    given, the service is called only when the input and the ground truth
    have both been fetched, it is sent the input just fetched, at the
    endpoint of the case with the authentication of the suite, and the
    three calls are the only ones made. *)
Theorem service_is_called_after_both_fetches (tc : TestCase)
    (config : TestSuiteConfig) (hist : list response)
    (endpoint : option string) (method : string) (sent : Json)
    (a : option Auth) :
  In (ExecuteService endpoint method sent a)
     (asked (runCase tc config) hist) ->
  (exists g rest, hist = (inr sent :: inr g :: rest)%list)
  /\ endpoint = execution_endpoint tc
  /\ a = auth config
  /\ asked (runCase tc config) hist
     = [FetchData (input tc) (auth config);
        FetchData (groundTruth tc) (auth config);
        ExecuteService endpoint method sent a].
Proof.
  unfold runCase. cbv zeta.
  destruct hist as [|[e1|i] [|[e2|g] [|[e3|o] [|r4 hist]]]];
    cbv beta iota fix delta [asked try_catch bind await ret];
    cbn [In]; intros H; repeat destruct H as [H|H];
    try discriminate H; try contradiction H;
    injection H as <- <- <- <-; repeat split; eexists _, _; reflexivity.
Qed.

Lemma service_is_called_after_both_fetches_witness :
  asked (runCase sample_case sample_config) [inr (JStr "doc"); inr JNull]
  = [FetchData (input sample_case) (auth sample_config);
     FetchData (groundTruth sample_case) (auth sample_config);
     ExecuteService (Some "http://localhost:8000/extract") "POST"
       (JStr "doc") None].
Proof.
  exact (proj2 (proj2 (proj2
           (service_is_called_after_both_fetches sample_case sample_config
              [inr (JStr "doc"); inr JNull]
              (Some "http://localhost:8000/extract") "POST" (JStr "doc")
              None (or_intror (or_intror (or_introl eq_refl))))))).
Defined.

Lemma runCase_status (tc : TestCase) (config : TestSuiteConfig)
    (hist : list response) (result : TestCaseResult) :
  feed (runCase tc config) hist = Some (Done (inr result)) ->
  match status result with
  | status_passed =>
      passed (comparison result) = true
      /\ warnings (comparison result) = [] /\ error result = None
  | status_warning =>
      passed (comparison result) = true
      /\ warnings (comparison result) <> [] /\ error result = None
  | status_failed =>
      passed (comparison result) = false
  end
  /\ (error result = None <-> first_error hist = None).
Proof.
  unfold runCase. cbv zeta.
  generalize (rules_of (spread_rules (defaults_comparison config)
                          (case_comparison tc))).
  generalize (scoring_of (spread_scoring (defaults_scoring config)
                            (case_scoring tc))).
  intros sc rules.
  destruct hist as [|[e1|i] [|[e2|g] [|[e3|o] [|r4 hist]]]];
    cbv beta iota fix delta [feed try_catch bind await ret];
    try discriminate; intros H;
    apply (f_equal (fun x => match x with
                             | Some (Done (inr r)) => r
                             | _ => result
                             end)) in H;
    cbv beta iota in H; rewrite <- H; clear H; cbn [first_error];
    try (split; [reflexivity | split; discriminate]).
  generalize (Comparator.compare g o rules). intros c.
  cbn [status comparison error].
  split; [|split; reflexivity].
  destruct (passed c); cbn [negb]; [|reflexivity].
  destruct (warnings c); cbn [List.length Nat.eqb negb];
    repeat split; discriminate.
Qed.



Lemma count_status_partition (rs : list TestCaseResult) :
  (count_status status_passed rs + count_status status_failed rs
   + count_status status_warning rs)%nat = List.length rs.
Proof.
  unfold count_status. induction rs as [|r rs IH]; [reflexivity|].
  cbn [filter List.length]. destruct (status r); cbn [List.length]; lia.
Qed.

Lemma count_status_zero (s : Status) (rs : list TestCaseResult) :
  count_status s rs = 0%nat -> Forall (fun r => status r <> s) rs.
Proof.
  unfold count_status. induction rs as [|r rs IH]; intros H; [constructor|].
  cbn [filter] in H. destruct (status r) eqn:Er, s; cbn [List.length] in H;
    try discriminate H; (constructor; [rewrite ?Er; discriminate | auto]).
Qed.

(** X15.  The summary of a completed suite run adds up: every case of the
    configuration is counted exactly once, as passed, failed or warning,
    so the three counts sum to [totalCases]; and when the summary reports
    no failed case, none of the external calls of any case has failed. *)
Theorem suite_counts_add_up (config : TestSuiteConfig) (p : Pool)
    (rs : list TestCaseResult) :
  cases config <> [] ->
  reachable config (cases config) (maxParallel_of config) p ->
  resolved p = Some rs ->
  (passedCases (aggregate config rs) + failedCases (aggregate config rs)
   + warningCases (aggregate config rs))%nat
  = totalCases (aggregate config rs)
  /\ (failedCases (aggregate config rs) = 0%nat ->
      Forall (fun c => first_error (snd c) = None) (settled p)).
Proof.
  intros Hne Hp Hrs.
  destruct (OrchestratorFacts.reachable_invariant
              config (cases config) (maxParallel_of config) p Hp)
    as [Hc _ Hr Hres].
  destruct (Hres rs Hrs) as (-> & Hq & Ha).
  rewrite Hq, Ha in Hc. cbn [app map] in Hc.
  cbn [aggregate passedCases failedCases warningCases totalCases].
  split.
  - rewrite count_status_partition, <- (Forall2_length Hr),
      <- (Permutation_length Hc). now rewrite length_map.
  - intros H0. apply count_status_zero in H0.
    clear Hc Hres Hrs Hq Ha Hp.
    induction Hr as [|c r cs rs' Hcr _ IH]; [constructor|].
    inversion H0 as [|? ? Hs Hrest]; subst.
    constructor; [|now apply IH].
    destruct (first_error (snd c)) as [e|] eqn:Ee; [|reflexivity].
    destruct (OrchestratorFacts.runCase_feed config (fst c) (snd c) _ Hcr)
      as (_ & _ & Hout).
    destruct (Hout _ eq_refl) as (result & [= <-] & _ & Herr).
    rewrite (Herr e Ee) in Hs. now contradiction Hs.
Qed.

Lemma suite_counts_add_up_witness :
  (passedCases (aggregate sample_config [sample_failure])
   + failedCases (aggregate sample_config [sample_failure])
   + warningCases (aggregate sample_config [sample_failure]))%nat = 1%nat.
Proof.
  apply (proj1 (suite_counts_add_up sample_config sample_final
                  [sample_failure]
                  ltac:(discriminate) sample_run eq_refl)).
Defined.

(** ** The data fetcher *)

Import DataFetcher.

Lemma fetchFromFile_failure (h : Host) (filePath : string) (e : exn) :
  fetchFromFile h filePath = inl e ->
  e = Error ("Failed to read file: " ++ filePath).
Proof.
  unfold fetchFromFile. cbv zeta.
  destruct (readFileSync h (resolve h filePath)) as [e0|content].
  - now intros [= <-].
  - destruct (if endsWith filePath ".json" then JSON_parse h content
              else inr (JStr (base64 h content))) as [e0|v].
    + now intros [= <-].
    + discriminate.
Qed.

(** X16.  However a fetch fails, the error that reaches the caller carries
    one of two messages, naming the file or the endpoint of the source:
    the original cause (a missing file, malformed JSON, a missing
    credential, an HTTP error) is not passed on.  Inline JSON that is not
    a string never fails. *)
Theorem fetch_failures_name_the_source (h : Host) (source : DataSource)
    (auth : option Auth) (answer : exn + Json) (e : exn) :
  run (fetchData h source auth) answer = inl e ->
  match source with
  | FileSource path | JsonFileSource path | JsonInlineSource (JStr path) =>
      e = Error ("Failed to read file: " ++ path)
  | ApiSource endpoint _ _ =>
      e = Error ("Failed to fetch from API: " ++ endpoint)
  | JsonInlineSource _ => False
  end.
Proof.
  destruct source as [path|endpoint method body|path|j];
    cbn [fetchData run fetchJson].
  - apply fetchFromFile_failure.
  - unfold fetchFromApi.
    destruct (auth_headers h auth []) as [e0|headers]; cbn [run].
    + now intros [= <-].
    + destruct answer as [e0|d]; [now intros [= <-] | discriminate].
  - apply fetchFromFile_failure.
  - destruct j; try discriminate. apply fetchFromFile_failure.
Qed.

Lemma fetch_failures_name_the_source_witness :
  Error "Failed to read file: input.json"
  = Error ("Failed to read file: " ++ "input.json").
Proof.
  exact (fetch_failures_name_the_source bare_host (FileSource "input.json")
           None (inl Thrown) (Error "Failed to read file: input.json")
           eq_refl).
Defined.

Lemma get_assign (o : list (string * string)) (name value : string) :
  get_header (assign o name value) name = Some value.
Proof.
  induction o as [|[k v] o IH]; cbn [assign get_header].
  - now rewrite String.eqb_refl.
  - destruct (String.eqb k name) eqn:E; cbn [get_header]; rewrite E;
      [reflexivity | exact IH].
Qed.

Lemma get_set_header (o : list (string * string)) (name value : string) :
  name <> "__proto__" ->
  get_header (set_header o name value) name = Some value.
Proof.
  intros H. unfold set_header.
  destruct (String.eqb name "__proto__") eqn:E.
  - now apply String.eqb_eq in E.
  - apply get_assign.
Qed.

Lemma auth_headers_credential (h : Host) (auth : option Auth)
    (start headers : list (string * string)) :
  auth_headers h auth start = inr headers ->
  match auth with
  | Some (AuthBearer tokenEnv) =>
      exists token,
        env h tokenEnv = Some token /\ token <> ""
        /\ get_header headers "Authorization" = Some ("Bearer " ++ token)
  | Some (AuthApiKey keyEnv headerName) =>
      exists key,
        env h keyEnv = Some key /\ key <> ""
        /\ ((if String.eqb headerName "" then "X-API-Key" else headerName)
            <> "__proto__" ->
            get_header headers
              (if String.eqb headerName "" then "X-API-Key" else headerName)
            = Some key)
  | _ => True
  end.
Proof.
  unfold auth_headers. destruct auth as [[tokenEnv|keyEnv headerName|]|];
    try exact (fun _ => I).
  - destruct (env h tokenEnv) as [token|]; [|discriminate].
    destruct (String.eqb token "") eqn:E; [discriminate|].
    intros [= <-]. exists token. repeat split.
    + intros ->. discriminate E.
    + now apply get_set_header.
  - destruct (env h keyEnv) as [key|]; [|discriminate].
    destruct (String.eqb key "") eqn:E; [discriminate|].
    intros [= <-]. exists key. repeat split.
    + intros ->. discriminate E.
    + now apply get_set_header.
Qed.

(** X17.  No request leaves without its credential.  If a fetch from an
    API or a service call makes an HTTP request while bearer
    authentication is configured, the named environment variable holds a
    non-empty token and the request has the header
    [Authorization: Bearer <token>]; with API-key authentication the
    variable holds a non-empty key and the request has it under the
    configured header name ([X-API-Key] when the name is empty), unless
    that name is [__proto__]. *)
Theorem requests_carry_the_credential (h : Host) (rq : request)
    (c : AxiosConfig) (k : exn + Json -> exn + Json) :
  perform h rq = Request c k ->
  match auth_of rq with
  | Some (AuthBearer tokenEnv) =>
      exists token,
        env h tokenEnv = Some token /\ token <> ""
        /\ get_header (axios_headers c) "Authorization"
           = Some ("Bearer " ++ token)
  | Some (AuthApiKey keyEnv headerName) =>
      exists key,
        env h keyEnv = Some key /\ key <> ""
        /\ ((if String.eqb headerName "" then "X-API-Key" else headerName)
            <> "__proto__" ->
            get_header (axios_headers c)
              (if String.eqb headerName "" then "X-API-Key" else headerName)
            = Some key)
  | _ => True
  end.
Proof.
  destruct rq as [source auth|endpoint method input auth];
    cbn [perform auth_of].
  - destruct source as [path|endpoint method body|path|j];
      cbn [fetchData]; try discriminate.
    unfold fetchFromApi.
    destruct (auth_headers h auth []) as [e0|headers] eqn:E;
      [discriminate|].
    intros [= <- _]. cbn [axios_headers].
    exact (auth_headers_credential h auth _ _ E).
  - unfold executeService.
    destruct (auth_headers h auth _) as [e0|headers] eqn:E; [discriminate|].
    intros [= <- _]. cbn [axios_headers].
    exact (auth_headers_credential h auth _ _ E).
Qed.

Lemma requests_carry_the_credential_witness :
  exists token,
    env host_with_token "API_TOKEN" = Some token /\ token <> ""
    /\ get_header
         [("Content-Type", "application/json");
          ("Authorization", "Bearer secret")]
         "Authorization"
       = Some ("Bearer " ++ token).
Proof.
  exact (requests_carry_the_credential host_with_token
           (ExecuteService (Some "http://localhost:8000/extract") "POST"
              JNull (Some (AuthBearer "API_TOKEN")))
           _ _ eq_refl).
Defined.

(** X18.  A case whose input file cannot be read fails with the message
    [Failed to read file: <path>], after the one attempt to fetch the
    input: neither the ground truth nor the service is asked for. *)
Theorem unreadable_input_fails_the_case (h : Host) (tc : TestCase)
    (config : TestSuiteConfig) (path : string) (e : exn) :
  input tc = FileSource path ->
  readFileSync h (resolve h path) = inl e ->
  let failure := Error ("Failed to read file: " ++ path) in
  perform h (FetchData (input tc) (auth config)) = Settled (inl failure)
  /\ asked (runCase tc config) [inl failure]
     = [FetchData (input tc) (auth config)]
  /\ exists result,
       feed (runCase tc config) [inl failure] = Some (Done (inr result))
       /\ status result = status_failed
       /\ error result
          = Some {| error_message := "Failed to read file: " ++ path;
                    error_code := "EXECUTION_ERROR" |}.
Proof.
  intros Hin Hread failure. split; [|split].
  - rewrite Hin. cbn [perform fetchData]. unfold fetchFromFile. cbv zeta.
    now rewrite Hread.
  - reflexivity.
  - eexists. repeat split.
Qed.

Lemma unreadable_input_fails_the_case_witness :
  perform bare_host (FetchData (input sample_case) (auth sample_config))
  = Settled (inl (Error ("Failed to read file: " ++ "input.json"))).
Proof.
  exact (proj1 (unreadable_input_fails_the_case bare_host sample_case
                  sample_config "input.json" Thrown eq_refl eq_refl)).
Defined.

(** X19.  With bearer authentication configured and the token missing
    from the environment (unset or empty), the service is never called:
    the service call fails at once with
    [Bearer token not found in env: <name>], and a case whose input and
    ground truth were fetched fails with that very message. *)
Theorem missing_token_fails_the_case (h : Host) (tc : TestCase)
    (config : TestSuiteConfig) (tokenEnv : string) (i g : Json) :
  auth config = Some (AuthBearer tokenEnv) ->
  env h tokenEnv = None \/ env h tokenEnv = Some "" ->
  let failure := Error ("Bearer token not found in env: " ++ tokenEnv) in
  (forall endpoint method input,
      executeService h endpoint method input (auth config)
      = Settled (inl failure))
  /\ exists result,
       feed (runCase tc config) [inr i; inr g; inl failure]
       = Some (Done (inr result))
       /\ status result = status_failed
       /\ error result
          = Some {| error_message :=
                      "Bearer token not found in env: " ++ tokenEnv;
                    error_code := "EXECUTION_ERROR" |}.
Proof.
  intros Hauth Henv failure. split.
  - intros endpoint method inp. rewrite Hauth.
    unfold executeService, auth_headers.
    now destruct Henv as [-> | ->].
  - eexists. repeat split.
Qed.

Lemma missing_token_fails_the_case_witness :
  executeService bare_host (Some "http://localhost:8000/extract") "POST"
    JNull (Some (AuthBearer "API_TOKEN"))
  = Settled (inl (Error ("Bearer token not found in env: " ++ "API_TOKEN"))).
Proof.
  exact (proj1 (missing_token_fails_the_case bare_host sample_case
                  {| suite_name := "Sample"; version := "1.0.0";
                     defaults_comparison := None; defaults_scoring := None;
                     auth := Some (AuthBearer "API_TOKEN");
                     concurrency_maxParallel := None;
                     cases := [sample_case] |}
                  "API_TOKEN" JNull JNull eq_refl (or_introl eq_refl))
           (Some "http://localhost:8000/extract") "POST" JNull).
Defined.
